(** * big-collatz: the deferred 3x+1 engine of [src/main.c]

    A shallow embedding of the word-array engine of [main]: the number
    buffer [narr], the cursor ([wordoffset], [bitmask]), the pending
    affine transform ([cvalue], [kvalue]), the single-word lazy update,
    the actualization pass, the compaction of the rolling window, and
    the loader of a binary number from a text file ([asbyte]).

    Unsigned 64-bit values are integers in [Z] with the wrap-around of
    the C operators written out ([wrap64]); the 128-bit intermediate
    product is wrapped at [2^128].  Operations whose behaviour C leaves
    undefined (a count of leading zeros of 0, an access outside the
    allocated buffer) make the embedded operation fail with [UB]. *)

From Stdlib Require Import ZArith List Bool Ascii Lia.
Import ListNotations.
Local Open Scope Z_scope.

(** ** Machine integers *)

Module Word.

Definition wrap64 (z : Z) : Z := z mod 2 ^ 64.
Definition wrap128 (z : Z) : Z := z mod 2 ^ 128.

(** [x << 1] on a [uint64_t]. *)
Definition shl1 (x : Z) : Z := wrap64 (Z.shiftl x 1).

(** The comparison operators of C yield the integers 0 and 1. *)
Definition b2i (b : bool) : Z := if b then 1 else 0.

Definition u64 (z : Z) : Prop := 0 <= z < 2 ^ 64.

End Word.
Import Word.

(** ** Constants of [main.c] *)

Definition STEPS_PRINT_RATE : Z := Z.shiftl 1 18.
Definition NWORDS : Z := 50000000.
Definition FARPAD : Z := 1000000.
Definition MSB64 : Z := 9223372036854775808.
Definition LSB64 : Z := 1.

(** [SCRATCHPAD] is a size in bytes; the buffer holds [CAPACITY] words. *)
Definition SCRATCHPAD : Z := FARPAD * 8 + NWORDS * 8.
Definition CAPACITY : Z := SCRATCHPAD / 8.

Definition MAX_CVALUE : Z := 4052555153018976267.
Definition MAX_KVALUE : Z := 6148914691236517204.

(** ** The single-word lazy update (lines 128-134) *)

(** [twice = *wordoffset << 1] *)
Definition twice_of (oldval : Z) : Z := shl1 oldval.

(** [*wordoffset = twice + *wordoffset + bitmask] *)
Definition lazy_word (oldval bitmask : Z) : Z :=
  wrap64 (wrap64 (twice_of oldval + oldval) + bitmask).

(** The carry out of the cursor word: [twice < oldval] plus
    [new <= twice], where [new] is the word just written. *)
Definition lazy_carry (oldval bitmask : Z) : Z :=
  b2i (twice_of oldval <? oldval) + b2i (lazy_word oldval bitmask <=? twice_of oldval).

(** [cvalue = (cvalue << 1) + cvalue] *)
Definition triple_c (cvalue : Z) : Z := wrap64 (shl1 cvalue + cvalue).

(** [kvalue = (kvalue << 1) + kvalue + carry] *)
Definition triple_k (kvalue carry : Z) : Z :=
  wrap64 (wrap64 (shl1 kvalue + kvalue) + carry).

(** The guard of the lazy path (line 124). *)
Definition lazy_guard (cvalue kvalue : Z) : bool :=
  (cvalue <=? MAX_CVALUE) && (kvalue <=? MAX_KVALUE).

(** ** Fallible operations *)

Inductive error : Type :=
| UB           (* behaviour that C leaves undefined *)
| ExitFailure. (* [exit(1)] after a diagnostic message *)

Inductive result (A : Type) : Type :=
| Ok (a : A)
| Err (e : error).
Arguments Ok {A} a.
Arguments Err {A} e.

Definition bind {A B : Type} (r : result A) (f : A -> result B) : result B :=
  match r with
  | Ok a => f a
  | Err e => Err e
  end.

Notation "x <- c ;; k" := (bind c (fun x => k))
  (at level 61, c at next level, right associativity).
Notation "' p <- c ;; k" := (bind c (fun x => match x with p => k end))
  (at level 61, p pattern, c at next level, right associativity).

(** ** Bit counting builtins *)

(** [__builtin_clzll]: undefined on 0. *)
Definition clzll (x : Z) : result Z :=
  if x =? 0 then Err UB else Ok (63 - Z.log2 x).

Fixpoint trailing_zeros (n : nat) (x : Z) : Z :=
  match n with
  | O => 0
  | S n' => if Z.odd x then 0 else 1 + trailing_zeros n' (x / 2)
  end.

(** [__builtin_ctzll]: undefined on 0. *)
Definition ctzll (x : Z) : result Z :=
  if x =? 0 then Err UB else Ok (trailing_zeros 64 x).

(** ** The number buffer *)

(** The buffer [narr] is addressed by word index; the pointers
    [wordoffset], [lastword] and [wordptr] of the source are indices
    relative to [narr].  [posix_memalign] does not clear the memory it
    returns, so the initial content is an arbitrary map. *)
Definition memory : Type := Z -> Z.

Definition upd (m : memory) (i v : Z) : memory :=
  fun j => if j =? i then v else m j.

Definition in_buffer (i : Z) : bool := (0 <=? i) && (i <? CAPACITY).

Definition load (m : memory) (i : Z) : result Z :=
  if in_buffer i then Ok (m i) else Err UB.

Definition store (m : memory) (i v : Z) : result memory :=
  if in_buffer i then Ok (upd m i v) else Err UB.

(** [memmove(narr, narr + src, n * sizeof(uint64_t))] *)
Definition memmove_front (m : memory) (src n : Z) : memory :=
  fun j => if (0 <=? j) && (j <? n) then m (src + j) else m j.

(** ** Engine state: the local variables of [main] that live across
    iterations of the main loop. *)

Record State : Type := mkState {
  narr : memory;
  wordoffset : Z;
  bitmask : Z;
  lastword : Z;
  bitsize : Z;
  cvalue : Z;
  kvalue : Z;
  steps : Z;
  divsteps : Z;
  mulsteps : Z;
  laststep : Z
}.

(** ** 128-bit multiply-add *)

(** [(__uint128_t) w * c + k] *)
Definition mul_add128 (w c k : Z) : Z := wrap128 (wrap128 (w * c) + k).

(** [(uint64_t) val128] *)
Definition lo64 (v : Z) : Z := wrap64 v.

(** [(uint64_t) (val128 >> 64)] *)
Definition hi64 (v : Z) : Z := wrap64 (Z.shiftr v 64).

(** ** The even branch (lines 97-105) *)

Definition even_branch (st : State) : result State :=
  if bitmask st =? MSB64 then
    let p := wordoffset st + 1 in
    w <- load (narr st) p ;;
    let val128 := mul_add128 w (cvalue st) (kvalue st) in
    m <- store (narr st) p (lo64 val128) ;;
    Ok (mkState m p 1 (lastword st) (bitsize st)
                (cvalue st) (hi64 val128)
                (wrap64 (steps st + 1)) (wrap64 (divsteps st + 1))
                (mulsteps st) (laststep st))
  else
    Ok (mkState (narr st) (wordoffset st) (shl1 (bitmask st)) (lastword st)
                (bitsize st) (cvalue st) (kvalue st)
                (wrap64 (steps st + 1)) (wrap64 (divsteps st + 1))
                (mulsteps st) (laststep st)).

(** ** The lazy path of the odd branch (lines 126-134) *)

Definition lazy_update (st : State) : result State :=
  oldval <- load (narr st) (wordoffset st) ;;
  m <- store (narr st) (wordoffset st) (lazy_word oldval (bitmask st)) ;;
  Ok (mkState m (wordoffset st) (bitmask st) (lastword st) (bitsize st)
              (triple_c (cvalue st))
              (triple_k (kvalue st) (lazy_carry oldval (bitmask st)))
              (wrap64 (steps st + 1)) (divsteps st)
              (wrap64 (mulsteps st + 1)) (laststep st)).

(** [wordoffset + 1 == lastword && kvalue] (line 137) *)
Definition hail_mary (st : State) : bool :=
  (wordoffset st + 1 =? lastword st) && negb (kvalue st =? 0).

(** ** Actualization (lines 141-153) *)

(** The [for] loop over the words above the cursor word; [n] is the
    number of words from [wordptr] up to [lastword - 1]. *)
Fixpoint flush_words (n : nat) (m : memory) (wordptr c k : Z)
  : result (memory * Z) :=
  match n with
  | O => Ok (m, k)
  | S n' =>
      w <- load m wordptr ;;
      let val128 := mul_add128 w c k in
      m' <- store m wordptr (lo64 val128) ;;
      flush_words n' m' (wordptr + 1) c (hi64 val128)
  end.

(** [if (kvalue) *lastword++ = kvalue] *)
Definition carry_out (m : memory) (lw k : Z) : result (memory * Z) :=
  if k =? 0 then Ok (m, lw)
  else m' <- store m lw k ;; Ok (m', lw + 1).

(** The pass itself (lines 141-151): the loop over the words above the
    cursor word, the carry out, and the reset of the pending
    transform.  [bitsize] is not touched yet. *)
Definition flush_pass (st : State) : result State :=
  ' (m, k) <- flush_words (Z.to_nat (lastword st - (wordoffset st + 1)))
                          (narr st) (wordoffset st + 1)
                          (cvalue st) (kvalue st) ;;
  ' (m1, lw) <- carry_out m (lastword st) k ;;
  Ok (mkState m1 (wordoffset st) (bitmask st) lw (bitsize st)
              1 0
              (steps st) (divsteps st) (mulsteps st) (laststep st)).

(** [bitsize] recomputed from the top word (lines 152-153). *)
Definition count_bits (st : State) : result State :=
  top <- load (narr st) (lastword st - 1) ;;
  lz <- clzll top ;;
  tz <- ctzll (bitmask st) ;;
  Ok (mkState (narr st) (wordoffset st) (bitmask st) (lastword st)
              (wrap64 ((lastword st - 0 - 1) * 64 + 64 - lz - tz))
              (cvalue st) (kvalue st)
              (steps st) (divsteps st) (mulsteps st) (laststep st)).

Definition actualize (st : State) : result State :=
  st1 <- flush_pass st ;;
  count_bits st1.

(** ** Compaction of the rolling window (lines 155-160) *)

Definition compaction (st : State) : State :=
  if lastword st >=? 0 + SCRATCHPAD / 8 - 2 then
    mkState (memmove_front (narr st) (wordoffset st)
                           (lastword st - wordoffset st))
            0 (bitmask st) (lastword st - (wordoffset st - 0))
            (bitsize st) (cvalue st) (kvalue st)
            (steps st) (divsteps st) (mulsteps st) (laststep st)
  else st.

(** ** Progress report (lines 163-166); the printed line is not
    modelled, only the update of [laststep]. *)

Definition telemetry (st : State) : State :=
  if steps st >=? wrap64 (laststep st + STEPS_PRINT_RATE) then
    mkState (narr st) (wordoffset st) (bitmask st) (lastword st)
            (bitsize st) (cvalue st) (kvalue st)
            (steps st) (divsteps st) (mulsteps st) (steps st)
  else st.

(** The block under the label [actualize:]. *)
Definition actualize_block (st : State) : result State :=
  st1 <- actualize st ;;
  Ok (telemetry (compaction st1)).

(** ** Recomputing [bitsize] from the last word (lines 170-171) *)

Definition refresh_bitsize (st : State) : result State :=
  if wordoffset st + 1 =? lastword st then
    w <- load (narr st) (wordoffset st) ;;
    lz <- clzll w ;;
    tz <- ctzll (bitmask st) ;;
    Ok (mkState (narr st) (wordoffset st) (bitmask st) (lastword st)
                (wrap64 (64 - lz - tz)) (cvalue st) (kvalue st)
                (steps st) (divsteps st) (mulsteps st) (laststep st))
  else Ok st.

(** ** One iteration of the main loop (lines 95-171) *)

(** What an iteration did to the number: a halving, a 3x+1 step, a
    3x+1 step followed by an actualization (the jump of line 137), or
    an actualization alone (the guard of line 124 failed; the odd bit
    is consumed by a later iteration). *)
Inductive event : Type := EvHalve | EvTriple | EvTripleFlush | EvFlush.

Definition odd_branch (st : State) : result (event * State) :=
  if lazy_guard (cvalue st) (kvalue st) then
    st1 <- lazy_update st ;;
    if hail_mary st1 then
      st2 <- actualize_block st1 ;; Ok (EvTripleFlush, st2)
    else Ok (EvTriple, st1)
  else
    st1 <- actualize_block st ;; Ok (EvFlush, st1).

Definition branch (st : State) : result (event * State) :=
  w <- load (narr st) (wordoffset st) ;;
  if Z.land w (bitmask st) =? 0 then
    st1 <- even_branch st ;; Ok (EvHalve, st1)
  else odd_branch st.

Definition iteration (st : State) : result (event * State) :=
  ' (ev, st1) <- branch st ;;
  st2 <- refresh_bitsize st1 ;;
  Ok (ev, st2).

(** ** The main loop, [while (bitsize != 1)] *)

(** [Running st]: the fuel ran out at the head of an iteration, in
    state [st]. *)
Inductive outcome : Type :=
| Finished (st : State)
| Failed (e : error)
| Running (st : State).

Fixpoint run (fuel : nat) (st : State) : outcome :=
  if bitsize st =? 1 then Finished st
  else
    match fuel with
    | O => Running st
    | S fuel' =>
        match iteration st with
        | Ok (_, st') => run fuel' st'
        | Err e => Failed e
        end
    end.

(** ** Loading the starting number (lines 48-80) *)

Definition wrap32 (z : Z) : Z := z mod 2 ^ 32.

(** A character of the string [num]; positions past the end of the
    digits read as the terminating NUL.  [asbyte] reads such positions
    only for the partial block, whose excess bits are shifted out. *)
Definition char_at (num : list ascii) (i : Z) : ascii :=
  nth (Z.to_nat i) num Ascii.zero.

(** [s[i] == '0'] fails. *)
Definition is_one (c : ascii) : bool := negb (Ascii.eqb c "0"%char).

(** [s[i] == '0' ? 0LU : 1LU] *)
Definition digit (c : ascii) : Z :=
  if Ascii.eqb c "0"%char then 0 else 1.

(** The loop of [asbyte]; [s] is the position in [num] the argument
    points to, and [n] the number of iterations left. *)
Fixpoint asbyte_loop (n : nat) (num : list ascii) (s i v : Z) : Z :=
  match n with
  | O => v
  | S n' =>
      asbyte_loop n' num s (i + 1)
        (wrap64 (v + wrap64 (Z.shiftl (digit (char_at num (s + i))) (63 - i))))
  end.

Definition asbyte (num : list ascii) (s : Z) : Z := asbyte_loop 64 num s 0 0.

(** The loop of lines 65-66: [c] is the position [c - num], and the
    loop runs while [c > num + extra].  Each iteration takes 64
    characters, so a [fuel] of [flen] iterations is never used up. *)
Fixpoint load_blocks (fuel : nat) (num : list ascii) (extra c i : Z)
    (m : memory) : result (memory * Z * Z) :=
  if c >? extra then
    match fuel with
    | O => Err UB
    | S fuel' =>
        m' <- store m i (asbyte num (c - 64)) ;;
        load_blocks fuel' num extra (c - 64) (wrap32 (i + 1)) m'
    end
  else Ok (m, c, i).

(** The last, partial block (lines 69-70). *)
Definition load_last (num : list ascii) (flen extra c i : Z) (m : memory)
  : result (memory * Z) :=
  if extra =? 0 then Ok (m, i)
  else
    m' <- store m i (Z.shiftr (asbyte num (c - flen mod 64)) (64 - extra)) ;;
    Ok (m', wrap32 (i + 1)).

(** Modelled from the spec: [usf_ftos] of [usfio.h], which is not among
    the sources.  It returns the content of the named file as a string
    and stores its length through its last argument; [file] is that
    content, the final newline included. *)
Definition usf_ftos (file : list ascii) : list ascii * Z :=
  (file, wrap64 (Z.of_nat (length file))).

(** The number read from a file (lines 52-74): the last character is
    cut off, the capacity is checked, and the digits are packed into
    words from the end of the string backwards. *)
Definition init_from_file (file : list ascii) (mem0 : memory) : result State :=
  let '(content, flen0) := usf_ftos file in
  match content with
  | [] => Err UB (* [num[--flen]] with [flen = 0] *)
  | _ :: _ =>
      let flen := wrap64 (flen0 - 1) in
      let num := firstn (Z.to_nat flen) content in
      let extra := wrap32 (flen mod 64) in
      let bitsize := flen in
      if bitsize / 64 >? NWORDS then Err ExitFailure
      else
        ' (m, c, i) <- load_blocks (Z.to_nat flen) num extra flen 0 mem0 ;;
        ' (m1, i1) <- load_last num flen extra c i m ;;
        Ok (mkState m1 0 1 (0 + i1) bitsize 1 0 0 0 0 0)
  end.

(** The synthetic starting value (lines 76-79): [memset] fills the
    first [SCRATCHPAD - FARPAD * 8] bytes with 255. *)
Definition init_synthetic (mem0 : memory) : State :=
  mkState
    (fun j => if (0 <=? j) && (j <? (SCRATCHPAD - FARPAD * 8) / 8)
              then 2 ^ 64 - 1 else mem0 j)
    0 1 ((SCRATCHPAD - FARPAD) / 8) (wrap64 ((SCRATCHPAD - FARPAD * 8) * 8))
    1 0 0 0 0 0.

(** The main loop again, recording the events (latest first). *)
Fixpoint run_events (fuel : nat) (st : State) (tr : list event)
  : list event * outcome :=
  if bitsize st =? 1 then (tr, Finished st)
  else
    match fuel with
    | O => (tr, Running st)
    | S fuel' =>
        match iteration st with
        | Ok (ev, st') => run_events fuel' st' (ev :: tr)
        | Err e => (tr, Failed e)
        end
    end.

(** [main] up to the end of the loop, started on a file. *)
Definition main_file (fuel : nat) (file : list ascii) (mem0 : memory) : outcome :=
  match init_from_file file mem0 with
  | Ok st => run fuel st
  | Err e => Failed e
  end.

(** ** The integer a state stands for *)

(** Little-endian value of a sequence of 64-bit words. *)
Fixpoint words_value (ws : list Z) : Z :=
  match ws with
  | [] => 0
  | w :: ws' => w + 2 ^ 64 * words_value ws'
  end.

(** The [n] words of [m] from index [lo] on. *)
Fixpoint read_range (m : memory) (lo : Z) (n : nat) : list Z :=
  match n with
  | O => []
  | S n' => m lo :: read_range m (lo + 1) n'
  end.

(** The active window [wordoffset, lastword). *)
Definition window (st : State) : list Z :=
  read_range (narr st) (wordoffset st) (Z.to_nat (lastword st - wordoffset st)).

(** The words strictly above the cursor word. *)
Definition high_words (st : State) : list Z :=
  read_range (narr st) (wordoffset st + 1)
             (Z.to_nat (lastword st - (wordoffset st + 1))).

(** The integer held by the buffer: the window, from the cursor's bit
    upwards. *)
Definition represented (st : State) : Z :=
  words_value (window st) / bitmask st.

(** The cursor word as it is, and the pending transform applied to the
    number formed by the words above it. *)
Definition pending_sum (st : State) : Z :=
  narr st (wordoffset st)
  + 2 ^ 64 * (cvalue st * words_value (high_words st) + kvalue st).

(** The tracked value: that sum from the cursor's bit upwards. *)
Definition tracked (st : State) : Z := pending_sum st / bitmask st.

(** Number of binary digits of a non-negative integer. *)
Definition bit_length (v : Z) : Z := if v =? 0 then 0 else Z.log2 v + 1.

(** ** Reference arithmetic on unbounded integers *)

Definition collatz_step (v : Z) : Z :=
  if Z.even v then v / 2 else 3 * v + 1.

Definition apply_event (ev : event) (v : Z) : Z :=
  match ev with
  | EvHalve => v / 2
  | EvTriple | EvTripleFlush => 3 * v + 1
  | EvFlush => v
  end.

(** Eager evaluation of a trace of events, the latest event first. *)
Fixpoint eager (tr : list event) (v : Z) : Z :=
  match tr with
  | [] => v
  | ev :: tr' => apply_event ev (eager tr' v)
  end.

Definition flushes (ev : event) : bool :=
  match ev with
  | EvTripleFlush | EvFlush => true
  | EvHalve | EvTriple => false
  end.

(** ** Runs of the driver *)

Definition typed_memory (m : memory) : Prop := forall i, u64 (m i).

(** The states in which the main loop is entered.  A file that names a
    starting value holds at least one digit before its final newline,
    and its length fits the [uint64_t] that receives it. *)
Inductive started : State -> Prop :=
| started_file (file : list ascii) (mem0 : memory) (st : State) :
    typed_memory mem0 ->
    2 <= Z.of_nat (length file) < 2 ^ 64 ->
    init_from_file file mem0 = Ok st ->
    started st
| started_synthetic (mem0 : memory) :
    typed_memory mem0 ->
    started (init_synthetic mem0).

(** [run_from st0 tr st]: the loop entered in [st0] is at the head of
    an iteration in state [st], after the events [tr] (latest first). *)
Inductive run_from (st0 : State) : list event -> State -> Prop :=
| run_nil : run_from st0 [] st0
| run_cons (tr : list event) (st st' : State) (ev : event) :
    run_from st0 tr st ->
    bitsize st <> 1 ->
    iteration st = Ok (ev, st') ->
    run_from st0 (ev :: tr) st'.

Definition reachable (st : State) : Prop :=
  exists st0 tr, started st0 /\ run_from st0 tr st.

(** ** Well-formed states *)

(** The mask selects one of the 64 bits of a word. *)
Definition single_bit (bm : Z) : Prop := exists b, 0 <= b <= 63 /\ bm = 2 ^ b.

(** What every branch of the loop body maintains: the window is not
    empty and lies in the buffer, the cursor word has no bit set below
    the cursor, and all the values fit their 64-bit variables. *)
Record well_formed (st : State) : Prop := {
  wf_memory : typed_memory (narr st);
  wf_cursor : 0 <= wordoffset st < lastword st;
  wf_last : lastword st <= CAPACITY;
  wf_mask : single_bit (bitmask st);
  wf_low : narr st (wordoffset st) mod bitmask st = 0;
  wf_cvalue : 1 <= cvalue st < 2 ^ 64;
  wf_kvalue : u64 (kvalue st)
}.

(** At the head of the loop moreover, a window of a single word holds
    a non-zero word once the cursor has moved. *)
Definition loop_invariant (st : State) : Prop :=
  well_formed st /\
  (wordoffset st + 1 = lastword st ->
   narr st (wordoffset st) <> 0 \/ bitmask st = 1).

(** The even branch is about to leave the word below the last one
    (line 98) and the pending transform makes the last word zero: the
    low half of [*wordoffset * cvalue + kvalue] is 0. *)
Definition enters_zero_word (st : State) : Prop :=
  bitmask st = MSB64 /\ wordoffset st + 2 = lastword st /\
  Z.land (narr st (wordoffset st)) (bitmask st) = 0 /\
  lo64 (mul_add128 (narr st (wordoffset st + 1)) (cvalue st) (kvalue st)) = 0.

(** Number of lazy 3x+1 steps since the last actualization, or since
    the start when there was none. *)
Fixpoint lazy_since_flush (tr : list event) : nat :=
  match tr with
  | [] => O
  | EvHalve :: tr' => lazy_since_flush tr'
  | EvTriple :: tr' => S (lazy_since_flush tr')
  | EvTripleFlush :: _ | EvFlush :: _ => O
  end.

(** Number of steps of the 3x+1 process in a trace. *)
Fixpoint step_count (tr : list event) : nat :=
  match tr with
  | [] => O
  | EvFlush :: tr' => step_count tr'
  | _ :: tr' => S (step_count tr')
  end.

(** What an event tells about the state it started from and the
    pending multiplier it leaves. *)
Definition event_effect (ev : event) (st st' : State) : Prop :=
  match ev with
  | EvHalve =>
      Z.even (tracked st) = true /\ cvalue st' = cvalue st
  | EvTriple =>
      Z.even (tracked st) = false /\
      lazy_guard (cvalue st) (kvalue st) = true /\
      cvalue st' = 3 * cvalue st
  | EvTripleFlush =>
      Z.even (tracked st) = false /\
      lazy_guard (cvalue st) (kvalue st) = true /\
      cvalue st' = 1 /\ kvalue st' = 0
  | EvFlush =>
      Z.even (tracked st) = false /\
      lazy_guard (cvalue st) (kvalue st) = false /\
      cvalue st' = 1 /\ kvalue st' = 0
  end.

(** [actualized_from st0 tr sa]: the driver entered in [st0] has just
    run the actualization pass (lines 141-153), which left the state
    [sa]; [tr] are the events so far.  The pass is reached either
    because the guard of line 124 failed, or by the jump of line 137
    after a lazy update, whose 3x+1 step is then part of [tr]. *)
Inductive actualized_from (st0 : State) : list event -> State -> Prop :=
| actualized_guard (tr : list event) (st sa : State) :
    run_from st0 tr st ->
    bitsize st <> 1 ->
    Z.land (narr st (wordoffset st)) (bitmask st) <> 0 ->
    lazy_guard (cvalue st) (kvalue st) = false ->
    actualize st = Ok sa ->
    actualized_from st0 tr sa
| actualized_jump (tr : list event) (st s1 sa : State) :
    run_from st0 tr st ->
    bitsize st <> 1 ->
    Z.land (narr st (wordoffset st)) (bitmask st) <> 0 ->
    lazy_guard (cvalue st) (kvalue st) = true ->
    lazy_update st = Ok s1 ->
    hail_mary s1 = true ->
    actualize s1 = Ok sa ->
    actualized_from st0 (EvTriple :: tr) sa.

(** ** Sample inputs *)

Definition newline : ascii := "010"%char.

(** The text file that holds the digits [ds]. *)
Definition file_of_digits (ds : list ascii) : list ascii := ds ++ [newline].

(** A buffer whose memory happens to be clear. *)
Definition clear_memory : memory := fun _ => 0.

(** What [asbyte] makes of a character: ['0'] stays, anything else
    counts as ['1']. *)
Definition as_binary (c : ascii) : ascii :=
  if Ascii.eqb c "0"%char then "0"%char else "1"%char.

(** The file that holds [2^k] in binary. *)
Definition pow2_file (k : Z) : list ascii :=
  file_of_digits ("1"%char :: repeat "0"%char (Z.to_nat k)).

(** The value [(2^64 - 1) 2^64]: 64 digits 1, then 64 digits 0. *)
Definition shifted_ones_file : list ascii :=
  file_of_digits (repeat "1"%char 64 ++ repeat "0"%char 64).

(** The value [2^127 + 2^62]. *)
Definition two_bits_file : list ascii :=
  file_of_digits ("1"%char :: repeat "0"%char 63
                  ++ "0"%char :: "1"%char :: repeat "0"%char 62).

(** The value [(2^66 - 1) / 3 * 2^62]: the top word is
    [0x5555555555555555] and the low word [2^62]. *)
Definition zero_word_file : list ascii :=
  file_of_digits (concat (repeat ["1"; "0"]%char 31)
                  ++ "1"%char :: "0"%char :: "1"%char :: repeat "0"%char 62).

(** The value [2^60 - 1] written with 132 leading zeros: three words,
    the upper two of which are 0. *)
Definition zero_padded_file : list ascii :=
  file_of_digits (repeat "0"%char 132 ++ repeat "1"%char 60).

(** A file of 66 characters and a newline with two characters that are
    no binary digits: [x] in the partial block and [z] in the full
    block. *)
Definition malformed_file : list ascii :=
  file_of_digits ("1"%char :: "x"%char :: repeat "0"%char 62
                  ++ ["z"; "0"]%char).

(** The states the driver goes through on [2^k]: after [j] halvings
    the cursor is at bit [j], the buffer still holds the single bit
    [k], and [bitsize] has been recomputed only if the cursor is in the
    last word. *)
Definition pow2_state (k j : Z) (st : State) : Prop :=
  wordoffset st = j / 64 /\
  bitmask st = 2 ^ (j mod 64) /\
  lastword st = k / 64 + 1 /\
  (forall i, 0 <= i <= k / 64 ->
     narr st i = if i =? k / 64 then 2 ^ (k mod 64) else 0) /\
  cvalue st = 1 /\ kvalue st = 0 /\
  steps st = j /\ divsteps st = j /\ mulsteps st = 0 /\
  bitsize st = if j / 64 =? k / 64 then k + 1 - j else k + 1.

(** What a finished run on the digits [ds] shows: the number of steps
    and of actualizations in its trace, the counter [steps] and the
    tracked value at the end. *)
Definition run_summary (fuel : nat) (ds : list ascii)
  : option (nat * nat * Z * Z) :=
  match init_from_file (file_of_digits ds) clear_memory with
  | Ok st0 =>
      match run_events fuel st0 [] with
      | (tr, Finished st) =>
          Some (step_count tr, length (filter flushes tr), steps st, tracked st)
      | _ => None
      end
  | Err _ => None
  end.

(** ** Proof automation *)

(** Reduce the projections of a state built by [mkState]. *)
Ltac fields :=
  cbn [narr wordoffset bitmask lastword bitsize cvalue kvalue
       steps divsteps mulsteps laststep] in *.

(** Case analysis on the first operation of a successful sequence. *)
Ltac bind_ok H x E :=
  match type of H with
  | bind ?c _ = Ok _ =>
      destruct c as [x |] eqn:E; cbn [bind] in H; [| discriminate H]
  end.

(** Linear arithmetic with quotients and remainders by constants. *)
Ltac dlia := Z.div_mod_to_equations; lia.

(** ** Counting the events of a trace *)

Definition is_halve (ev : event) : bool :=
  match ev with EvHalve => true | _ => false end.

Definition is_triple (ev : event) : bool :=
  match ev with EvTriple | EvTripleFlush => true | _ => false end.

(** Number of halvings, and of 3x+1 steps, in a trace. *)
Definition halve_count (tr : list event) : nat := length (filter is_halve tr).
Definition triple_count (tr : list event) : nat := length (filter is_triple tr).

(** ** Reference: the integer written by a string of digits *)

(** The digits are read most significant first; as in [asbyte], every
    character other than ['0'] counts as a 1. *)
Definition binary_value (ds : list ascii) : Z :=
  fold_left (fun v c => 2 * v + digit c) ds 0.

(** * Proofs *)

(** ** Machine integers *)

Lemma wrap64_small z : 0 <= z < 2 ^ 64 -> wrap64 z = z.
Proof. intros H. unfold wrap64. now apply Z.mod_small. Qed.

Lemma wrap64_once z : 2 ^ 64 <= z < 2 * 2 ^ 64 -> wrap64 z = z - 2 ^ 64.
Proof.
  intros H. unfold wrap64.
  symmetry. apply (Z.mod_unique z (2 ^ 64) 1); lia.
Qed.

Lemma wrap64_range z : u64 (wrap64 z).
Proof. unfold u64, wrap64. apply Z.mod_pos_bound. lia. Qed.

Lemma shl1_double x : shl1 x = wrap64 (2 * x).
Proof. unfold shl1. now rewrite Z.shiftl_mul_pow2 by lia; rewrite Z.mul_comm. Qed.

Lemma pow2_pos b : 0 <= b -> 0 < 2 ^ b.
Proof. intros. apply Z.pow_pos_nonneg; lia. Qed.

Lemma pow2_split b : 0 <= b <= 64 -> 2 ^ 64 = 2 ^ b * 2 ^ (64 - b).
Proof. intros. rewrite <- Z.pow_add_r by lia. f_equal. lia. Qed.

Lemma multiple_below_top old bm b :
  0 <= b <= 63 -> bm = 2 ^ b -> u64 old -> old mod bm = 0 -> old + bm <= 2 ^ 64.
Proof.
  intros Hb -> [H0 H1] Hm.
  pose proof (pow2_pos b ltac:(lia)) as Hp.
  pose proof (pow2_split b ltac:(lia)) as E.
  pose proof (Z.div_mod old (2 ^ b) ltac:(lia)) as D. rewrite Hm in D.
  assert (old / 2 ^ b < 2 ^ (64 - b)) by (apply Z.div_lt_upper_bound; lia).
  nia.
Qed.

(** The word written by the lazy update and the carry it reports add
    up to [3 * old + bitmask], as long as [old + bitmask] itself fits
    in 65 bits with no excess. *)
Lemma lazy_word_carry old bm :
  u64 old -> 0 < bm -> old + bm <= 2 ^ 64 ->
  3 * old + bm = lazy_word old bm + lazy_carry old bm * 2 ^ 64.
Proof.
  intros [H0 H1] Hbm Hs.
  unfold lazy_carry, lazy_word, twice_of. rewrite shl1_double.
  destruct (Z_lt_ge_dec (2 * old) (2 ^ 64)) as [Hd | Hd].
  - rewrite (wrap64_small (2 * old)) by lia.
    destruct (Z_lt_ge_dec (2 * old + old) (2 ^ 64)) as [Ha | Ha].
    + rewrite (wrap64_small (2 * old + old)) by lia.
      destruct (Z_lt_ge_dec (2 * old + old + bm) (2 ^ 64)) as [Hc | Hc].
      * rewrite wrap64_small by lia.
        destruct (Z.ltb_spec (2 * old) old),
          (Z.leb_spec (2 * old + old + bm) (2 * old)); cbv [b2i]; lia.
      * rewrite wrap64_once by lia.
        destruct (Z.ltb_spec (2 * old) old),
          (Z.leb_spec (2 * old + old + bm - 2 ^ 64) (2 * old)); cbv [b2i]; lia.
    + rewrite (wrap64_once (2 * old + old)) by lia.
      rewrite wrap64_small by lia.
      destruct (Z.ltb_spec (2 * old) old),
        (Z.leb_spec (2 * old + old - 2 ^ 64 + bm) (2 * old)); cbv [b2i]; lia.
  - rewrite (wrap64_once (2 * old)) by lia.
    destruct (Z_lt_ge_dec (2 * old - 2 ^ 64 + old) (2 ^ 64)) as [Ha | Ha].
    + rewrite (wrap64_small (2 * old - 2 ^ 64 + old)) by lia.
      destruct (Z_lt_ge_dec (2 * old - 2 ^ 64 + old + bm) (2 ^ 64)) as [Hc | Hc].
      * rewrite wrap64_small by lia.
        destruct (Z.ltb_spec (2 * old - 2 ^ 64) old),
          (Z.leb_spec (2 * old - 2 ^ 64 + old + bm) (2 * old - 2 ^ 64));
          cbv [b2i]; lia.
      * rewrite wrap64_once by lia.
        destruct (Z.ltb_spec (2 * old - 2 ^ 64) old),
          (Z.leb_spec (2 * old - 2 ^ 64 + old + bm - 2 ^ 64) (2 * old - 2 ^ 64));
          cbv [b2i]; lia.
    + rewrite (wrap64_once (2 * old - 2 ^ 64 + old)) by lia.
      rewrite wrap64_small by lia.
      destruct (Z.ltb_spec (2 * old - 2 ^ 64) old),
        (Z.leb_spec (2 * old - 2 ^ 64 + old - 2 ^ 64 + bm) (2 * old - 2 ^ 64));
        cbv [b2i]; lia.
Qed.

Lemma lazy_carry_range old bm : 0 <= lazy_carry old bm <= 2.
Proof. unfold lazy_carry, b2i. destruct (_ <? _), (_ <=? _); lia. Qed.

Lemma lazy_word_range old bm : u64 (lazy_word old bm).
Proof. apply wrap64_range. Qed.

Lemma triple_c_exact c : 0 <= c <= MAX_CVALUE -> triple_c c = 3 * c.
Proof.
  intros H. unfold MAX_CVALUE in H. unfold triple_c. rewrite shl1_double.
  rewrite (wrap64_small (2 * c)) by lia. rewrite wrap64_small; lia.
Qed.

Lemma triple_k_exact k carry :
  0 <= k <= MAX_KVALUE -> 0 <= carry <= 2 -> triple_k k carry = 3 * k + carry.
Proof.
  intros H Hc. unfold MAX_KVALUE in H. unfold triple_k. rewrite shl1_double.
  rewrite (wrap64_small (2 * k)) by lia.
  rewrite (wrap64_small (2 * k + k)) by lia. rewrite wrap64_small; lia.
Qed.

Lemma lazy_guard_true c k :
  lazy_guard c k = true <-> c <= MAX_CVALUE /\ k <= MAX_KVALUE.
Proof. unfold lazy_guard. rewrite andb_true_iff, !Z.leb_le. tauto. Qed.

(** ** The 128-bit multiply-add *)

Lemma mul_add128_exact w c k :
  u64 w -> u64 c -> u64 k -> mul_add128 w c k = w * c + k.
Proof.
  intros [? ?] [? ?] [? ?]. unfold mul_add128, wrap128.
  assert (0 <= w * c <= (2 ^ 64 - 1) * (2 ^ 64 - 1)) by nia.
  rewrite (Z.mod_small (w * c)) by lia. apply Z.mod_small. lia.
Qed.

Lemma lo_hi_split w c k :
  u64 w -> u64 c -> u64 k ->
  let v := mul_add128 w c k in
  lo64 v + 2 ^ 64 * hi64 v = w * c + k /\ u64 (lo64 v) /\ u64 (hi64 v).
Proof.
  intros Hw Hc Hk v. subst v. rewrite mul_add128_exact by assumption.
  destruct Hw, Hc, Hk.
  assert (0 <= w * c <= (2 ^ 64 - 1) * (2 ^ 64 - 1)) by nia.
  unfold lo64, hi64. rewrite Z.shiftr_div_pow2 by lia.
  assert (0 <= (w * c + k) / 2 ^ 64 < 2 ^ 64).
  { split. apply Z.div_pos; lia. apply Z.div_lt_upper_bound; lia. }
  rewrite (wrap64_small ((w * c + k) / 2 ^ 64)) by lia.
  repeat split; try apply wrap64_range; try lia.
  unfold wrap64. pose proof (Z.div_mod (w * c + k) (2 ^ 64) ltac:(lia)). lia.
Qed.

(** ** Memory *)

Lemma Ok_inj {A : Type} (a b : A) : Ok a = Ok b -> a = b.
Proof. intros H. now injection H. Qed.

Lemma load_ok m i v : load m i = Ok v -> in_buffer i = true /\ v = m i.
Proof. unfold load. destruct (in_buffer i); intros H; inversion H; auto. Qed.

Lemma store_ok m i v m' : store m i v = Ok m' -> in_buffer i = true /\ m' = upd m i v.
Proof. unfold store. destruct (in_buffer i); intros H; inversion H; auto. Qed.

Lemma in_buffer_true i : in_buffer i = true <-> 0 <= i < CAPACITY.
Proof. unfold in_buffer. rewrite andb_true_iff, Z.leb_le, Z.ltb_lt. tauto. Qed.

Lemma load_in m i : 0 <= i < CAPACITY -> load m i = Ok (m i).
Proof. intros H. unfold load. apply in_buffer_true in H. now rewrite H. Qed.

Lemma store_in m i v : 0 <= i < CAPACITY -> store m i v = Ok (upd m i v).
Proof. intros H. unfold store. apply in_buffer_true in H. now rewrite H. Qed.

Lemma upd_same m i v : upd m i v i = v.
Proof. unfold upd. now rewrite Z.eqb_refl. Qed.

Lemma upd_other m i v j : j <> i -> upd m i v j = m j.
Proof. intros H. unfold upd. apply Z.eqb_neq in H. now rewrite H. Qed.

Lemma upd_typed m i v : typed_memory m -> u64 v -> typed_memory (upd m i v).
Proof.
  intros Hm Hv j. unfold upd. destruct (j =? i); auto.
Qed.

Lemma read_range_ext m m' lo n :
  (forall i, lo <= i < lo + Z.of_nat n -> m' i = m i) ->
  read_range m' lo n = read_range m lo n.
Proof.
  revert lo. induction n as [| n IH]; intros lo H; cbn [read_range]; auto.
  f_equal.
  - apply H. lia.
  - apply IH. intros i Hi. apply H. lia.
Qed.

Lemma read_range_length m lo n : length (read_range m lo n) = n.
Proof. revert lo. induction n; intros; cbn; auto. Qed.

Lemma read_range_typed m lo n :
  typed_memory m -> Forall u64 (read_range m lo n).
Proof. intros H. revert lo. induction n; intros; cbn; constructor; auto. Qed.

Lemma read_range_snoc m lo n :
  read_range m lo (S n) = read_range m lo n ++ [m (lo + Z.of_nat n)].
Proof.
  revert lo. induction n as [| n IH]; intros lo.
  - cbn. now rewrite Z.add_0_r.
  - change (read_range m lo (S (S n))) with (m lo :: read_range m (lo + 1) (S n)).
    rewrite IH. cbn [read_range app]. f_equal. f_equal. f_equal. f_equal.
    rewrite Nat2Z.inj_succ. lia.
Qed.

Lemma words_value_app ws ws' :
  words_value (ws ++ ws') =
  words_value ws + 2 ^ (64 * Z.of_nat (length ws)) * words_value ws'.
Proof.
  induction ws as [| w ws IH]; cbn [words_value app length].
  - change (2 ^ (64 * Z.of_nat 0)) with 1. lia.
  - rewrite IH. rewrite Nat2Z.inj_succ.
    replace (64 * Z.succ (Z.of_nat (length ws))) with (64 + 64 * Z.of_nat (length ws)) by lia.
    rewrite Z.pow_add_r by lia. ring.
Qed.

Lemma words_value_nonneg ws : Forall u64 ws -> 0 <= words_value ws.
Proof.
  induction 1 as [| w ws [Hw _] _ IH]; cbn [words_value]; lia.
Qed.

Lemma words_value_bound ws :
  Forall u64 ws -> words_value ws < 2 ^ (64 * Z.of_nat (length ws)).
Proof.
  induction 1 as [| w ws [Hw Hw'] _ IH]; cbn [words_value length].
  - cbn. lia.
  - rewrite Nat2Z.inj_succ.
    replace (64 * Z.succ (Z.of_nat (length ws))) with (64 + 64 * Z.of_nat (length ws)) by lia.
    rewrite Z.pow_add_r by lia. nia.
Qed.

(** ** The actualization loop is a long multiplication *)

Lemma flush_words_spec n : forall m p c k m' k',
  typed_memory m -> u64 c -> u64 k ->
  flush_words n m p c k = Ok (m', k') ->
  typed_memory m' /\ u64 k' /\
  (forall i, i < p \/ p + Z.of_nat n <= i -> m' i = m i) /\
  words_value (read_range m' p n) + 2 ^ (64 * Z.of_nat n) * k'
  = c * words_value (read_range m p n) + k.
Proof.
  induction n as [| n IH]; intros m p c k m' k' Hm Hc Hk H.
  - cbn in H. inversion H; subst. cbn [read_range words_value].
    change (2 ^ (64 * Z.of_nat 0)) with 1.
    refine (conj Hm (conj Hk (conj _ _))); [auto | lia].
  - cbn [flush_words] in H.
    destruct (load m p) as [w |] eqn:Hl; cbn [bind] in H; [| discriminate].
    apply load_ok in Hl. destruct Hl as [_ ->].
    destruct (store m p (lo64 (mul_add128 (m p) c k))) as [m1 |] eqn:Hs;
      cbn [bind] in H; [| discriminate].
    apply store_ok in Hs. destruct Hs as [_ ->].
    destruct (lo_hi_split (m p) c k (Hm p) Hc Hk) as (Hv & Hlo & Hhi).
    apply IH in H; auto using upd_typed.
    destruct H as (Hm' & Hk' & Hout & Hval).
    refine (conj Hm' (conj Hk' (conj _ _))).
    + intros i Hi. rewrite Hout by lia. apply upd_other. lia.
    + cbn [read_range words_value].
      rewrite (Hout p) by lia. rewrite upd_same.
      rewrite (read_range_ext m (upd m p (lo64 (mul_add128 (m p) c k)))) in Hval
        by (intros; apply upd_other; lia).
      rewrite Nat2Z.inj_succ.
      replace (64 * Z.succ (Z.of_nat n)) with (64 + 64 * Z.of_nat n) by lia.
      rewrite Z.pow_add_r by lia.
      set (H1 := words_value (read_range m' (p + 1) n)) in *.
      set (H0 := words_value (read_range m (p + 1) n)) in *.
      set (X := 2 ^ (64 * Z.of_nat n)) in *.
      set (lo := lo64 (mul_add128 (m p) c k)) in *.
      set (hi := hi64 (mul_add128 (m p) c k)) in *.
      nia.
Qed.

Lemma flush_words_in n : forall m p c k,
  0 <= p -> p + Z.of_nat n <= CAPACITY ->
  exists m' k', flush_words n m p c k = Ok (m', k').
Proof.
  induction n as [| n IH]; intros m p c k Hp Hn.
  - cbn. eauto.
  - cbn [flush_words]. rewrite load_in by lia. cbn [bind].
    rewrite store_in by lia. cbn [bind]. apply IH; lia.
Qed.

(** ** The bit under the cursor *)

Lemma land_single_bit w b :
  0 <= b -> Z.land w (2 ^ b) = if Z.testbit w b then 2 ^ b else 0.
Proof.
  intros Hb. apply Z.bits_inj'. intros n Hn.
  rewrite Z.land_spec, Z.pow2_bits_eqb by lia.
  destruct (Z.eqb_spec b n) as [-> | Hne].
  - destruct (Z.testbit w n); cbn.
    + now rewrite Z.pow2_bits_true by lia.
    + now rewrite Z.bits_0.
  - rewrite andb_false_r.
    destruct (Z.testbit w b).
    + now rewrite Z.pow2_bits_false by lia.
    + now rewrite Z.bits_0.
Qed.

Lemma cursor_bit_clear w b :
  0 <= b -> (Z.land w (2 ^ b) =? 0) = negb (Z.odd (w / 2 ^ b)).
Proof.
  intros Hb. rewrite land_single_bit by lia.
  rewrite Z.testbit_odd, Z.shiftr_div_pow2 by lia.
  pose proof (pow2_pos b Hb).
  destruct (Z.odd (w / 2 ^ b)); cbn; [apply Z.eqb_neq; lia | reflexivity].
Qed.

Lemma clear_bit_next w b :
  0 <= b -> w mod 2 ^ b = 0 -> Z.odd (w / 2 ^ b) = false ->
  w mod 2 ^ (b + 1) = 0.
Proof.
  intros Hb Hm Ho.
  pose proof (pow2_pos b Hb) as Hp.
  pose proof (Z.div_mod w (2 ^ b) ltac:(lia)) as D. rewrite Hm in D.
  rewrite <- Z.negb_even in Ho. apply negb_false_iff in Ho.
  apply Z.even_spec in Ho. destruct Ho as [q Hq].
  rewrite Z.pow_add_r by lia. change (2 ^ 1) with 2.
  replace w with (q * (2 ^ b * 2)) by nia.
  apply Z.mod_mul. lia.
Qed.

Lemma shl1_mask b : 0 <= b < 63 -> shl1 (2 ^ b) = 2 ^ (b + 1).
Proof.
  intros Hb. rewrite shl1_double.
  rewrite Z.pow_add_r by lia. change (2 ^ 1) with 2.
  rewrite Z.mul_comm. apply wrap64_small.
  pose proof (pow2_pos b ltac:(lia)).
  assert (2 ^ b <= 2 ^ 62) by (apply Z.pow_le_mono_r; lia).
  lia.
Qed.

Lemma mask_is_msb b : 0 <= b <= 63 -> (2 ^ b =? MSB64) = (b =? 63).
Proof.
  intros Hb. unfold MSB64. change 9223372036854775808 with (2 ^ 63).
  destruct (Z.eqb_spec b 63) as [-> | Hne].
  - apply Z.eqb_refl.
  - apply Z.eqb_neq. intros E. apply Z.pow_inj_r in E; lia.
Qed.

(** ** The sum a state stands for is a multiple of the mask *)

Lemma tracked_pending st : tracked st = pending_sum st / bitmask st.
Proof. reflexivity. Qed.

Lemma pending_sum_multiple st :
  well_formed st -> pending_sum st = bitmask st * tracked st.
Proof.
  intros W. rewrite tracked_pending.
  destruct (wf_mask st W) as (b & Hb & Hbm).
  pose proof (pow2_pos b ltac:(lia)) as Hp.
  pose proof (wf_low st W) as Hl.
  assert (Hm : pending_sum st mod bitmask st = 0).
  { unfold pending_sum. rewrite Hbm in *.
    rewrite (pow2_split b) by lia.
    set (Y := cvalue st * words_value (high_words st) + kvalue st).
    replace (narr st (wordoffset st) + 2 ^ b * 2 ^ (64 - b) * Y)
      with (narr st (wordoffset st) + (2 ^ (64 - b) * Y) * 2 ^ b) by ring.
    rewrite Z.mod_add by lia. exact Hl. }
  pose proof (Z.div_mod (pending_sum st) (bitmask st) ltac:(lia)). lia.
Qed.

Lemma tracked_parity st :
  well_formed st ->
  Z.odd (tracked st) = Z.odd (narr st (wordoffset st) / bitmask st).
Proof.
  intros W. rewrite tracked_pending. unfold pending_sum.
  destruct (wf_mask st W) as (b & Hb & Hbm).
  pose proof (pow2_pos b ltac:(lia)) as Hp. rewrite Hbm.
  rewrite (pow2_split b) by lia.
  replace (2 ^ (64 - b)) with (2 * 2 ^ (63 - b)).
  2:{ replace (64 - b) with (1 + (63 - b)) by lia. now rewrite Z.pow_add_r by lia. }
  set (Y := cvalue st * words_value (high_words st) + kvalue st).
  replace (narr st (wordoffset st) + 2 ^ b * (2 * 2 ^ (63 - b)) * Y)
    with (narr st (wordoffset st) + (2 * (2 ^ (63 - b) * Y)) * 2 ^ b) by ring.
  rewrite Z.div_add by lia.
  now rewrite Z.odd_add_mul_2.
Qed.

(** The test of line 95 reads the parity of the tracked value. *)
Lemma cursor_test_parity st :
  well_formed st ->
  (Z.land (narr st (wordoffset st)) (bitmask st) =? 0) = Z.even (tracked st).
Proof.
  intros W. destruct (wf_mask st W) as (b & Hb & Hbm).
  rewrite <- Z.negb_odd, tracked_parity by assumption.
  rewrite Hbm. apply cursor_bit_clear. lia.
Qed.

(** ** The even branch halves the tracked value *)

Lemma read_range_cons m lo n :
  0 < n -> read_range m lo (Z.to_nat n) = m lo :: read_range m (lo + 1) (Z.to_nat (n - 1)).
Proof.
  intros Hn. replace (Z.to_nat n) with (S (Z.to_nat (n - 1))) by lia.
  reflexivity.
Qed.

Lemma zero_cursor_word w :
  u64 w -> w mod 2 ^ 63 = 0 -> Z.odd (w / 2 ^ 63) = false -> w = 0.
Proof.
  intros [H0 H1] Hm Ho.
  pose proof (Z.div_mod w (2 ^ 63) ltac:(lia)) as D. rewrite Hm in D.
  assert (0 <= w / 2 ^ 63 < 2).
  { split. apply Z.div_pos; lia. apply Z.div_lt_upper_bound; lia. }
  assert (w / 2 ^ 63 = 0 \/ w / 2 ^ 63 = 1) as [E | E] by lia.
  - lia.
  - rewrite E in Ho. discriminate Ho.
Qed.

(** A cursor at the top bit of a zero word has a word above it. *)
Lemma crossing_has_next st :
  loop_invariant st ->
  bitmask st = 2 ^ 63 ->
  Z.land (narr st (wordoffset st)) (bitmask st) = 0 ->
  narr st (wordoffset st) = 0 /\ wordoffset st + 1 < lastword st.
Proof.
  intros [W S] Hbm Hbit.
  pose proof (wf_low st W) as Hl. pose proof (wf_cursor st W) as Hc.
  rewrite Hbm in *.
  apply Z.eqb_eq in Hbit. rewrite cursor_bit_clear in Hbit by lia.
  apply negb_true_iff in Hbit.
  assert (E : narr st (wordoffset st) = 0)
    by (apply zero_cursor_word; auto; apply (wf_memory st W)).
  split; [exact E |].
  destruct (Z.eq_dec (wordoffset st + 1) (lastword st)) as [Hs | Hs]; [| lia].
  destruct (S Hs) as [Hn | Hn]; [contradiction | discriminate Hn].
Qed.

Lemma even_branch_spec st st' :
  loop_invariant st ->
  Z.land (narr st (wordoffset st)) (bitmask st) = 0 ->
  even_branch st = Ok st' ->
  well_formed st' /\ tracked st' = tracked st / 2.
Proof.
  intros I Hbit H. pose proof I as [W S].
  destruct (wf_mask st W) as (b & Hb & Hbm).
  pose proof (pow2_pos b ltac:(lia)) as Hp.
  unfold even_branch in H. rewrite Hbm, mask_is_msb in H by lia.
  destruct (Z.eqb_spec b 63) as [E63 | Hne].
  - (* the cursor moves to the next word *)
    subst b.
    destruct (crossing_has_next st I Hbm Hbit) as [Hz Hnext].
    bind_ok H w Hw. apply load_ok in Hw. destruct Hw as [_ ->].
    bind_ok H m Hs. apply store_ok in Hs. destruct Hs as [_ ->].
    inversion H; subst st'; clear H.
    set (w1 := narr st (wordoffset st + 1)) in *.
    destruct (lo_hi_split w1 (cvalue st) (kvalue st)) as (Hv & Hlo & Hhi).
    { apply (wf_memory st W). }
    { pose proof (wf_cvalue st W). unfold u64. lia. }
    { apply (wf_kvalue st W). }
    split.
    + constructor; fields.
      * apply upd_typed; [apply (wf_memory st W) | exact Hlo].
      * pose proof (wf_cursor st W). lia.
      * apply (wf_last st W).
      * exists 0. split; [lia | reflexivity].
      * apply Z.mod_1_r.
      * apply (wf_cvalue st W).
      * exact Hhi.
    + rewrite !tracked_pending. unfold pending_sum, high_words. fields.
      rewrite Hz, Hbm. rewrite Z.div_1_r, upd_same.
      rewrite (read_range_ext (narr st))
        by (intros; apply upd_other; lia).
      rewrite (read_range_cons (narr st) (wordoffset st + 1)) by lia.
      cbn [words_value]. fold w1.
      replace (lastword st - (wordoffset st + 1 + 1))
        with (lastword st - (wordoffset st + 1) - 1) by lia.
      set (H' := words_value (read_range (narr st) (wordoffset st + 1 + 1) _)).
      set (Y := cvalue st * (w1 + 2 ^ 64 * H') + kvalue st).
      replace (0 + 2 ^ 64 * Y) with (2 * Y * 2 ^ 63) by (change (2 ^ 64) with (2 * 2 ^ 63); ring).
      rewrite Z.div_mul by lia.
      replace (2 * Y) with (Y * 2) by ring. rewrite Z.div_mul by lia.
      subst Y. set (lo := lo64 _) in *. set (hi := hi64 _) in *. nia.
  - (* the mask moves within the word *)
    inversion H; subst st'; clear H.
    apply Z.eqb_eq in Hbit. rewrite Hbm, cursor_bit_clear in Hbit by lia.
    apply negb_true_iff in Hbit.
    split.
    + constructor; fields; try (destruct W; assumption).
      * exists (b + 1). split; [lia | apply shl1_mask; lia].
      * rewrite shl1_mask by lia.
        apply clear_bit_next;
          [lia | rewrite <- Hbm; apply (wf_low st W) | exact Hbit].
    + rewrite !tracked_pending. fields. rewrite shl1_mask by lia.
      replace (pending_sum _) with (pending_sum st) by reflexivity.
      rewrite Hbm, Z.pow_add_r by lia. change (2 ^ 1) with 2.
      now rewrite Z.div_div by lia.
Qed.

Lemma even_branch_defined st :
  loop_invariant st ->
  Z.land (narr st (wordoffset st)) (bitmask st) = 0 ->
  exists st', even_branch st = Ok st'.
Proof.
  intros I Hbit. pose proof I as [W S].
  unfold even_branch.
  destruct (bitmask st =? MSB64) eqn:E; [| eauto].
  apply Z.eqb_eq in E. change MSB64 with (2 ^ 63) in E.
  destruct (crossing_has_next st I E Hbit) as [_ Hnext].
  pose proof (wf_cursor st W). pose proof (wf_last st W).
  rewrite load_in by lia. cbn [bind]. rewrite store_in by lia. cbn [bind].
  eauto.
Qed.

(** ** The lazy update triples the tracked value and adds one *)

Lemma sum_multiple old bm b new cy :
  0 <= b <= 63 -> bm = 2 ^ b -> old mod bm = 0 ->
  3 * old + bm = new + cy * 2 ^ 64 -> new mod bm = 0.
Proof.
  intros Hb -> Hm Hsum.
  pose proof (pow2_pos b ltac:(lia)) as Hp.
  pose proof (Z.div_mod old (2 ^ b) ltac:(lia)) as D. rewrite Hm in D.
  rewrite (pow2_split b) in Hsum by lia.
  replace new with ((3 * (old / 2 ^ b) + 1 - cy * 2 ^ (64 - b)) * 2 ^ b).
  - apply Z.mod_mul. lia.
  - set (q := old / 2 ^ b) in *. clearbody q. subst old. lia.
Qed.

Lemma lazy_update_spec st st' :
  well_formed st ->
  lazy_guard (cvalue st) (kvalue st) = true ->
  lazy_update st = Ok st' ->
  well_formed st' /\ tracked st' = 3 * tracked st + 1.
Proof.
  intros W G H.
  destruct (wf_mask st W) as (b & Hb & Hbm).
  pose proof (pow2_pos b ltac:(lia)) as Hp.
  pose proof (wf_cvalue st W) as Hc. pose proof (wf_kvalue st W) as Hk.
  pose proof (wf_memory st W (wordoffset st)) as Hw.
  pose proof (wf_low st W) as Hl.
  apply lazy_guard_true in G. destruct G as [Gc Gk].
  unfold lazy_update in H.
  bind_ok H w Hw0. apply load_ok in Hw0. destruct Hw0 as [_ ->].
  bind_ok H m Hs. apply store_ok in Hs. destruct Hs as [_ ->].
  inversion H; subst st'; clear H.
  set (old := narr st (wordoffset st)) in *.
  pose proof (lazy_carry_range old (bitmask st)) as Hcr.
  assert (Hsum : 3 * old + bitmask st
                 = lazy_word old (bitmask st) + lazy_carry old (bitmask st) * 2 ^ 64).
  { apply lazy_word_carry; try assumption; try lia.
    apply (multiple_below_top old (bitmask st) b); auto. }
  pose proof (pending_sum_multiple st W) as Hps.
  unfold pending_sum in Hps. fold old in Hps.
  split.
  - constructor; fields; try (destruct W; assumption).
    + apply upd_typed; [apply (wf_memory st W) | apply lazy_word_range].
    + rewrite upd_same.
      apply (sum_multiple old (bitmask st) b _ (lazy_carry old (bitmask st)));
        assumption.
    + rewrite (triple_c_exact (cvalue st)) by lia. unfold MAX_CVALUE in Gc. lia.
    + rewrite (triple_k_exact (kvalue st)) by (unfold u64 in Hk; lia).
      unfold u64, MAX_KVALUE in *. lia.
  - rewrite (tracked_pending (mkState _ _ _ _ _ _ _ _ _ _ _)).
    unfold pending_sum, high_words. fields.
    rewrite upd_same.
    rewrite (read_range_ext (narr st)) by (intros; apply upd_other; lia).
    rewrite (triple_c_exact (cvalue st)) by lia.
    rewrite (triple_k_exact (kvalue st)) by (unfold u64 in Hk; lia).
    fold old. fold (high_words st).
    set (H' := words_value (high_words st)) in *.
    replace (lazy_word old (bitmask st)
             + 2 ^ 64 * (3 * cvalue st * H'
                         + (3 * kvalue st + lazy_carry old (bitmask st))))
      with ((3 * tracked st + 1) * bitmask st) by nia.
    apply Z.div_mul. lia.
Qed.

Lemma lazy_update_defined st :
  well_formed st -> exists st', lazy_update st = Ok st'.
Proof.
  intros W. pose proof (wf_cursor st W). pose proof (wf_last st W).
  unfold lazy_update. rewrite load_in by lia. cbn [bind].
  rewrite store_in by lia. cbn [bind]. eauto.
Qed.

(** ** Actualization applies the pending transform *)

Lemma carry_out_ok m lw k m1 lw1 :
  carry_out m lw k = Ok (m1, lw1) ->
  (k = 0 /\ m1 = m /\ lw1 = lw) \/
  (k <> 0 /\ m1 = upd m lw k /\ lw1 = lw + 1 /\ 0 <= lw < CAPACITY).
Proof.
  unfold carry_out. destruct (Z.eqb_spec k 0) as [E | E]; intros H.
  - inversion H. auto.
  - bind_ok H m' Hs. apply store_ok in Hs. destruct Hs as [Hin ->].
    apply in_buffer_true in Hin. inversion H. right. auto.
Qed.

(** The actualization read as one straight line of code. *)
Lemma actualize_unfold st :
  actualize st
  = (' (m, k) <- flush_words (Z.to_nat (lastword st - (wordoffset st + 1)))
                             (narr st) (wordoffset st + 1)
                             (cvalue st) (kvalue st) ;;
     ' (m1, lw) <- carry_out m (lastword st) k ;;
     top <- load m1 (lw - 1) ;;
     lz <- clzll top ;;
     tz <- ctzll (bitmask st) ;;
     Ok (mkState m1 (wordoffset st) (bitmask st) lw
                 (wrap64 ((lw - 0 - 1) * 64 + 64 - lz - tz))
                 1 0
                 (steps st) (divsteps st) (mulsteps st) (laststep st))).
Proof.
  unfold actualize, flush_pass.
  destruct (flush_words _ _ _ _ _) as [[m k] |]; cbn [bind]; [| reflexivity].
  destruct (carry_out m (lastword st) k) as [[m1 lw] |]; cbn [bind];
    reflexivity.
Qed.




Lemma actualize_spec st st' :
  well_formed st ->
  actualize st = Ok st' ->
  well_formed st' /\ tracked st' = tracked st /\
  cvalue st' = 1 /\ kvalue st' = 0 /\
  narr st' (lastword st' - 1) <> 0 /\
  exists lz tz,
    clzll (narr st' (lastword st' - 1)) = Ok lz /\
    ctzll (bitmask st') = Ok tz /\
    bitsize st' = wrap64 ((lastword st' - 0 - 1) * 64 + 64 - lz - tz).
Proof.
  intros W H.
  pose proof (wf_cursor st W) as Hcur. pose proof (wf_last st W) as Hlast.
  pose proof (wf_cvalue st W) as Hc. pose proof (wf_kvalue st W) as Hk.
  rewrite actualize_unfold in H.
  bind_ok H fl Hfl. destruct fl as [m k].
  bind_ok H co Hco. destruct co as [m1 lw].
  bind_ok H top Htop. apply load_ok in Htop. destruct Htop as [_ ->].
  bind_ok H lz Hlz. bind_ok H tz Htz.
  inversion H; subst st'; clear H.
  apply flush_words_spec in Hfl;
    [| apply (wf_memory st W) | unfold u64; lia | exact Hk].
  destruct Hfl as (Hm & Hk' & Hout & Hval).
  rewrite Z2Nat.id in Hout, Hval by lia.
  fold (high_words st) in Hval.
  assert (Htopnz : m1 (lw - 1) <> 0).
  { unfold clzll in Hlz. destruct (Z.eqb_spec (m1 (lw - 1)) 0); [discriminate | assumption]. }
  assert (Hres :
    typed_memory m1 /\ wordoffset st < lw <= CAPACITY /\
    m1 (wordoffset st) = narr st (wordoffset st) /\
    words_value (read_range m1 (wordoffset st + 1)
                            (Z.to_nat (lw - (wordoffset st + 1))))
    = cvalue st * words_value (high_words st) + kvalue st).
  { apply carry_out_ok in Hco.
    destruct Hco as [(E & -> & ->) | (E & -> & -> & Hin)].
    - subst k. refine (conj Hm (conj _ (conj _ _))); [lia | apply Hout; lia | lia].
    - refine (conj _ (conj _ (conj _ _))).
      + apply upd_typed; assumption.
      + lia.
      + rewrite upd_other by lia. apply Hout. lia.
      + replace (Z.to_nat (lastword st + 1 - (wordoffset st + 1)))
          with (S (Z.to_nat (lastword st - (wordoffset st + 1)))) by lia.
        rewrite read_range_snoc, words_value_app, read_range_length.
        rewrite Z2Nat.id by lia.
        replace (wordoffset st + 1 + (lastword st - (wordoffset st + 1)))
          with (lastword st) by lia.
        rewrite upd_same.
        rewrite (read_range_ext m) by (intros; apply upd_other; lia).
        cbn [words_value]. lia. }
  destruct Hres as (Hty & Hlw & Hcw & Hhw).
  split; [| split; [| split; [| split; [| split]]]]; fields; auto.
  - constructor; fields; try (destruct W; assumption); try lia.
    + rewrite Hcw. apply (wf_low st W).
    + unfold u64. lia.
  - rewrite !tracked_pending. unfold pending_sum at 1. unfold high_words at 1.
    fields. rewrite Hhw, Hcw. unfold pending_sum.
    f_equal. lia.
  - exists lz, tz. auto.
Qed.

Lemma actualize_fields st st' :
  actualize st = Ok st' ->
  wordoffset st' = wordoffset st /\ bitmask st' = bitmask st /\
  steps st' = steps st /\ divsteps st' = divsteps st /\
  mulsteps st' = mulsteps st /\ laststep st' = laststep st.
Proof.
  intros H. rewrite actualize_unfold in H.
  bind_ok H fl Hfl. destruct fl as [m k].
  bind_ok H co Hco. destruct co as [m1 lw].
  bind_ok H top Htop. bind_ok H lz Hlz. bind_ok H tz Htz.
  inversion H; subst st'; clear H. fields. auto 10.
Qed.

(** ** Compaction moves the window and nothing else *)

Lemma read_range_memmove m src n len : forall a,
  0 <= a -> a + Z.of_nat len <= n ->
  read_range (memmove_front m src n) a len = read_range m (src + a) len.
Proof.
  induction len as [| len IH]; intros a Ha Hn; cbn [read_range]; auto.
  f_equal.
  - unfold memmove_front.
    destruct (Z.leb_spec 0 a), (Z.ltb_spec a n); cbn [andb]; lia.
  - rewrite IH by lia. f_equal. lia.
Qed.

Lemma memmove_typed m src n : typed_memory m -> typed_memory (memmove_front m src n).
Proof.
  intros Hm j. unfold memmove_front. destruct (_ && _); apply Hm.
Qed.

Lemma compaction_window st :
  wordoffset st <= lastword st -> window (compaction st) = window st.
Proof.
  intros H. unfold compaction.
  destruct (lastword st >=? 0 + SCRATCHPAD / 8 - 2); [| reflexivity].
  unfold window. fields.
  rewrite read_range_memmove by lia.
  rewrite Z.add_0_r. f_equal. lia.
Qed.

Lemma compaction_fields st :
  bitmask (compaction st) = bitmask st /\
  cvalue (compaction st) = cvalue st /\ kvalue (compaction st) = kvalue st /\
  bitsize (compaction st) = bitsize st /\
  steps (compaction st) = steps st /\ divsteps (compaction st) = divsteps st /\
  mulsteps (compaction st) = mulsteps st /\ laststep (compaction st) = laststep st /\
  lastword (compaction st) - wordoffset (compaction st)
  = lastword st - wordoffset st.
Proof.
  unfold compaction.
  destruct (lastword st >=? 0 + SCRATCHPAD / 8 - 2); fields;
    repeat split; lia.
Qed.

Lemma compaction_pending st :
  wordoffset st < lastword st -> pending_sum (compaction st) = pending_sum st.
Proof.
  intros H. unfold compaction.
  destruct (lastword st >=? 0 + SCRATCHPAD / 8 - 2); [| reflexivity].
  unfold pending_sum, high_words. fields.
  rewrite read_range_memmove by lia.
  unfold memmove_front.
  destruct (Z.leb_spec 0 0), (Z.ltb_spec 0 (lastword st - wordoffset st));
    cbn [andb]; try lia.
  rewrite Z.add_0_r.
  replace (lastword st - (wordoffset st - 0) - (0 + 1))
    with (lastword st - (wordoffset st + 1)) by lia.
  reflexivity.
Qed.

Lemma compaction_spec st :
  well_formed st ->
  well_formed (compaction st) /\ tracked (compaction st) = tracked st.
Proof.
  intros W. pose proof (wf_cursor st W) as Hc.
  split.
  - unfold compaction.
    destruct (lastword st >=? 0 + SCRATCHPAD / 8 - 2); [| exact W].
    constructor; fields; try (destruct W; assumption).
    + apply memmove_typed, (wf_memory st W).
    + lia.
    + pose proof (wf_last st W). lia.
    + unfold memmove_front.
      destruct (Z.leb_spec 0 0), (Z.ltb_spec 0 (lastword st - wordoffset st));
        cbn [andb]; try lia.
      rewrite Z.add_0_r. apply (wf_low st W).
  - rewrite !tracked_pending, compaction_pending by lia.
    now destruct (compaction_fields st) as (-> & _).
Qed.

(** ** The progress report touches [laststep] only *)

Lemma telemetry_spec st :
  well_formed st ->
  well_formed (telemetry st) /\ tracked (telemetry st) = tracked st.
Proof.
  intros W. unfold telemetry.
  destruct (steps st >=? wrap64 (laststep st + STEPS_PRINT_RATE)); [| auto].
  split; [| reflexivity].
  constructor; fields; destruct W; assumption.
Qed.

Lemma telemetry_fields st :
  narr (telemetry st) = narr st /\
  wordoffset (telemetry st) = wordoffset st /\
  lastword (telemetry st) = lastword st /\
  bitmask (telemetry st) = bitmask st /\
  cvalue (telemetry st) = cvalue st /\ kvalue (telemetry st) = kvalue st /\
  bitsize (telemetry st) = bitsize st /\
  steps (telemetry st) = steps st /\ divsteps (telemetry st) = divsteps st /\
  mulsteps (telemetry st) = mulsteps st.
Proof.
  unfold telemetry.
  destruct (steps st >=? wrap64 (laststep st + STEPS_PRINT_RATE)); fields;
    repeat split.
Qed.

(** ** The block under [actualize:] *)

Lemma actualize_block_spec st st' :
  well_formed st ->
  actualize_block st = Ok st' ->
  well_formed st' /\ tracked st' = tracked st /\
  cvalue st' = 1 /\ kvalue st' = 0.
Proof.
  intros W H. unfold actualize_block in H.
  bind_ok H st1 Ha. inversion H; subst st'; clear H.
  destruct (actualize_spec st st1 W Ha) as (W1 & T1 & C1 & K1 & _).
  destruct (compaction_spec st1 W1) as (W2 & T2).
  destruct (telemetry_spec _ W2) as (W3 & T3).
  destruct (telemetry_fields (compaction st1)) as (_ & _ & _ & _ & Ec & Ek & _).
  destruct (compaction_fields st1) as (_ & Ec' & Ek' & _).
  refine (conj W3 (conj _ (conj _ _))); congruence.
Qed.

(** ** Recomputing [bitsize] *)

Lemma refresh_bitsize_spec st st' :
  well_formed st ->
  refresh_bitsize st = Ok st' ->
  loop_invariant st' /\ tracked st' = tracked st /\
  cvalue st' = cvalue st /\ kvalue st' = kvalue st.
Proof.
  intros W H. unfold refresh_bitsize in H.
  destruct (Z.eqb_spec (wordoffset st + 1) (lastword st)) as [E | E].
  - bind_ok H w Hw. apply load_ok in Hw. destruct Hw as [_ ->].
    bind_ok H lz Hlz. bind_ok H tz Htz.
    inversion H; subst st'; clear H.
    unfold clzll in Hlz.
    destruct (Z.eqb_spec (narr st (wordoffset st)) 0) as [Z0 | Z0];
      [discriminate |].
    split; [split |]; fields.
    + constructor; fields; destruct W; assumption.
    + intros _. now left.
    + repeat split.
  - inversion H; subst st'; clear H.
    split; [split |].
    + exact W.
    + intros E'. contradiction.
    + repeat split.
Qed.

(** ** One iteration of the main loop *)

Lemma even_branch_cvalue st st' :
  even_branch st = Ok st' -> cvalue st' = cvalue st.
Proof.
  unfold even_branch. intros H.
  destruct (bitmask st =? MSB64).
  - bind_ok H w Hw. bind_ok H m Hm. now inversion H.
  - now inversion H.
Qed.

Lemma lazy_update_cvalue st st' :
  lazy_update st = Ok st' -> cvalue st' = triple_c (cvalue st).
Proof.
  unfold lazy_update. intros H.
  bind_ok H w Hw. bind_ok H m Hm. now inversion H.
Qed.

Lemma branch_spec st ev st1 :
  loop_invariant st ->
  branch st = Ok (ev, st1) ->
  well_formed st1 /\ tracked st1 = apply_event ev (tracked st) /\
  event_effect ev st st1.
Proof.
  intros I H. pose proof I as [W S].
  unfold branch in H.
  bind_ok H w Hw. apply load_ok in Hw. destruct Hw as [_ ->].
  pose proof (cursor_test_parity st W) as Hpar.
  destruct (Z.eqb_spec (Z.land (narr st (wordoffset st)) (bitmask st)) 0)
    as [Hbit | Hbit].
  - (* even *)
    bind_ok H st' He. inversion H; subst ev st1; clear H.
    destruct (even_branch_spec st st' I Hbit He) as [W' T'].
    refine (conj W' (conj T' _)). cbn [event_effect].
    split; [now symmetry | now apply even_branch_cvalue].
  - (* odd *)
    unfold odd_branch in H.
    destruct (lazy_guard (cvalue st) (kvalue st)) eqn:G.
    + bind_ok H st' Hl.
      destruct (lazy_update_spec st st' W G Hl) as [W' T'].
      pose proof (lazy_update_cvalue st st' Hl) as C'.
      destruct (hail_mary st').
      * bind_ok H st2 Ha. inversion H; subst ev st1; clear H.
        destruct (actualize_block_spec st' st2 W' Ha) as (W2 & T2 & C2 & K2).
        refine (conj W2 (conj _ _)); cbn [apply_event event_effect].
        -- congruence.
        -- auto.
      * inversion H; subst ev st1; clear H.
        refine (conj W' (conj T' _)). cbn [event_effect].
        refine (conj (eq_sym Hpar) (conj G _)).
        rewrite C'. apply triple_c_exact.
        apply lazy_guard_true in G. pose proof (wf_cvalue st W). lia.
    + bind_ok H st' Ha. inversion H; subst ev st1; clear H.
      destruct (actualize_block_spec st st' W Ha) as (W2 & T2 & C2 & K2).
      refine (conj W2 (conj T2 _)). cbn [event_effect]. auto.
Qed.

Lemma iteration_spec st ev st' :
  loop_invariant st ->
  iteration st = Ok (ev, st') ->
  loop_invariant st' /\ tracked st' = apply_event ev (tracked st) /\
  event_effect ev st st'.
Proof.
  intros I H. unfold iteration in H.
  bind_ok H r Hb. destruct r as [ev1 st1].
  bind_ok H st2 Hr. inversion H; subst ev1 st2; clear H.
  destruct (branch_spec st ev st1 I Hb) as (W1 & T1 & E1).
  destruct (refresh_bitsize_spec st1 st' W1 Hr) as (I' & T' & C' & K').
  refine (conj I' (conj _ _)).
  - congruence.
  - destruct ev; cbn [event_effect] in *; rewrite ?C', ?K'; exact E1.
Qed.

(** ** The loader *)

Lemma asbyte_loop_range n num s : forall i v,
  u64 v -> u64 (asbyte_loop n num s i v).
Proof.
  induction n as [| n IH]; intros i v Hv; cbn [asbyte_loop]; auto.
  apply IH, wrap64_range.
Qed.

Lemma asbyte_range num s : u64 (asbyte num s).
Proof. apply asbyte_loop_range. unfold u64. lia. Qed.

Lemma wrap32_small z : 0 <= z < 2 ^ 32 -> wrap32 z = z.
Proof. intros. unfold wrap32. now apply Z.mod_small. Qed.

Lemma capacity_value : CAPACITY = 51000000.
Proof. reflexivity. Qed.

Lemma load_blocks_spec fuel num extra : forall r c i m,
  (r <= fuel)%nat ->
  c = extra + 64 * Z.of_nat r ->
  0 <= i -> i + Z.of_nat r <= CAPACITY ->
  exists m',
    load_blocks fuel num extra c i m = Ok (m', extra, i + Z.of_nat r) /\
    (typed_memory m -> typed_memory m') /\
    (forall j, j < i \/ i + Z.of_nat r <= j -> m' j = m j) /\
    (forall j, 0 <= j < Z.of_nat r -> m' (i + j) = asbyte num (c - 64 * (j + 1))).
Proof.
  induction fuel as [| fuel IH]; intros r c i m Hr Hc Hi Hcap.
  - assert (r = O) by lia. subst r. cbn [load_blocks].
    destruct (Z.gtb_spec c extra) as [G | G]; [lia |].
    exists m. rewrite Z.add_0_r.
    replace c with extra by lia.
    refine (conj eq_refl (conj (fun H => H) (conj _ _))); [auto | intros; lia].
  - cbn [load_blocks]. destruct r as [| r].
    + destruct (Z.gtb_spec c extra) as [G | G]; [lia |].
      exists m. rewrite Z.add_0_r. replace c with extra by lia.
      refine (conj eq_refl (conj (fun H => H) (conj _ _))); [auto | intros; lia].
    + destruct (Z.gtb_spec c extra) as [G | G]; [| lia].
      pose proof capacity_value as HC.
      rewrite store_in by lia. cbn [bind].
      rewrite wrap32_small by lia.
      destruct (IH r (c - 64) (i + 1) (upd m i (asbyte num (c - 64))))
        as (m' & E & Hty & Hout & Hin); try lia.
      exists m'. rewrite E.
      refine (conj _ (conj _ (conj _ _))).
      * do 2 f_equal. lia.
      * intros Hm. apply Hty, upd_typed; [exact Hm | apply asbyte_range].
      * intros j Hj. rewrite Hout by lia. apply upd_other. lia.
      * intros j Hj.
        destruct (Z.eq_dec j 0) as [-> | Hne].
        -- rewrite Z.add_0_r, Hout by lia. rewrite upd_same. f_equal; lia.
        -- replace (i + j) with (i + 1 + (j - 1)) by lia.
           rewrite Hin by lia. f_equal; lia.
Qed.

Lemma shiftr_range v n : u64 v -> 0 <= n -> u64 (Z.shiftr v n).
Proof.
  intros [H0 H1] Hn. rewrite Z.shiftr_div_pow2 by lia.
  pose proof (pow2_pos n Hn). split.
  - apply Z.div_pos; lia.
  - apply Z.div_lt_upper_bound; nia.
Qed.

(** The loader succeeds on every file within the capacity check. *)
Lemma init_from_file_defined file mem0 :
  2 <= Z.of_nat (length file) < 2 ^ 64 ->
  (Z.of_nat (length file) - 1) / 64 <= NWORDS ->
  exists st, init_from_file file mem0 = Ok st.
Proof.
  intros Hlen Hcap. set (flen := Z.of_nat (length file) - 1) in *.
  unfold init_from_file, usf_ftos. cbv beta iota.
  destruct file as [| a file']; [cbn in Hlen; lia |].
  remember (a :: file') as file eqn:Efile. clear Efile a file'.
  rewrite (wrap64_small (Z.of_nat (length file))) by lia.
  rewrite (wrap64_small (Z.of_nat (length file) - 1)) by lia.
  fold flen.
  assert (Hx : 0 <= flen mod 64 < 64) by (apply Z.mod_pos_bound; lia).
  rewrite (wrap32_small (flen mod 64)) by lia.
  destruct (Z.gtb_spec (flen / 64) NWORDS) as [Hbig | _]; [lia |].
  pose proof (Z.div_mod flen 64 ltac:(lia)) as D.
  assert (Hq : 0 <= flen / 64) by (apply Z.div_pos; lia).
  pose proof capacity_value as HC. unfold NWORDS in Hcap.
  destruct (load_blocks_spec (Z.to_nat flen) (firstn (Z.to_nat flen) file)
              (flen mod 64) (Z.to_nat (flen / 64)) flen 0 mem0)
    as (m & E & _); try lia.
  rewrite E. cbn [bind]. unfold load_last.
  destruct (flen mod 64 =? 0); cbn [bind]; [eauto |].
  rewrite store_in by lia. cbn [bind]. eauto.
Qed.

(** The states produced by the loader. *)
Lemma init_from_file_spec file mem0 st :
  2 <= Z.of_nat (length file) < 2 ^ 64 ->
  init_from_file file mem0 = Ok st ->
  let flen := Z.of_nat (length file) - 1 in
  (typed_memory mem0 -> well_formed st) /\
  wordoffset st = 0 /\ bitmask st = 1 /\
  lastword st = (flen + 63) / 64 /\
  bitsize st = flen /\ flen / 64 <= NWORDS /\
  cvalue st = 1 /\ kvalue st = 0 /\
  steps st = 0 /\ divsteps st = 0 /\ mulsteps st = 0 /\
  (forall j, 0 <= j < flen / 64 ->
     narr st j = asbyte (firstn (Z.to_nat flen) file) (flen - 64 * (j + 1))) /\
  (flen mod 64 <> 0 ->
     narr st (flen / 64)
     = Z.shiftr (asbyte (firstn (Z.to_nat flen) file) 0) (64 - flen mod 64)).
Proof.
  intros Hlen H flen.
  unfold init_from_file, usf_ftos in H. cbv beta iota in H.
  destruct file as [| a file']; [cbn in Hlen; lia |].
  remember (a :: file') as file eqn:Efile. clear Efile a file'.
  rewrite (wrap64_small (Z.of_nat (length file))) in H by lia.
  rewrite (wrap64_small (Z.of_nat (length file) - 1)) in H by lia.
  fold flen in H.
  set (num := firstn (Z.to_nat flen) file) in *.
  assert (Hx : 0 <= flen mod 64 < 64) by (apply Z.mod_pos_bound; lia).
  rewrite (wrap32_small (flen mod 64)) in H by lia.
  destruct (Z.gtb_spec (flen / 64) NWORDS) as [Hbig | Hcap]; [discriminate |].
  pose proof (Z.div_mod flen 64 ltac:(lia)) as D.
  assert (Hq : 0 <= flen / 64) by (apply Z.div_pos; lia).
  pose proof capacity_value as HC. unfold NWORDS in Hcap.
  destruct (load_blocks_spec (Z.to_nat flen) num (flen mod 64)
              (Z.to_nat (flen / 64)) flen 0 mem0)
    as (m & E & Hty & Hout & Hin); try lia.
  rewrite E in H. cbn [bind] in H.
  rewrite Z2Nat.id in H, Hin by lia. rewrite Z.add_0_l in H.
  assert (Hlw : (flen + 63) / 64 = if flen mod 64 =? 0 then flen / 64 else flen / 64 + 1).
  { destruct (Z.eqb_spec (flen mod 64) 0) as [E0 | E0].
    - symmetry. apply (Z.div_unique (flen + 63) 64 (flen / 64) 63); lia.
    - symmetry. apply (Z.div_unique (flen + 63) 64 (flen / 64 + 1) (flen mod 64 - 1)); lia. }
  unfold load_last in H.
  destruct (Z.eqb_spec (flen mod 64) 0) as [E0 | E0]; cbn [bind] in H.
  - apply Ok_inj in H. subst st. fields.
    split; [intros Hm; constructor; fields; auto; try lia |].
    + exists 0. split; [lia | reflexivity].
    + apply Z.mod_1_r.
    + unfold u64. lia.
    + repeat split; auto; try lia.
  - rewrite store_in in H by lia. cbn [bind] in H.
    rewrite wrap32_small in H by lia.
    apply Ok_inj in H. subst st. fields.
    split; [intros Hm; constructor; fields; auto; try lia |].
    + apply upd_typed; auto. apply shiftr_range; [apply asbyte_range | lia].
    + exists 0. split; [lia | reflexivity].
    + apply Z.mod_1_r.
    + unfold u64. lia.
    + repeat split; auto; try lia;
        try (unfold NWORDS; lia).
      * intros j Hj. rewrite upd_other by lia.
        rewrite <- (Z.add_0_l j). now apply Hin.
      * intros _. rewrite upd_same, Z.sub_diag. reflexivity.
Qed.

Lemma init_synthetic_spec mem0 :
  typed_memory mem0 ->
  well_formed (init_synthetic mem0) /\
  bitmask (init_synthetic mem0) = 1 /\
  cvalue (init_synthetic mem0) = 1 /\ kvalue (init_synthetic mem0) = 0.
Proof.
  intros Hm. split; [| auto].
  constructor; unfold init_synthetic; fields.
  - intros j. destruct (_ && _); [unfold u64; lia | apply Hm].
  - cbv. split; [discriminate | reflexivity].
  - cbv. discriminate.
  - exists 0. split; [lia | reflexivity].
  - apply Z.mod_1_r.
  - lia.
  - unfold u64. lia.
Qed.

Lemma started_spec st :
  started st ->
  loop_invariant st /\ cvalue st = 1 /\ kvalue st = 0.
Proof.
  intros [file mem0 st' Hm Hlen H | mem0 Hm].
  - destruct (init_from_file_spec file mem0 st' Hlen H)
      as (W & _ & Hb & _ & _ & _ & Hc & Hk & _).
    split; [split |]; auto.
  - destruct (init_synthetic_spec mem0 Hm) as (W & Hb & Hc & Hk).
    split; [split |]; auto.
Qed.

(** ** Runs of the driver *)

Lemma run_from_invariant st0 tr st :
  loop_invariant st0 ->
  run_from st0 tr st ->
  loop_invariant st /\ tracked st = eager tr (tracked st0).
Proof.
  intros I0 R. induction R as [| tr st st' ev R IH Hb Hit].
  - auto.
  - destruct IH as [I T].
    destruct (iteration_spec st ev st' I Hit) as (I' & T' & _).
    split; [exact I' |]. cbn [eager]. congruence.
Qed.

Lemma run_from_collatz st0 tr st :
  loop_invariant st0 ->
  run_from st0 tr st ->
  eager tr (tracked st0) = Nat.iter (step_count tr) collatz_step (tracked st0).
Proof.
  intros I0 R. induction R as [| tr st st' ev R IH Hb Hit].
  - reflexivity.
  - destruct (run_from_invariant st0 tr st I0 R) as [I T].
    destruct (iteration_spec st ev st' I Hit) as (_ & _ & E).
    cbn [eager]. rewrite <- T in *.
    destruct ev; cbn [event_effect apply_event step_count] in *;
      rewrite ?Nat.iter_succ, <- ?IH; unfold collatz_step.
    + destruct E as [-> _]. reflexivity.
    + destruct E as [-> _]. reflexivity.
    + destruct E as [-> _]. reflexivity.
    + reflexivity.
Qed.

Lemma window_cons st :
  wordoffset st < lastword st ->
  window st = narr st (wordoffset st) :: high_words st.
Proof.
  intros H. unfold window, high_words.
  rewrite read_range_cons by lia. do 2 f_equal. lia.
Qed.

(** With no transform pending, the buffer holds the tracked value. *)
Lemma represented_tracked st :
  wordoffset st < lastword st ->
  cvalue st = 1 -> kvalue st = 0 ->
  represented st = tracked st.
Proof.
  intros H Hc Hk. unfold represented, tracked, pending_sum.
  rewrite window_cons by assumption. cbn [words_value].
  rewrite Hc, Hk. f_equal. lia.
Qed.

Lemma started_represented st0 :
  started st0 -> represented st0 = tracked st0.
Proof.
  intros S. destruct (started_spec st0 S) as ([W _] & Hc & Hk).
  apply represented_tracked; auto. apply (wf_cursor st0 W).
Qed.

Lemma actualize_represented st sa :
  well_formed st -> actualize st = Ok sa -> represented sa = tracked st.
Proof.
  intros W H.
  destruct (actualize_spec st sa W H) as (W' & T & Hc & Hk & _).
  rewrite <- T. apply represented_tracked; auto. apply (wf_cursor sa W').
Qed.

Lemma reachable_invariant st : reachable st -> loop_invariant st.
Proof.
  intros (st0 & tr & S & R).
  destruct (started_spec st0 S) as (I0 & _).
  apply (run_from_invariant st0 tr st I0 R).
Qed.

(** ** The pending multiplier is a power of three *)

Lemma pow3_guard s : 0 <= s -> (3 ^ s <= MAX_CVALUE <-> s <= 39).
Proof.
  intros Hs. change MAX_CVALUE with (3 ^ 39).
  split; intros H.
  - apply (Z.pow_le_mono_r_iff 3); lia.
  - apply Z.pow_le_mono_r; lia.
Qed.

Lemma run_from_cvalue st0 tr st :
  loop_invariant st0 -> cvalue st0 = 1 ->
  run_from st0 tr st ->
  cvalue st = 3 ^ Z.of_nat (lazy_since_flush tr) /\
  (lazy_since_flush tr <= 40)%nat.
Proof.
  intros I0 C0 R. induction R as [| tr st st' ev R IH Hb Hit].
  - cbn. split; [exact C0 | lia].
  - destruct IH as [C L].
    destruct (run_from_invariant st0 tr st I0 R) as [I _].
    destruct (iteration_spec st ev st' I Hit) as (_ & _ & E).
    destruct ev; cbn [event_effect lazy_since_flush] in *.
    + destruct E as [_ ->]. auto.
    + destruct E as (_ & G & ->). apply lazy_guard_true in G.
      destruct G as [G _]. rewrite C in G. apply pow3_guard in G; [| lia].
      split; [| lia].
      rewrite C, Nat2Z.inj_succ, Z.pow_succ_r by lia. reflexivity.
    + destruct E as (_ & _ & -> & _). split; [reflexivity | lia].
    + destruct E as (_ & _ & -> & _). split; [reflexivity | lia].
Qed.

(** At the head of the iteration that follows an actualization, the
    buffer holds the eager value as well: the compaction, the progress
    report and the refresh of [bitsize] do not touch it. *)
Lemma flush_event_represented st0 tr ev st :
  started st0 ->
  run_from st0 (ev :: tr) st ->
  flushes ev = true ->
  represented st = eager (ev :: tr) (represented st0).
Proof.
  intros S R F.
  destruct (started_spec st0 S) as (I0 & _).
  rewrite (started_represented st0 S).
  destruct (run_from_invariant st0 (ev :: tr) st I0 R) as [[W _] T].
  rewrite <- T.
  inversion R as [| tr' st1 st' ev' R1 Hb Hit]; subst.
  destruct (run_from_invariant st0 tr st1 I0 R1) as [I1 _].
  destruct (iteration_spec st1 ev st I1 Hit) as (_ & _ & E).
  apply represented_tracked; [apply (wf_cursor st W) | |];
    destruct ev; cbn [event_effect flushes] in *; try discriminate; tauto.
Qed.

(** An iteration that reports a flush has run the actualization pass,
    and what remains of the iteration is the compaction, the progress
    report and the refresh of [bitsize]. *)
Lemma iteration_actualizes st0 tr st ev st' :
  run_from st0 tr st ->
  bitsize st <> 1 ->
  iteration st = Ok (ev, st') ->
  flushes ev = true ->
  exists sa,
    actualized_from st0
      (match ev with EvTripleFlush => EvTriple :: tr | _ => tr end) sa /\
    refresh_bitsize (telemetry (compaction sa)) = Ok st'.
Proof.
  intros R Hne H F. unfold iteration in H.
  bind_ok H r Hb. destruct r as [ev1 st1].
  bind_ok H st2 Hr. apply Ok_inj in H. inversion H; subst ev1 st2; clear H.
  unfold branch in Hb.
  bind_ok Hb w Hw. apply load_ok in Hw. destruct Hw as [_ ->].
  destruct (Z.eqb_spec (Z.land (narr st (wordoffset st)) (bitmask st)) 0)
    as [Hbit | Hbit].
  - bind_ok Hb s He. apply Ok_inj in Hb. inversion Hb; subst ev st1.
    discriminate F.
  - unfold odd_branch in Hb.
    destruct (lazy_guard (cvalue st) (kvalue st)) eqn:G.
    + bind_ok Hb s1 Hl.
      destruct (hail_mary s1) eqn:Hh.
      * bind_ok Hb s2 Hab. apply Ok_inj in Hb. inversion Hb; subst ev st1.
        unfold actualize_block in Hab. bind_ok Hab sa Ha.
        apply Ok_inj in Hab. subst s2.
        exists sa. split; [| exact Hr].
        now apply (actualized_jump st0 tr st s1 sa).
      * apply Ok_inj in Hb. inversion Hb; subst ev st1. discriminate F.
    + bind_ok Hb s2 Hab. apply Ok_inj in Hb. inversion Hb; subst ev st1.
      unfold actualize_block in Hab. bind_ok Hab sa Ha.
      apply Ok_inj in Hab. subst s2.
      exists sa. split; [| exact Hr].
      now apply (actualized_guard st0 tr st sa).
Qed.

(** * The claims *)

Lemma clear_memory_typed : typed_memory clear_memory.
Proof. intros i. unfold clear_memory, u64. lia. Qed.

(** C3. Halving correctness: in every reachable state whose tracked
    value is even, the even branch runs without fault and leaves a
    state whose tracked value is exactly half of it. *)
Theorem even_branch_halves (st : State) :
  reachable st ->
  Z.even (tracked st) = true ->
  exists st', even_branch st = Ok st' /\ tracked st' = tracked st / 2.
Proof.
  intros R E. pose proof (reachable_invariant st R) as I.
  pose proof I as [W _].
  rewrite <- (cursor_test_parity st W) in E. apply Z.eqb_eq in E.
  destruct (even_branch_defined st I E) as [st' H].
  exists st'. split; [exact H |].
  apply (even_branch_spec st st' I E H).
Qed.

(** The value 2, digits [10]: one halving leaves 1. *)
Lemma even_branch_halves_witness :
  exists st0,
    init_from_file (file_of_digits ["1"; "0"]%char) clear_memory = Ok st0 /\
    tracked st0 = 2 /\
    exists st', even_branch st0 = Ok st' /\ tracked st' = tracked st0 / 2.
Proof.
  eexists.
  split; [vm_compute; reflexivity |].
  split; [vm_compute; reflexivity |].
  apply even_branch_halves.
  - eexists. exists []. split; [| apply run_nil].
    eapply started_file with (file := file_of_digits ["1"; "0"]%char).
    + exact clear_memory_typed.
    + vm_compute. split; [discriminate | reflexivity].
    + vm_compute. reflexivity.
  - vm_compute. reflexivity.
Defined.

(** C2. Single-word lazy update.  In every state the driver reaches
    with the cursor's bit set, for the cursor word [old] and the mask
    [bitmask] of that state: the word written is [(2 old + old +
    bitmask) mod 2^64] and, with [twice = 2 old mod 2^64] and the carry
    [twice < old] + [new <= twice], it satisfies [3 old + bitmask = new
    + carry 2^64], the carry being 0, 1 or 2; when the guard passes,
    the lazy update stores that word in the cursor word and adds that
    carry to three times [kvalue]. *)
Theorem lazy_word_update_correct (st : State) :
  reachable st ->
  Z.land (narr st (wordoffset st)) (bitmask st) <> 0 ->
  let old := narr st (wordoffset st) in
  let bm := bitmask st in
  twice_of old = (2 * old) mod 2 ^ 64 /\
  lazy_word old bm = (2 * old + old + bm) mod 2 ^ 64 /\
  lazy_carry old bm
  = b2i (twice_of old <? old) + b2i (lazy_word old bm <=? twice_of old) /\
  3 * old + bm = lazy_word old bm + lazy_carry old bm * 2 ^ 64 /\
  0 <= lazy_carry old bm <= 2 /\
  (lazy_guard (cvalue st) (kvalue st) = true ->
   exists st',
     lazy_update st = Ok st' /\
     narr st' (wordoffset st) = lazy_word old bm /\
     kvalue st' = 3 * kvalue st + lazy_carry old bm).
Proof.
  intros R Hbit old bm.
  pose proof (reachable_invariant st R) as [W _].
  destruct (wf_mask st W) as (b & Hb & Hbm).
  pose proof (pow2_pos b ltac:(lia)) as Hp.
  pose proof (wf_memory st W (wordoffset st)) as Ho.
  pose proof (wf_low st W) as Hlow.
  pose proof (wf_kvalue st W) as Hk.
  fold old in Ho, Hlow. fold bm in Hbm, Hlow.
  split; [| split; [| split; [| split; [| split]]]].
  - unfold twice_of. apply shl1_double.
  - unfold lazy_word, twice_of. rewrite shl1_double. unfold wrap64.
    rewrite Zplus_mod_idemp_l, <- Z.add_assoc, Zplus_mod_idemp_l.
    now rewrite Z.add_assoc.
  - reflexivity.
  - apply lazy_word_carry; [assumption | lia |].
    apply (multiple_below_top old bm b); assumption.
  - apply lazy_carry_range.
  - intros G. apply lazy_guard_true in G. destruct G as [_ Gk].
    unfold lazy_update. fold old.
    pose proof (wf_cursor st W) as Hc. pose proof (wf_last st W) as Hl.
    rewrite load_in by lia. cbn [bind].
    rewrite store_in by lia. cbn [bind].
    eexists. split; [reflexivity |]. fields.
    split; [apply upd_same |].
    fold bm. apply triple_k_exact.
    + unfold u64 in Hk. lia.
    + apply lazy_carry_range.
Qed.

(** The value [2^64 - 1], 64 digits 1 in the file: the start is a
    state with the cursor word [2^64 - 1] under the mask 1, and the
    carry is 2. *)
Lemma lazy_word_update_correct_witness :
  exists st0,
    init_from_file (file_of_digits (repeat "1"%char 64)) clear_memory = Ok st0 /\
    narr st0 (wordoffset st0) = 2 ^ 64 - 1 /\ bitmask st0 = 1 /\
    lazy_carry (2 ^ 64 - 1) 1 = 2 /\
    3 * narr st0 (wordoffset st0) + bitmask st0
    = lazy_word (narr st0 (wordoffset st0)) (bitmask st0)
      + lazy_carry (narr st0 (wordoffset st0)) (bitmask st0) * 2 ^ 64.
Proof.
  eexists.
  split; [vm_compute; reflexivity |].
  split; [vm_compute; reflexivity |].
  split; [vm_compute; reflexivity |].
  split; [vm_compute; reflexivity |].
  refine (proj1 (proj2 (proj2 (proj2 (lazy_word_update_correct _ _ _))))).
  - eexists. exists []. split; [| apply run_nil].
    eapply started_file with (file := file_of_digits (repeat "1"%char 64)).
    + exact clear_memory_typed.
    + vm_compute. split; [discriminate | reflexivity].
    + vm_compute. reflexivity.
  - vm_compute. discriminate.
Defined.

(** The invariant on the cursor word matters: were bits set below the
    cursor, as in the word [2^64 - 1] under the mask 2, the two
    comparisons would miss a carry. *)
Remark lazy_carry_needs_clear_low_bits :
  lazy_carry (2 ^ 64 - 1) 2 = 1 /\
  3 * (2 ^ 64 - 1) + 2
  <> lazy_word (2 ^ 64 - 1) 2 + lazy_carry (2 ^ 64 - 1) 2 * 2 ^ 64.
Proof.
  split; [reflexivity |].
  vm_compute. discriminate.
Qed.

Lemma lazy_update_kvalue st st' :
  lazy_update st = Ok st' ->
  kvalue st'
  = triple_k (kvalue st) (lazy_carry (narr st (wordoffset st)) (bitmask st)).
Proof.
  unfold lazy_update. intros H.
  bind_ok H w Hw. apply load_ok in Hw. destruct Hw as [_ ->].
  bind_ok H m Hm. now inversion H.
Qed.

(** C5, amended. Overflow avoidance by construction: [MAX_CVALUE] is
    [3^39], the largest power of three whose triple fits in 64 bits,
    and [MAX_KVALUE] is [floor((2^64 - 3) / 3)], the largest value
    whose triple plus a carry of 2 fits; in every reachable state in
    which the guard passes, the lazy update computes [3 cvalue] and
    [3 kvalue + carry], with a carry of 0, 1 or 2, without wrapping
    around [2^64]. *)
Theorem guard_prevents_overflow (st st' : State) :
  reachable st ->
  lazy_guard (cvalue st) (kvalue st) = true ->
  lazy_update st = Ok st' ->
  (cvalue st' = 3 * cvalue st /\ cvalue st' < 2 ^ 64) /\
  (exists carry, 0 <= carry <= 2 /\
     kvalue st' = 3 * kvalue st + carry /\ kvalue st' < 2 ^ 64) /\
  MAX_CVALUE = 3 ^ 39 /\
  (forall s, 0 <= s -> (3 ^ s <= MAX_CVALUE <-> 3 * 3 ^ s < 2 ^ 64)) /\
  MAX_KVALUE = (2 ^ 64 - 3) / 3 /\
  (forall k, k <= MAX_KVALUE <-> 3 * k + 2 < 2 ^ 64).
Proof.
  intros R G H.
  pose proof (reachable_invariant st R) as [W _].
  pose proof (wf_cvalue st W) as Hc. pose proof (wf_kvalue st W) as Hk.
  pose proof G as G'. apply lazy_guard_true in G'. destruct G' as [Gc Gk].
  pose proof (lazy_carry_range (narr st (wordoffset st)) (bitmask st)) as Hcr.
  split; [| split; [| split; [| split; [| split]]]].
  - rewrite (lazy_update_cvalue st st' H).
    rewrite (triple_c_exact (cvalue st)) by lia.
    unfold MAX_CVALUE in Gc. lia.
  - exists (lazy_carry (narr st (wordoffset st)) (bitmask st)).
    rewrite (lazy_update_kvalue st st' H).
    rewrite (triple_k_exact (kvalue st)) by (unfold u64 in Hk; lia).
    unfold MAX_KVALUE in Gk. lia.
  - reflexivity.
  - intros s Hs. rewrite pow3_guard by assumption.
    rewrite <- Z.pow_succ_r by assumption.
    split; intros Hle.
    + apply Z.le_lt_trans with (3 ^ 40); [| reflexivity].
      apply Z.pow_le_mono_r; lia.
    + destruct (Z_le_gt_dec s 39) as [Hs' | Hs']; [assumption | exfalso].
      assert (3 ^ 41 <= 3 ^ Z.succ s) by (apply Z.pow_le_mono_r; lia).
      assert (2 ^ 64 < 3 ^ 41) by reflexivity. lia.
  - reflexivity.
  - intros k. unfold MAX_KVALUE. lia.
Qed.

(** The value 3, digits [11]: the first lazy update. *)
Lemma guard_prevents_overflow_witness :
  exists st0 st',
    init_from_file (file_of_digits ["1"; "1"]%char) clear_memory = Ok st0 /\
    lazy_update st0 = Ok st' /\
    cvalue st' = 3 * cvalue st0 /\ cvalue st' < 2 ^ 64.
Proof.
  eexists. eexists.
  split; [vm_compute; reflexivity |].
  split; [vm_compute; reflexivity |].
  refine (proj1 (guard_prevents_overflow _ _ _ _ _)).
  - eexists. exists []. split; [| apply run_nil].
    eapply started_file with (file := file_of_digits ["1"; "1"]%char).
    + exact clear_memory_typed.
    + vm_compute. split; [discriminate | reflexivity].
    + vm_compute. reflexivity.
  - vm_compute. reflexivity.
  - vm_compute. reflexivity.
Defined.

(** The threshold on [cvalue] is not [floor((2^64 - 1) / 3)], and it is
    not the largest value whose triple fits in 64 bits. *)
Lemma guard_thresholds_counterexample :
  MAX_CVALUE <> (2 ^ 64 - 1) / 3 /\
  lazy_guard (MAX_CVALUE + 1) 0 = false /\
  3 * (MAX_CVALUE + 1) < 2 ^ 64.
Proof.
  split; [vm_compute; discriminate |].
  split; reflexivity.
Qed.

(** C6. Compaction preserves the value: the words of the active window,
    the integer they represent, the tracked value, the pending
    transform, the bit mask, [bitsize] and all counters are unchanged;
    when compaction runs, the window is moved to the start of the
    buffer and keeps its length. *)
Theorem compaction_preserves_value (st : State) :
  wordoffset st < lastword st ->
  window (compaction st) = window st /\
  represented (compaction st) = represented st /\
  tracked (compaction st) = tracked st /\
  cvalue (compaction st) = cvalue st /\
  kvalue (compaction st) = kvalue st /\
  bitmask (compaction st) = bitmask st /\
  bitsize (compaction st) = bitsize st /\
  steps (compaction st) = steps st /\
  divsteps (compaction st) = divsteps st /\
  mulsteps (compaction st) = mulsteps st /\
  lastword (compaction st) - wordoffset (compaction st)
  = lastword st - wordoffset st /\
  (CAPACITY - 2 <= lastword st -> wordoffset (compaction st) = 0).
Proof.
  intros H.
  destruct (compaction_fields st) as (Hb & Hc & Hk & Hs & H1 & H2 & H3 & _ & Hl).
  pose proof (compaction_window st ltac:(lia)) as Hw.
  repeat split; auto.
  - unfold represented. now rewrite Hw, Hb.
  - unfold tracked. now rewrite compaction_pending, Hb by assumption.
  - intros Hcap. unfold compaction.
    change (0 + SCRATCHPAD / 8 - 2) with (CAPACITY - 2).
    destruct (Z.geb_spec (lastword st) (CAPACITY - 2)); [reflexivity | lia].
Qed.

(** A window of three words that ends two words before the end of the
    buffer. *)
Lemma compaction_preserves_value_witness :
  let st := mkState (upd (upd (upd clear_memory 50999995 8) 50999996 5) 50999997 7)
                    50999995 8 50999998 131 1 0 9 6 3 0 in
  window st = [8; 5; 7] /\
  wordoffset (compaction st) = 0 /\ lastword (compaction st) = 3 /\
  window (compaction st) = window st /\
  represented (compaction st) = represented st.
Proof.
  intros st.
  split; [reflexivity |].
  split; [reflexivity |].
  split; [reflexivity |].
  pose proof (compaction_preserves_value st ltac:(cbn; lia)) as H.
  split; [exact (proj1 H) | exact (proj1 (proj2 H))].
Defined.

(** C9. The pending multiplier is a power of three: in every state at
    the head of the loop, [cvalue = 3^s] for the number [s] of lazy odd
    steps since the last actualization (or since the start), and [s] is
    at most 40; the guard [cvalue <= MAX_CVALUE], with [MAX_CVALUE =
    3^39], passes exactly when one more tripling stays below [2^64],
    and [cvalue] is never strictly between two consecutive powers of
    three. *)
Theorem cvalue_power_of_three (st0 st : State) (tr : list event) :
  started st0 ->
  run_from st0 tr st ->
  cvalue st = 3 ^ Z.of_nat (lazy_since_flush tr) /\
  (lazy_since_flush tr <= 40)%nat /\
  MAX_CVALUE = 3 ^ 39 /\ 3 ^ 40 < 2 ^ 64 /\
  (cvalue st <= MAX_CVALUE <-> (lazy_since_flush tr <= 39)%nat) /\
  (cvalue st <= MAX_CVALUE <-> 3 * cvalue st < 2 ^ 64) /\
  (forall j, 0 <= j -> ~ (3 ^ j < cvalue st < 3 ^ (j + 1))).
Proof.
  intros S R.
  destruct (started_spec st0 S) as (I0 & C0 & _).
  destruct (run_from_cvalue st0 tr st I0 C0 R) as [C L].
  set (s := Z.of_nat (lazy_since_flush tr)) in *.
  assert (Hs : 0 <= s <= 40) by (unfold s; lia).
  split; [exact C |]. split; [exact L |].
  split; [reflexivity |]. split; [reflexivity |].
  split; [| split].
  - rewrite C, pow3_guard by lia. unfold s. lia.
  - rewrite C, pow3_guard by lia.
    rewrite <- Z.pow_succ_r by lia.
    split; intros H.
    + apply Z.le_lt_trans with (3 ^ 40); [| reflexivity].
      apply Z.pow_le_mono_r; lia.
    + assert (s = 40 -> False); [| lia].
      intros E. rewrite E in H. vm_compute in H. discriminate H.
  - intros j Hj [Hlo Hhi]. rewrite C in Hlo, Hhi.
    apply Z.pow_lt_mono_r_iff in Hlo; try lia.
    apply Z.pow_lt_mono_r_iff in Hhi; lia.
Qed.

(** The value 3, digits [11], after its first lazy step. *)
Lemma cvalue_power_of_three_witness :
  exists st0 st,
    init_from_file (file_of_digits ["1"; "1"]%char) clear_memory = Ok st0 /\
    iteration st0 = Ok (EvTriple, st) /\
    cvalue st = 3 ^ Z.of_nat (lazy_since_flush [EvTriple]).
Proof.
  eexists. eexists.
  split; [vm_compute; reflexivity |].
  split; [vm_compute; reflexivity |].
  refine (proj1 (cvalue_power_of_three _ _ [EvTriple] _ _)).
  - eapply started_file with (file := file_of_digits ["1"; "1"]%char).
    + exact clear_memory_typed.
    + vm_compute. split; [discriminate | reflexivity].
    + vm_compute. reflexivity.
  - eapply run_cons.
    + apply run_nil.
    + vm_compute. discriminate.
    + vm_compute. reflexivity.
Defined.

(** ** The bits of [asbyte] *)

Lemma digit_b2z c : digit c = Z.b2z (is_one c).
Proof. unfold digit, is_one. now destruct (Ascii.eqb c "0"). Qed.

(** Adding the digit of position [i] to a value that has no bit below
    position [64 - i]. *)
Lemma add_digit i v (d : bool) :
  0 <= i < 64 -> u64 v -> v mod 2 ^ (64 - i) = 0 ->
  let v' := wrap64 (v + wrap64 (Z.shiftl (Z.b2z d) (63 - i))) in
  u64 v' /\ v' mod 2 ^ (63 - i) = 0 /\
  forall j, 0 <= j ->
    Z.testbit v' j = if j =? 63 - i then d else Z.testbit v j.
Proof.
  intros Hi [Hv0 Hv1] Hm v'.
  pose proof (pow2_pos (63 - i) ltac:(lia)) as Hp.
  pose proof (pow2_pos (64 - i) ltac:(lia)) as Hp'.
  assert (E2 : 2 ^ (64 - i) = 2 * 2 ^ (63 - i)).
  { replace (64 - i) with (Z.succ (63 - i)) by lia. apply Z.pow_succ_r. lia. }
  assert (E64 : 2 ^ 64 = 2 ^ i * 2 ^ (64 - i)).
  { rewrite <- Z.pow_add_r by lia. f_equal. lia. }
  pose proof (Z.div_mod v (2 ^ (64 - i)) ltac:(lia)) as D. rewrite Hm in D.
  set (q := v / 2 ^ (64 - i)) in *.
  assert (Hq : 0 <= q < 2 ^ i).
  { split; [apply Z.div_pos; lia | apply Z.div_lt_upper_bound; lia]. }
  assert (Hb : 0 <= Z.b2z d <= 1) by (destruct d; cbn; lia).
  assert (Ev' : v' = (2 * q + Z.b2z d) * 2 ^ (63 - i)).
  { unfold v'. rewrite Z.shiftl_mul_pow2 by lia.
    rewrite (wrap64_small (Z.b2z d * 2 ^ (63 - i))) by nia.
    rewrite wrap64_small by nia. nia. }
  split; [| split].
  - rewrite Ev'. unfold u64. nia.
  - rewrite Ev'. apply Z.mod_mul. lia.
  - intros j Hj. rewrite Ev'.
    rewrite Z.mul_pow2_bits by lia.
    destruct (Z.eqb_spec j (63 - i)) as [-> | Hne].
    + rewrite Z.sub_diag. apply Z.testbit_0_r.
    + assert (Ev : v = q * 2 ^ (64 - i)) by lia.
      rewrite Ev, Z.mul_pow2_bits by lia.
      destruct (Z_lt_ge_dec j (63 - i)) as [Hlt | Hge].
      * rewrite !Z.testbit_neg_r by lia. reflexivity.
      * replace (j - (63 - i)) with (Z.succ (j - (64 - i))) by lia.
        rewrite Z.testbit_succ_r by lia. reflexivity.
Qed.

Lemma asbyte_loop_bits num s n : forall i v,
  0 <= i -> i + Z.of_nat n <= 64 -> u64 v -> v mod 2 ^ (64 - i) = 0 ->
  forall j, 0 <= j ->
    Z.testbit (asbyte_loop n num s i v) j
    = if (64 - i - Z.of_nat n <=? j) && (j <? 64 - i)
      then is_one (char_at num (s + (63 - j)))
      else Z.testbit v j.
Proof.
  induction n as [| n IH]; intros i v Hi Hn Hv Hm j Hj.
  - cbn [asbyte_loop].
    destruct (Z.leb_spec (64 - i - Z.of_nat 0) j), (Z.ltb_spec j (64 - i));
      cbn [andb]; try reflexivity; lia.
  - cbn [asbyte_loop]. rewrite digit_b2z.
    destruct (add_digit i v (is_one (char_at num (s + i))) ltac:(lia) Hv Hm)
      as (Hv' & Hm' & Hbits).
    rewrite IH; try lia; try assumption.
    2:{ replace (64 - (i + 1)) with (63 - i) by lia. exact Hm'. }
    rewrite Hbits by lia.
    destruct (Z.eqb_spec j (63 - i)) as [-> | Hne].
    + replace (s + (63 - (63 - i))) with (s + i) by lia.
      destruct (Z.leb_spec (64 - (i + 1) - Z.of_nat n) (63 - i)),
        (Z.ltb_spec (63 - i) (64 - (i + 1))),
        (Z.leb_spec (64 - i - Z.of_nat (S n)) (63 - i)),
        (Z.ltb_spec (63 - i) (64 - i)); cbn [andb]; try reflexivity; lia.
    + destruct (Z.leb_spec (64 - (i + 1) - Z.of_nat n) j),
        (Z.ltb_spec j (64 - (i + 1))),
        (Z.leb_spec (64 - i - Z.of_nat (S n)) j),
        (Z.ltb_spec j (64 - i)); cbn [andb]; try reflexivity; lia.
Qed.

Lemma asbyte_bits num s j :
  0 <= j ->
  Z.testbit (asbyte num s) j
  = if j <? 64 then is_one (char_at num (s + (63 - j))) else false.
Proof.
  intros Hj. unfold asbyte.
  rewrite asbyte_loop_bits; try lia.
  - destruct (Z.leb_spec (64 - 0 - Z.of_nat 64) j), (Z.ltb_spec j (64 - 0)),
      (Z.ltb_spec j 64); cbn [andb]; try reflexivity; try lia.
    apply Z.bits_0.
  - unfold u64. lia.
  - apply Z.mod_0_l. lia.
Qed.

Lemma char_at_map f num i :
  is_one (f Ascii.zero) = true -> (forall c, is_one (f c) = is_one c) ->
  is_one (char_at (map f num) i) = is_one (char_at num i).
Proof.
  intros H0 Hf. unfold char_at.
  destruct (Nat.lt_ge_cases (Z.to_nat i) (length num)) as [Hlt | Hge].
  - rewrite (nth_indep _ Ascii.zero (f Ascii.zero)) by (now rewrite length_map).
    rewrite map_nth. apply Hf.
  - rewrite !nth_overflow by (rewrite ?length_map; lia). reflexivity.
Qed.

Lemma is_one_as_binary c : is_one (as_binary c) = is_one c.
Proof.
  unfold is_one, as_binary. destruct (Ascii.eqb c "0") eqn:E; reflexivity.
Qed.

Lemma asbyte_as_binary num s : asbyte (map as_binary num) s = asbyte num s.
Proof.
  apply Z.bits_inj'. intros j Hj. rewrite !asbyte_bits by assumption.
  destruct (j <? 64); [| reflexivity].
  apply char_at_map; [reflexivity | apply is_one_as_binary].
Qed.

(** ** The loader looks at the characters through [asbyte] only *)

Lemma load_blocks_as_binary fuel num extra : forall c i m,
  load_blocks fuel (map as_binary num) extra c i m
  = load_blocks fuel num extra c i m.
Proof.
  induction fuel as [| fuel IH]; intros c i m; cbn [load_blocks].
  - reflexivity.
  - destruct (c >? extra); [| reflexivity].
    rewrite asbyte_as_binary.
    destruct (store m i (asbyte num (c - 64))); cbn [bind]; auto.
Qed.

Lemma init_from_file_as_binary file mem0 :
  init_from_file (map as_binary file) mem0 = init_from_file file mem0.
Proof.
  destruct file as [| a file']; [reflexivity |].
  change (map as_binary (a :: file')) with (as_binary a :: map as_binary file').
  unfold init_from_file, usf_ftos. cbv beta iota.
  change (as_binary a :: map as_binary file') with (map as_binary (a :: file')).
  remember (a :: file') as file eqn:E. clear E a file'.
  rewrite length_map, firstn_map.
  destruct (_ >? NWORDS); [reflexivity |].
  rewrite load_blocks_as_binary.
  destruct (load_blocks _ _ _ _ _ _) as [[[m c] i] |]; cbn [bind]; [| reflexivity].
  unfold load_last. rewrite asbyte_as_binary. reflexivity.
Qed.

Lemma load_blocks_error fuel num extra : forall c i m e,
  load_blocks fuel num extra c i m = Err e -> e = UB.
Proof.
  induction fuel as [| fuel IH]; intros c i m e; cbn [load_blocks].
  - destruct (c >? extra); intros H; now inversion H.
  - destruct (c >? extra); [| discriminate].
    unfold store. destruct (in_buffer i); cbn [bind].
    + apply IH.
    + intros H. now inversion H.
Qed.

(** The loader rejects a file on its length alone. *)
Lemma init_from_file_rejects file mem0 :
  init_from_file file mem0 = Err ExitFailure <->
  file <> [] /\
  wrap64 (wrap64 (Z.of_nat (length file)) - 1) / 64 > NWORDS.
Proof.
  destruct file as [| a file'].
  - cbn. split; [discriminate | intros [H _]; now contradiction H].
  - unfold init_from_file, usf_ftos. cbv beta iota.
    remember (a :: file') as file eqn:E.
    assert (Hne : file <> []) by (subst file; discriminate).
    clear E a file'.
    set (flen := wrap64 (wrap64 (Z.of_nat (length file)) - 1)).
    destruct (Z.gtb_spec (flen / 64) NWORDS) as [Hbig | Hok].
    + split; [intros _; split; [assumption | lia] | reflexivity].
    + split; [| intros [_ H]; lia].
      destruct (load_blocks _ _ _ _ _ _) as [[[m c] i] | e] eqn:El; cbn [bind].
      * unfold load_last, store.
        destruct (_ =? 0); cbn [bind]; [discriminate |].
        destruct (in_buffer i); cbn [bind]; discriminate.
      * apply load_blocks_error in El. subst e. discriminate.
Qed.

(** ** The capacity check *)

Lemma file_of_digits_length c n :
  0 <= n ->
  Z.of_nat (length (file_of_digits (repeat c (Z.to_nat n)))) = n + 1.
Proof.
  intros Hn. unfold file_of_digits.
  rewrite length_app, repeat_length, Nat2Z.inj_add, Z2Nat.id by assumption.
  reflexivity.
Qed.

Lemma oversized_accepted n mem0 :
  64 * NWORDS < n < 64 * NWORDS + 64 ->
  exists st,
    init_from_file (file_of_digits (repeat "1"%char (Z.to_nat n))) mem0 = Ok st /\
    bitsize st = n /\ lastword st = NWORDS + 1.
Proof.
  intros Hn. unfold NWORDS in Hn.
  pose proof (file_of_digits_length "1"%char n ltac:(lia)) as Hlen.
  assert (Hq : n / 64 = NWORDS).
  { symmetry. apply (Z.div_unique n 64 NWORDS (n - 64 * NWORDS)); unfold NWORDS; lia. }
  destruct (init_from_file_defined
              (file_of_digits (repeat "1"%char (Z.to_nat n))) mem0)
    as [st H].
  - rewrite Hlen. lia.
  - rewrite Hlen. replace (n + 1 - 1) with n by lia. lia.
  - exists st. split; [exact H |].
    destruct (init_from_file_spec _ mem0 st ltac:(rewrite Hlen; lia) H)
      as (_ & _ & _ & Hlw & Hbs & _).
    rewrite Hlen in Hlw, Hbs. replace (n + 1 - 1) with n in * by lia.
    split; [exact Hbs |]. rewrite Hlw.
    symmetry. apply (Z.div_unique (n + 63) 64 (NWORDS + 1) (n - 64 * NWORDS - 1));
      unfold NWORDS; lia.
Qed.

(** C8, on the failing input. A file of [64 NWORDS + 1] digits declares
    one bit more than [NWORDS] words hold; the loader does not reject
    it and fills [NWORDS + 1] words. *)
Theorem capacity_check_accepts_oversized :
  64 * NWORDS < 3200000001 /\
  forall mem0, exists st,
    init_from_file (file_of_digits (repeat "1"%char (Z.to_nat 3200000001))) mem0
    = Ok st /\
    bitsize st = 3200000001 /\ lastword st = NWORDS + 1.
Proof.
  split; [reflexivity |].
  intros mem0. apply oversized_accepted. unfold NWORDS. lia.
Qed.

(** C4, on failing inputs. Started on [(2^64 - 1) 2^64], the driver
    halves 64 times, which moves the cursor to the second word of the
    buffer; the lazy update of the next iteration carries out of that
    word, and the actualization that follows sets [bitsize] to 130,
    counting the consumed word below the cursor, while the tracked
    value [3 (2^64 - 1) + 1] has 66 bits; [bitsize] is still 130 when
    the iteration ends.  Started on [2^127 + 2^62], the driver reaches
    the last word with a carry pending in [kvalue]; line 171 sets
    [bitsize] to 64 from that word alone, while the tracked value has
    65 bits. *)
Theorem bitsize_not_exact :
  (exists st0 st64 s1 sa st65,
     init_from_file shifted_ones_file clear_memory = Ok st0 /\
     run 64 st0 = Running st64 /\
     wordoffset st64 = 1 /\ tracked st64 = 2 ^ 64 - 1 /\
     lazy_update st64 = Ok s1 /\ hail_mary s1 = true /\
     actualize s1 = Ok sa /\
     tracked sa = 3 * (2 ^ 64 - 1) + 1 /\
     bit_length (tracked sa) = 66 /\ bitsize sa = 130 /\
     run 65 st0 = Running st65 /\
     bit_length (tracked st65) = 66 /\ bitsize st65 = 130) /\
  (exists st0 st65,
     init_from_file two_bits_file clear_memory = Ok st0 /\
     run 65 st0 = Running st65 /\
     wordoffset st65 + 1 = lastword st65 /\ kvalue st65 = 1 /\
     tracked st65 = 2 ^ 64 + 2 ^ 63 + 1 /\
     bit_length (tracked st65) = 65 /\ bitsize st65 = 64).
Proof.
  split.
  - do 5 eexists.
    split; [vm_compute; reflexivity |].
    split; [vm_compute; reflexivity |].
    split; [vm_compute; reflexivity |].
    split; [vm_compute; reflexivity |].
    split; [vm_compute; reflexivity |].
    split; [vm_compute; reflexivity |].
    split; [vm_compute; reflexivity |].
    split; [vm_compute; reflexivity |].
    split; [vm_compute; reflexivity |].
    split; [vm_compute; reflexivity |].
    split; [vm_compute; reflexivity |].
    split; vm_compute; reflexivity.
  - do 2 eexists.
    split; [vm_compute; reflexivity |].
    split; [vm_compute; reflexivity |].
    split; [vm_compute; reflexivity |].
    split; [vm_compute; reflexivity |].
    split; [vm_compute; reflexivity |].
    split; vm_compute; reflexivity.
Qed.

(** ** The trajectory of a power of two *)

Lemma trailing_zeros_pow2 n : forall b,
  0 <= b < Z.of_nat n -> trailing_zeros n (2 ^ b) = b.
Proof.
  induction n as [| n IH]; intros b Hb; [lia |].
  cbn [trailing_zeros].
  destruct (Z.eq_dec b 0) as [-> | Hne].
  - reflexivity.
  - assert (E : 2 ^ b = 2 ^ (b - 1) * 2).
    { rewrite Z.mul_comm, <- Z.pow_succ_r by lia. f_equal. lia. }
    rewrite E, Z.div_mul by lia.
    rewrite Z.odd_mul, andb_false_r.
    rewrite IH by lia. lia.
Qed.

Lemma ctzll_pow2 b : 0 <= b <= 63 -> ctzll (2 ^ b) = Ok b.
Proof.
  intros Hb. unfold ctzll. pose proof (pow2_pos b ltac:(lia)).
  destruct (Z.eqb_spec (2 ^ b) 0); [lia |].
  now rewrite trailing_zeros_pow2 by lia.
Qed.

Lemma clzll_pow2 b : 0 <= b <= 63 -> clzll (2 ^ b) = Ok (63 - b).
Proof.
  intros Hb. unfold clzll. pose proof (pow2_pos b ltac:(lia)).
  destruct (Z.eqb_spec (2 ^ b) 0); [lia |].
  now rewrite Z.log2_pow2 by lia.
Qed.

Lemma land_distinct_bits a b : 0 <= a -> 0 <= b -> a <> b -> Z.land (2 ^ a) (2 ^ b) = 0.
Proof.
  intros Ha Hb Hne. rewrite land_single_bit by lia.
  now rewrite Z.pow2_bits_false by lia.
Qed.

Lemma pow2_u64 b : 0 <= b <= 63 -> u64 (2 ^ b).
Proof.
  intros Hb. pose proof (pow2_pos b ltac:(lia)).
  assert (2 ^ b < 2 ^ 64) by (apply Z.pow_lt_mono_r; lia).
  unfold u64. lia.
Qed.

Lemma identity_mul_add w :
  u64 w -> lo64 (mul_add128 w 1 0) = w /\ hi64 (mul_add128 w 1 0) = 0.
Proof.
  intros Hw. rewrite mul_add128_exact; [| assumption | unfold u64; lia ..].
  rewrite Z.mul_1_r, Z.add_0_r. unfold lo64, hi64.
  rewrite wrap64_small by apply Hw.
  rewrite Z.shiftr_div_pow2 by lia.
  rewrite Z.div_small by apply Hw. split; reflexivity.
Qed.

Lemma pow2_step k j st :
  1 <= k -> k / 64 <= NWORDS -> 0 <= j < k ->
  pow2_state k j st ->
  bitsize st <> 1 /\
  exists st', iteration st = Ok (EvHalve, st') /\ pow2_state k (j + 1) st'.
Proof.
  intros Hk Hcap Hj (Hwo & Hbm & Hlw & Hmem & Hc & Hkv & Hs & Hd & Hm & Hbs).
  pose proof capacity_value as HC. unfold NWORDS in Hcap.
  assert (Hjm : 0 <= j mod 64 < 64) by (apply Z.mod_pos_bound; lia).
  assert (Hkm : 0 <= k mod 64 < 64) by (apply Z.mod_pos_bound; lia).
  assert (Hw : narr st (j / 64) = 0 \/
               (j / 64 = k / 64 /\ narr st (j / 64) = 2 ^ (k mod 64))).
  { rewrite Hmem by dlia. destruct (Z.eqb_spec (j / 64) (k / 64)); auto. }
  assert (Hmu : forall i, 0 <= i <= k / 64 -> u64 (narr st i)).
  { intros i Hi. rewrite Hmem by dlia.
    destruct (i =? k / 64); [apply pow2_u64; lia | unfold u64; lia]. }
  split.
  { rewrite Hbs. destruct (j / 64 =? k / 64); dlia. }
  unfold iteration, branch. rewrite Hwo, Hbm.
  rewrite load_in by dlia. cbn [bind].
  assert (Hland : Z.land (narr st (j / 64)) (2 ^ (j mod 64)) = 0).
  { destruct Hw as [-> | [Hsame ->]]; [apply Z.land_0_l |].
    apply land_distinct_bits; dlia. }
  rewrite Hland. cbn [Z.eqb bind].
  unfold even_branch. rewrite Hbm, mask_is_msb by dlia.
  destruct (Z.eqb_spec (j mod 64) 63) as [E63 | E63].
  - (* into the next word *)
    rewrite Hwo, load_in by dlia. cbn [bind].
    rewrite store_in by dlia. cbn [bind].
    rewrite Hc, Hkv.
    destruct (identity_mul_add (narr st (j / 64 + 1)) ltac:(apply Hmu; dlia))
      as [-> ->].
    unfold refresh_bitsize. fields.
    assert (Enext : (j + 1) / 64 = j / 64 + 1) by dlia.
    assert (Emod : (j + 1) mod 64 = 0) by dlia.
    destruct (Z.eqb_spec (j / 64 + 1 + 1) (lastword st)) as [El | El].
    + rewrite load_in by dlia. cbn [bind]. rewrite upd_same.
      rewrite (Hmem (j / 64 + 1)) by dlia.
      replace (j / 64 + 1 =? k / 64) with true by (symmetry; apply Z.eqb_eq; dlia).
      rewrite clzll_pow2 by dlia. cbn [bind].
      change 1 with (2 ^ 0) at 1. rewrite ctzll_pow2 by dlia. cbn [bind].
      eexists. split; [reflexivity |].
      unfold pow2_state. fields. rewrite Enext, Emod.
      replace (j / 64 + 1 =? k / 64) with true by (symmetry; apply Z.eqb_eq; dlia).
      rewrite Hs, Hd, !(wrap64_small (j + 1)) by dlia.
      rewrite wrap64_small by dlia.
      repeat split; auto; try dlia.
      intros i Hi. unfold upd.
      destruct (Z.eqb_spec i (j / 64 + 1)) as [-> | _]; [| apply Hmem; dlia].
      destruct (Z.eqb_spec (j / 64 + 1) (k / 64)); [reflexivity | dlia].
    + eexists. split; [reflexivity |].
      unfold pow2_state. fields. rewrite Enext, Emod.
      replace (j / 64 + 1 =? k / 64) with false by (symmetry; apply Z.eqb_neq; dlia).
      rewrite Hs, Hd, !(wrap64_small (j + 1)) by dlia.
      repeat split; auto; try dlia.
      * intros i Hi. unfold upd.
        destruct (Z.eqb_spec i (j / 64 + 1)) as [-> | _]; apply Hmem; dlia.
      * rewrite Hbs. destruct (Z.eqb_spec (j / 64) (k / 64)); dlia.
  - (* within the word *)
    cbn [bind]. rewrite shl1_mask by dlia.
    unfold refresh_bitsize. fields.
    assert (Enext : (j + 1) / 64 = j / 64) by dlia.
    assert (Emod : (j + 1) mod 64 = j mod 64 + 1) by dlia.
    rewrite Hwo.
    destruct (Z.eqb_spec (j / 64 + 1) (lastword st)) as [El | El].
    + rewrite load_in by dlia. cbn [bind].
      rewrite (Hmem (j / 64)) by dlia.
      replace (j / 64 =? k / 64) with true by (symmetry; apply Z.eqb_eq; dlia).
      rewrite clzll_pow2 by dlia. cbn [bind].
      rewrite ctzll_pow2 by dlia. cbn [bind].
      eexists. split; [reflexivity |].
      unfold pow2_state. fields. rewrite Enext, Emod.
      replace (j / 64 =? k / 64) with true by (symmetry; apply Z.eqb_eq; dlia).
      rewrite Hs, Hd, !(wrap64_small (j + 1)) by dlia.
      rewrite wrap64_small by dlia.
      repeat split; auto; dlia.
    + eexists. split; [reflexivity |].
      unfold pow2_state. fields. rewrite Enext, Emod.
      replace (j / 64 =? k / 64) with false by (symmetry; apply Z.eqb_neq; dlia).
      rewrite Hs, Hd, !(wrap64_small (j + 1)) by dlia.
      repeat split; auto; try dlia.
      rewrite Hbs.
      replace (j / 64 =? k / 64) with false by (symmetry; apply Z.eqb_neq; dlia).
      reflexivity.
Qed.

Lemma pow2_run k : forall n j st,
  1 <= k -> k / 64 <= NWORDS -> 0 <= j ->
  j + Z.of_nat n = k ->
  pow2_state k j st ->
  exists st', run n st = Finished st' /\ pow2_state k k st'.
Proof.
  induction n as [| n IH]; intros j st Hk Hcap Hj Hn P.
  - assert (j = k) by dlia. subst j.
    exists st. split; [| exact P].
    destruct P as (_ & _ & _ & _ & _ & _ & _ & _ & _ & Hbs).
    rewrite Z.eqb_refl in Hbs. cbn [run]. rewrite Hbs.
    replace (k + 1 - k) with 1 by dlia. reflexivity.
  - destruct (pow2_step k j st Hk Hcap ltac:(dlia) P) as (Hb & st' & Hit & P').
    cbn [run]. apply Z.eqb_neq in Hb. rewrite Hb, Hit.
    apply (IH (j + 1)); auto; dlia.
Qed.

(** ** Loading a power of two *)

Lemma nth_repeat_in {A : Type} (a d : A) n : forall j,
  (j < n)%nat -> nth j (repeat a n) d = a.
Proof.
  induction n as [| n IH]; intros j Hj; [lia |].
  destruct j as [| j]; cbn; [reflexivity | apply IH; lia].
Qed.

Lemma pow2_file_length k :
  0 <= k -> Z.of_nat (length (pow2_file k)) = k + 2.
Proof.
  intros Hk. unfold pow2_file, file_of_digits.
  rewrite length_app. cbn [length]. rewrite repeat_length.
  rewrite Nat2Z.inj_add, Nat2Z.inj_succ, Z2Nat.id by assumption.
  change (Z.of_nat 1) with 1. lia.
Qed.

Lemma pow2_file_digits k :
  0 <= k ->
  firstn (Z.to_nat (k + 1)) (pow2_file k) = "1"%char :: repeat "0"%char (Z.to_nat k).
Proof.
  intros Hk. unfold pow2_file, file_of_digits.
  replace (Z.to_nat (k + 1))
    with (length ("1"%char :: repeat "0"%char (Z.to_nat k)) + 0)%nat
    by (cbn [length]; rewrite repeat_length; lia).
  rewrite firstn_app_2. cbn [firstn]. apply app_nil_r.
Qed.

Lemma pow2_char k i :
  0 <= i <= k ->
  is_one (char_at ("1"%char :: repeat "0"%char (Z.to_nat k)) i) = (i =? 0).
Proof.
  intros Hi. unfold char_at.
  destruct (Z.eqb_spec i 0) as [-> | Hne]; [reflexivity |].
  replace (Z.to_nat i) with (S (Z.to_nat (i - 1))) by lia.
  cbn [nth]. rewrite nth_repeat_in by lia. reflexivity.
Qed.

Lemma pow2_block k s :
  0 <= s -> s + 63 <= k ->
  asbyte ("1"%char :: repeat "0"%char (Z.to_nat k)) s = if s =? 0 then 2 ^ 63 else 0.
Proof.
  intros Hs Hk. apply Z.bits_inj'. intros j Hj.
  rewrite asbyte_bits by assumption.
  destruct (Z.ltb_spec j 64) as [Hlt | Hge].
  - rewrite pow2_char by lia.
    destruct (Z.eqb_spec s 0) as [-> | Hne].
    + rewrite Z.pow2_bits_eqb by lia.
      destruct (Z.eqb_spec (0 + (63 - j)) 0), (Z.eqb_spec 63 j); try reflexivity; lia.
    + rewrite Z.bits_0.
      destruct (Z.eqb_spec (s + (63 - j)) 0); [lia | reflexivity].
  - destruct (s =? 0).
    + rewrite Z.pow2_bits_false by lia. reflexivity.
    + now rewrite Z.bits_0.
Qed.

Lemma pow2_top_block k e :
  1 <= e <= 63 -> e - 1 <= k ->
  Z.shiftr (asbyte ("1"%char :: repeat "0"%char (Z.to_nat k)) 0) (64 - e)
  = 2 ^ (e - 1).
Proof.
  intros He Hk. apply Z.bits_inj'. intros j Hj.
  rewrite Z.shiftr_spec by assumption.
  rewrite asbyte_bits by lia.
  rewrite Z.pow2_bits_eqb by lia.
  destruct (Z.ltb_spec (j + (64 - e)) 64) as [Hlt | Hge].
  - rewrite pow2_char by lia.
    destruct (Z.eqb_spec (0 + (63 - (j + (64 - e)))) 0), (Z.eqb_spec (e - 1) j);
      try reflexivity; lia.
  - destruct (Z.eqb_spec (e - 1) j); [lia | reflexivity].
Qed.

Lemma pow2_loaded k mem0 :
  1 <= k -> (k + 1) / 64 <= NWORDS ->
  exists st0,
    init_from_file (pow2_file k) mem0 = Ok st0 /\ pow2_state k 0 st0.
Proof.
  intros Hk Hcap.
  pose proof (pow2_file_length k ltac:(lia)) as Hlen.
  pose proof (pow2_file_digits k ltac:(lia)) as Hnum.
  unfold NWORDS in Hcap.
  destruct (init_from_file_defined (pow2_file k) mem0) as [st0 H].
  { rewrite Hlen. dlia. }
  { rewrite Hlen. replace (k + 2 - 1) with (k + 1) by lia. exact Hcap. }
  exists st0. split; [exact H |].
  destruct (init_from_file_spec (pow2_file k) mem0 st0 ltac:(rewrite Hlen; dlia) H)
    as (_ & Hwo & Hbm & Hlw & Hbs & _ & Hc & Hkv & Hs & Hd & Hm & Hfull & Htop).
  rewrite Hlen in *. replace (k + 2 - 1) with (k + 1) in * by lia.
  rewrite Hnum in *.
  unfold pow2_state.
  repeat split; auto.
  - rewrite Hlw. dlia.
  - intros i Hi.
    destruct (Z_lt_ge_dec i ((k + 1) / 64)) as [Hlt | Hge].
    + rewrite Hfull by dlia. rewrite pow2_block by dlia.
      destruct (Z.eqb_spec (k + 1 - 64 * (i + 1)) 0) as [E0 | E0],
        (Z.eqb_spec i (k / 64)) as [Ei | Ei]; try reflexivity; try dlia.
      f_equal. dlia.
    + assert (Ei : i = (k + 1) / 64) by dlia.
      assert (Hx : (k + 1) mod 64 <> 0) by dlia.
      rewrite Ei, (Htop Hx). rewrite pow2_top_block by dlia.
      replace ((k + 1) / 64 =? k / 64) with true by (symmetry; apply Z.eqb_eq; dlia).
      f_equal. dlia.
  - rewrite Hbs. destruct (0 / 64 =? k / 64); lia.
Qed.

Lemma words_value_zeros m n : forall lo,
  (forall i, lo <= i < lo + Z.of_nat n -> m i = 0) ->
  words_value (read_range m lo n) = 0.
Proof.
  induction n as [| n IH]; intros lo H; cbn [read_range words_value].
  - reflexivity.
  - rewrite H by lia. rewrite IH; [reflexivity |].
    intros i Hi. apply H. lia.
Qed.

Lemma pow2_represented k st :
  0 <= k -> pow2_state k 0 st -> represented st = 2 ^ k.
Proof.
  intros Hk (Hwo & Hbm & Hlw & Hmem & _).
  unfold represented, window. rewrite Hbm, Hwo, Hlw.
  change (0 mod 64) with 0. change (0 / 64) with 0. change (2 ^ 0) with 1.
  rewrite Z.div_1_r, Z.sub_0_r.
  assert (Hq : 0 <= k / 64) by dlia.
  replace (Z.to_nat (k / 64 + 1)) with (S (Z.to_nat (k / 64))) by lia.
  rewrite read_range_snoc, words_value_app, read_range_length.
  rewrite words_value_zeros.
  2:{ intros i Hi. rewrite Hmem by lia.
      destruct (Z.eqb_spec i (k / 64)); [lia | reflexivity]. }
  cbn [words_value]. rewrite Z2Nat.id by lia.
  rewrite !Z.add_0_l, Z.mul_0_r, Z.add_0_r.
  rewrite Hmem by lia. rewrite Z.eqb_refl.
  rewrite <- Z.pow_add_r by dlia. f_equal. dlia.
Qed.

(** C7, amended. Power-of-two trajectory: for every [k >= 1] such that
    the [k + 1] digits of [2^k] pass the capacity check of the loader,
    the driver started on [2^k] terminates after exactly [k]
    iterations, with [k] division steps, no multiplication step, a
    total step count of [k] and a final [bitsize] of 1. *)
Theorem power_of_two_trajectory (k : Z) (mem0 : memory) :
  1 <= k -> (k + 1) / 64 <= NWORDS ->
  exists st0 st,
    init_from_file (pow2_file k) mem0 = Ok st0 /\
    represented st0 = 2 ^ k /\
    run (Z.to_nat k) st0 = Finished st /\
    main_file (Z.to_nat k) (pow2_file k) mem0 = Finished st /\
    divsteps st = k /\ mulsteps st = 0 /\ steps st = k /\ bitsize st = 1.
Proof.
  intros Hk Hcap.
  destruct (pow2_loaded k mem0 Hk Hcap) as (st0 & Hinit & P0).
  destruct (pow2_run k (Z.to_nat k) 0 st0 Hk ltac:(dlia) ltac:(lia) ltac:(lia) P0)
    as (st & Hrun & P).
  exists st0, st.
  split; [exact Hinit |].
  split; [apply (pow2_represented k st0); [lia | exact P0] |].
  split; [exact Hrun |].
  split; [unfold main_file; now rewrite Hinit |].
  destruct P as (_ & _ & _ & _ & _ & _ & Hs & Hd & Hm & Hbs).
  rewrite Z.eqb_refl in Hbs.
  repeat split; auto. lia.
Qed.

(** The value [2^70], which spans two words. *)
Lemma power_of_two_trajectory_witness :
  exists st0 st,
    init_from_file (pow2_file 70) clear_memory = Ok st0 /\
    represented st0 = 2 ^ 70 /\
    run (Z.to_nat 70) st0 = Finished st /\
    main_file (Z.to_nat 70) (pow2_file 70) clear_memory = Finished st /\
    divsteps st = 70 /\ mulsteps st = 0 /\ steps st = 70 /\ bitsize st = 1.
Proof.
  apply (power_of_two_trajectory 70 clear_memory).
  - lia.
  - vm_compute. discriminate.
Defined.

(** The claim as stated fails for large [k]: the digits of
    [2^3200000063] do not pass the capacity check, and the program
    exits before the driver is started. *)
Lemma power_of_two_counterexample :
  1 <= 3200000063 /\
  main_file (Z.to_nat 3200000063) (pow2_file 3200000063) clear_memory
  = Failed ExitFailure.
Proof.
  split; [lia |].
  unfold main_file.
  assert (H : init_from_file (pow2_file 3200000063) clear_memory = Err ExitFailure).
  { apply init_from_file_rejects. split.
    - unfold pow2_file, file_of_digits. intros E.
      apply (f_equal (@length ascii)) in E. rewrite length_app in E.
      cbn [length] in E. lia.
    - rewrite pow2_file_length by lia. vm_compute. reflexivity. }
  now rewrite H.
Qed.

(** ** A known trajectory *)

(** The value 27, digits [11011], reaches 1 after 111 steps, 70 of them
    halvings; the whole run stays in one word. *)
Example trajectory_of_27 :
  exists st,
    main_file 200 (file_of_digits ["1"; "1"; "0"; "1"; "1"]%char) clear_memory
    = Finished st /\
    steps st = 111 /\ divsteps st = 70 /\ mulsteps st = 41 /\
    represented st = 1.
Proof.
  eexists. split; [vm_compute; reflexivity |].
  repeat split; vm_compute; reflexivity.
Qed.

(** The value [2^150 - 1], 150 digits 1, spans three words and grows
    to more: the driver takes the 2014 steps of the 3x+1 process,
    actualizing 18 times on the way, and ends on the value 1. *)
Example trajectory_of_150_ones :
  run_summary 3000 (repeat "1"%char 150) = Some (2014%nat, 18%nat, 2014, 1) /\
  Nat.iter 2014 collatz_step (2 ^ 150 - 1) = 1.
Proof. split; vm_compute; reflexivity. Qed.

(** * Further properties of the driver *)

(** ** Counters *)

Lemma even_branch_counters st st' :
  even_branch st = Ok st' ->
  steps st' = wrap64 (steps st + 1) /\
  divsteps st' = wrap64 (divsteps st + 1) /\
  mulsteps st' = mulsteps st.
Proof.
  unfold even_branch. intros H.
  destruct (bitmask st =? MSB64).
  - bind_ok H w Hw. bind_ok H m Hm. apply Ok_inj in H. subst st'. fields. auto.
  - apply Ok_inj in H. subst st'. fields. auto.
Qed.

Lemma lazy_update_counters st st' :
  lazy_update st = Ok st' ->
  steps st' = wrap64 (steps st + 1) /\
  divsteps st' = divsteps st /\
  mulsteps st' = wrap64 (mulsteps st + 1).
Proof.
  unfold lazy_update. intros H.
  bind_ok H w Hw. bind_ok H m Hm. apply Ok_inj in H. subst st'. fields. auto.
Qed.

Lemma actualize_block_counters st st' :
  actualize_block st = Ok st' ->
  steps st' = steps st /\ divsteps st' = divsteps st /\
  mulsteps st' = mulsteps st.
Proof.
  unfold actualize_block. intros H.
  bind_ok H sa Ha. apply Ok_inj in H. subst st'.
  destruct (actualize_fields st sa Ha) as (_ & _ & E1 & E2 & E3 & _).
  destruct (compaction_fields sa) as (_ & _ & _ & _ & F1 & F2 & F3 & _).
  destruct (telemetry_fields (compaction sa))
    as (_ & _ & _ & _ & _ & _ & _ & G1 & G2 & G3).
  repeat split; congruence.
Qed.

Lemma refresh_bitsize_counters st st' :
  refresh_bitsize st = Ok st' ->
  steps st' = steps st /\ divsteps st' = divsteps st /\
  mulsteps st' = mulsteps st.
Proof.
  unfold refresh_bitsize. intros H.
  destruct (wordoffset st + 1 =? lastword st).
  - bind_ok H w Hw. bind_ok H lz Hlz. bind_ok H tz Htz.
    apply Ok_inj in H. subst st'. fields. auto.
  - apply Ok_inj in H. subst st'. auto.
Qed.

Lemma iteration_counters st ev st' :
  iteration st = Ok (ev, st') ->
  steps st' = (if flushes ev && negb (is_triple ev) then steps st
               else wrap64 (steps st + 1)) /\
  divsteps st' = (if is_halve ev then wrap64 (divsteps st + 1) else divsteps st) /\
  mulsteps st' = (if is_triple ev then wrap64 (mulsteps st + 1) else mulsteps st).
Proof.
  intros H. unfold iteration in H.
  bind_ok H r Hb. destruct r as [ev1 st1].
  bind_ok H st2 Hr. apply Ok_inj in H. inversion H; subst ev1 st2; clear H.
  destruct (refresh_bitsize_counters st1 st' Hr) as (R1 & R2 & R3).
  rewrite R1, R2, R3. clear R1 R2 R3 Hr.
  unfold branch in Hb. bind_ok Hb w Hw.
  destruct (Z.land w (bitmask st) =? 0).
  - bind_ok Hb s He. apply Ok_inj in Hb. inversion Hb; subst ev st1.
    cbn [flushes is_triple is_halve andb negb].
    apply (even_branch_counters st s He).
  - unfold odd_branch in Hb.
    destruct (lazy_guard (cvalue st) (kvalue st)).
    + bind_ok Hb s1 Hl.
      destruct (lazy_update_counters st s1 Hl) as (L1 & L2 & L3).
      destruct (hail_mary s1).
      * bind_ok Hb s2 Hab. apply Ok_inj in Hb. inversion Hb; subst ev st1.
        destruct (actualize_block_counters s1 s2 Hab) as (A1 & A2 & A3).
        cbn [flushes is_triple is_halve andb negb].
        repeat split; congruence.
      * apply Ok_inj in Hb. inversion Hb; subst ev st1.
        cbn [flushes is_triple is_halve andb negb]. auto.
    + bind_ok Hb s2 Hab. apply Ok_inj in Hb. inversion Hb; subst ev st1.
      cbn [flushes is_triple is_halve andb negb].
      apply (actualize_block_counters st s2 Hab).
Qed.

Lemma wrap64_succ n : wrap64 (wrap64 n + 1) = wrap64 (n + 1).
Proof. unfold wrap64. now rewrite Zplus_mod_idemp_l. Qed.

Lemma step_count_split tr :
  step_count tr = (halve_count tr + triple_count tr)%nat.
Proof.
  unfold halve_count, triple_count.
  induction tr as [| ev tr IH]; [reflexivity |].
  destruct ev; cbn [step_count filter is_halve is_triple length]; lia.
Qed.

Lemma run_from_counters st0 tr st :
  steps st0 = 0 -> divsteps st0 = 0 -> mulsteps st0 = 0 ->
  run_from st0 tr st ->
  steps st = wrap64 (Z.of_nat (step_count tr)) /\
  divsteps st = wrap64 (Z.of_nat (halve_count tr)) /\
  mulsteps st = wrap64 (Z.of_nat (triple_count tr)).
Proof.
  intros S0 D0 M0 R. induction R as [| tr st st' ev R IH Hb Hit].
  - rewrite S0, D0, M0. repeat split.
  - destruct IH as (IS & ID & IM).
    destruct (iteration_counters st ev st' Hit) as (-> & -> & ->).
    rewrite IS, ID, IM. unfold halve_count, triple_count.
    destruct ev;
      cbn [step_count filter is_halve is_triple flushes andb negb length];
      rewrite ?Nat2Z.inj_succ, <- ?Z.add_1_r, ?wrap64_succ; auto.
Qed.

Lemma started_counters st0 :
  started st0 -> steps st0 = 0 /\ divsteps st0 = 0 /\ mulsteps st0 = 0.
Proof.
  intros [file mem0 st Hm Hlen H | mem0 Hm].
  - destruct (init_from_file_spec file mem0 st Hlen H)
      as (_ & _ & _ & _ & _ & _ & _ & _ & Hs & Hd & Hmu & _).
    auto.
  - repeat split.
Qed.

(** ** The pending carry stays below the pending multiplier *)

Lemma even_branch_pending st st' :
  well_formed st ->
  kvalue st < cvalue st ->
  even_branch st = Ok st' ->
  kvalue st' < cvalue st'.
Proof.
  intros W Hkc H. unfold even_branch in H.
  destruct (bitmask st =? MSB64).
  - bind_ok H w Hw. apply load_ok in Hw. destruct Hw as [_ ->].
    bind_ok H m Hm. apply Ok_inj in H. subst st'. fields.
    pose proof (wf_cvalue st W) as Hc. pose proof (wf_kvalue st W) as Hk.
    pose proof (wf_memory st W (wordoffset st + 1)) as Hw.
    destruct (lo_hi_split (narr st (wordoffset st + 1)) (cvalue st) (kvalue st))
      as (Hv & Hlo & Hhi); auto.
    { unfold u64. lia. }
    set (lo := lo64 _) in *. set (hi := hi64 _) in *.
    unfold u64 in *. nia.
  - apply Ok_inj in H. subst st'. fields. exact Hkc.
Qed.

Lemma lazy_update_pending st st' :
  well_formed st ->
  lazy_guard (cvalue st) (kvalue st) = true ->
  kvalue st < cvalue st ->
  lazy_update st = Ok st' ->
  kvalue st' < cvalue st'.
Proof.
  intros W G Hkc H.
  pose proof (wf_cvalue st W) as Hc. pose proof (wf_kvalue st W) as Hk.
  apply lazy_guard_true in G. destruct G as [Gc Gk].
  rewrite (lazy_update_cvalue st st' H), (lazy_update_kvalue st st' H).
  pose proof (lazy_carry_range (narr st (wordoffset st)) (bitmask st)) as Hcr.
  rewrite (triple_c_exact (cvalue st)) by lia.
  rewrite (triple_k_exact (kvalue st)) by (unfold u64 in Hk; lia).
  lia.
Qed.

Lemma refresh_bitsize_fields st st' :
  refresh_bitsize st = Ok st' ->
  narr st' = narr st /\ wordoffset st' = wordoffset st /\
  bitmask st' = bitmask st /\ lastword st' = lastword st /\
  cvalue st' = cvalue st /\ kvalue st' = kvalue st.
Proof.
  unfold refresh_bitsize. intros H.
  destruct (wordoffset st + 1 =? lastword st).
  - bind_ok H w Hw. bind_ok H lz Hlz. bind_ok H tz Htz.
    apply Ok_inj in H. subst st'. fields. repeat split.
  - apply Ok_inj in H. subst st'. repeat split.
Qed.

Lemma iteration_pending st ev st' :
  loop_invariant st ->
  kvalue st < cvalue st ->
  iteration st = Ok (ev, st') ->
  kvalue st' < cvalue st'.
Proof.
  intros I Hkc H. pose proof I as [W _]. unfold iteration in H.
  bind_ok H r Hb. destruct r as [ev1 st1].
  bind_ok H st2 Hr. apply Ok_inj in H. inversion H; subst ev1 st2; clear H.
  destruct (refresh_bitsize_fields st1 st' Hr) as (_ & _ & _ & _ & -> & ->).
  clear Hr. unfold branch in Hb. bind_ok Hb w Hw.
  destruct (Z.land w (bitmask st) =? 0).
  - bind_ok Hb s He. apply Ok_inj in Hb. inversion Hb; subst ev st1.
    apply (even_branch_pending st s W Hkc He).
  - unfold odd_branch in Hb.
    destruct (lazy_guard (cvalue st) (kvalue st)) eqn:G.
    + bind_ok Hb s1 Hl.
      destruct (lazy_update_spec st s1 W G Hl) as [W1 _].
      destruct (hail_mary s1).
      * bind_ok Hb s2 Hab. apply Ok_inj in Hb. inversion Hb; subst ev st1.
        destruct (actualize_block_spec s1 s2 W1 Hab) as (_ & _ & -> & ->). lia.
      * apply Ok_inj in Hb. inversion Hb; subst ev st1.
        apply (lazy_update_pending st s1 W G Hkc Hl).
    + bind_ok Hb s2 Hab. apply Ok_inj in Hb. inversion Hb; subst ev st1.
      destruct (actualize_block_spec st s2 W Hab) as (_ & _ & -> & ->). lia.
Qed.

Lemma reachable_pending st : reachable st -> kvalue st < cvalue st.
Proof.
  intros (st0 & tr & S & R).
  destruct (started_spec st0 S) as (I0 & C0 & K0).
  induction R as [| tr st st' ev R IH Hb Hit].
  - lia.
  - destruct (run_from_invariant st0 tr st I0 R) as [I _].
    apply (iteration_pending st ev st' I IH Hit).
Qed.

(** X1. In every reachable state the pending carry [kvalue] is smaller
    than the pending multiplier [cvalue]; the test on [kvalue] in the
    guard of line 124 therefore never decides: the guard passes exactly
    when [cvalue <= MAX_CVALUE]. *)
Theorem kvalue_below_cvalue (st : State) :
  reachable st ->
  0 <= kvalue st < cvalue st /\
  lazy_guard (cvalue st) (kvalue st) = (cvalue st <=? MAX_CVALUE).
Proof.
  intros R. pose proof (reachable_pending st R) as Hkc.
  pose proof (reachable_invariant st R) as [W _].
  pose proof (wf_kvalue st W) as [Hk _].
  split; [lia |].
  unfold lazy_guard.
  destruct (Z.leb_spec (cvalue st) MAX_CVALUE) as [Hc | Hc]; [| reflexivity].
  cbn [andb]. apply Z.leb_le. unfold MAX_CVALUE, MAX_KVALUE in *. lia.
Qed.

(** The value 3, digits [11], after its first lazy step. *)
Lemma kvalue_below_cvalue_witness :
  exists st0 st,
    init_from_file (file_of_digits ["1"; "1"]%char) clear_memory = Ok st0 /\
    iteration st0 = Ok (EvTriple, st) /\
    0 <= kvalue st < cvalue st.
Proof.
  eexists. eexists.
  split; [vm_compute; reflexivity |].
  split; [vm_compute; reflexivity |].
  refine (proj1 (kvalue_below_cvalue _ _)).
  eexists. exists [EvTriple]. split.
  - eapply started_file with (file := file_of_digits ["1"; "1"]%char).
    + exact clear_memory_typed.
    + vm_compute. split; [discriminate | reflexivity].
    + vm_compute. reflexivity.
  - eapply run_cons.
    + apply run_nil.
    + vm_compute. discriminate.
    + vm_compute. reflexivity.
Defined.

(** X2. The counters count the steps of the trace: at the head of every
    iteration, [divsteps] is the number of halvings, [mulsteps] the
    number of 3x+1 steps and [steps] their sum, each modulo [2^64]; an
    iteration that only actualizes counts for nothing. *)
Theorem counters_count_steps (st0 st : State) (tr : list event) :
  started st0 ->
  run_from st0 tr st ->
  divsteps st = Z.of_nat (halve_count tr) mod 2 ^ 64 /\
  mulsteps st = Z.of_nat (triple_count tr) mod 2 ^ 64 /\
  steps st = Z.of_nat (halve_count tr + triple_count tr) mod 2 ^ 64 /\
  steps st = (divsteps st + mulsteps st) mod 2 ^ 64.
Proof.
  intros S R.
  destruct (started_counters st0 S) as (S0 & D0 & M0).
  destruct (run_from_counters st0 tr st S0 D0 M0 R) as (HS & HD & HM).
  rewrite HS, HD, HM, step_count_split. unfold wrap64.
  repeat split.
  rewrite <- Zplus_mod, Nat2Z.inj_add. reflexivity.
Qed.

(** The value 3, digits [11]: 3, 10, 5 after a lazy step and a
    halving. *)
Lemma counters_count_steps_witness :
  exists st0 st1 st,
    init_from_file (file_of_digits ["1"; "1"]%char) clear_memory = Ok st0 /\
    iteration st0 = Ok (EvTriple, st1) /\
    iteration st1 = Ok (EvHalve, st) /\
    (divsteps st = 1 /\ mulsteps st = 1 /\ steps st = 2) /\
    divsteps st = Z.of_nat (halve_count [EvHalve; EvTriple]) mod 2 ^ 64 /\
    mulsteps st = Z.of_nat (triple_count [EvHalve; EvTriple]) mod 2 ^ 64 /\
    steps st
    = Z.of_nat (halve_count [EvHalve; EvTriple]
                + triple_count [EvHalve; EvTriple]) mod 2 ^ 64 /\
    steps st = (divsteps st + mulsteps st) mod 2 ^ 64.
Proof.
  do 3 eexists.
  split; [vm_compute; reflexivity |].
  split; [vm_compute; reflexivity |].
  split; [vm_compute; reflexivity |].
  split; [repeat split; vm_compute; reflexivity |].
  eapply counters_count_steps.
  - eapply started_file with (file := file_of_digits ["1"; "1"]%char).
    + exact clear_memory_typed.
    + vm_compute. split; [discriminate | reflexivity].
    + vm_compute. reflexivity.
  - eapply run_cons; [eapply run_cons; [apply run_nil | |] | |].
    + vm_compute. discriminate.
    + vm_compute. reflexivity.
    + vm_compute. discriminate.
    + vm_compute. reflexivity.
Defined.

(** ** Runs computed by [run_events] are runs of the driver *)

Lemma run_events_sound st0 fuel : forall st tr0 tr o,
  run_from st0 tr0 st ->
  run_events fuel st tr0 = (tr, o) ->
  match o with
  | Finished st' => run_from st0 tr st' /\ bitsize st' = 1
  | Running st' => run_from st0 tr st' /\ bitsize st' <> 1
  | Failed e =>
      exists st', run_from st0 tr st' /\ bitsize st' <> 1 /\
                  iteration st' = Err e
  end.
Proof.
  induction fuel as [| fuel IH]; intros st tr0 tr o R H; cbn [run_events] in H.
  - destruct (Z.eqb_spec (bitsize st) 1) as [E | E];
      inversion H; subst; auto.
  - destruct (Z.eqb_spec (bitsize st) 1) as [E | E].
    + inversion H; subst; auto.
    + destruct (iteration st) as [[ev st'] | e] eqn:Hit.
      * apply (IH st' (ev :: tr0) tr o); [| exact H].
        now apply (run_cons st0 tr0 st st' ev).
      * inversion H; subst. exists st. auto.
Qed.

Lemma run_events_outcome fuel : forall st tr0,
  snd (run_events fuel st tr0) = run fuel st.
Proof.
  induction fuel as [| fuel IH]; intros st tr0; cbn [run_events run].
  - destruct (bitsize st =? 1); reflexivity.
  - destruct (bitsize st =? 1); [reflexivity |].
    destruct (iteration st) as [[ev st'] | e]; [apply IH | reflexivity].
Qed.

Lemma run_from_first st0 st1 ev tr st :
  bitsize st0 <> 1 ->
  iteration st0 = Ok (ev, st1) ->
  run_from st1 tr st ->
  run_from st0 (tr ++ [ev]) st.
Proof.
  intros Hb Hit R. induction R as [| tr st st' ev' R IH Hb' Hit'].
  - cbn. apply (run_cons st0 [] st0 st1 ev); auto. apply run_nil.
  - cbn. apply (run_cons st0 (tr ++ [ev]) st st' ev'); auto.
Qed.

(** A finished run of the loop is a run of the driver. *)
Lemma run_finished fuel : forall st0 st,
  run fuel st0 = Finished st ->
  exists tr, run_from st0 tr st /\ bitsize st = 1 /\ (length tr <= fuel)%nat.
Proof.
  induction fuel as [| fuel IH]; intros st0 st H; cbn [run] in H.
  - destruct (Z.eqb_spec (bitsize st0) 1) as [E | E]; [| discriminate].
    inversion H; subst. exists []. split; [apply run_nil | split; [exact E | cbn; lia]].
  - destruct (Z.eqb_spec (bitsize st0) 1) as [E | E].
    + inversion H; subst. exists [].
      split; [apply run_nil | split; [exact E | cbn; lia]].
    + destruct (iteration st0) as [[ev st1] | e] eqn:Hit; [| discriminate].
      destruct (IH st1 st H) as (tr & R & Hb & Hl).
      exists (tr ++ [ev]).
      split; [now apply (run_from_first st0 st1) |].
      split; [exact Hb |]. rewrite length_app. cbn. lia.
Qed.

(** X3. Well-formedness is an invariant of the main loop: at the head
    of every iteration the window is not empty and lies in the buffer,
    the mask is a single bit, the cursor word has no bit set below the
    cursor, and every word and both components of the pending
    transform fit in 64 bits, the multiplier being at least 1. *)
Theorem reachable_well_formed (st : State) :
  reachable st ->
  0 <= wordoffset st < lastword st /\ lastword st <= CAPACITY /\
  (exists b, 0 <= b <= 63 /\ bitmask st = 2 ^ b) /\
  narr st (wordoffset st) mod bitmask st = 0 /\
  (forall i, 0 <= narr st i < 2 ^ 64) /\
  1 <= cvalue st < 2 ^ 64 /\ 0 <= kvalue st < 2 ^ 64.
Proof.
  intros R. destruct (reachable_invariant st R) as [W _].
  destruct W as [Wm Wc Wl Wb Wlow Wcv Wk].
  repeat split; try apply Wc; try apply Wcv; try apply Wk; auto; apply Wm.
Qed.

(** The value 2, digits [10], after its halving. *)
Lemma reachable_well_formed_witness :
  exists st0 st,
    init_from_file (file_of_digits ["1"; "0"]%char) clear_memory = Ok st0 /\
    iteration st0 = Ok (EvHalve, st) /\
    bitmask st = 2 /\
    narr st (wordoffset st) mod bitmask st = 0.
Proof.
  do 2 eexists.
  split; [vm_compute; reflexivity |].
  split; [vm_compute; reflexivity |].
  split; [vm_compute; reflexivity |].
  refine (proj1 (proj2 (proj2 (proj2 (reachable_well_formed _ _))))).
  eexists. exists [EvHalve]. split.
  - eapply started_file with (file := file_of_digits ["1"; "0"]%char).
    + exact clear_memory_typed.
    + vm_compute. split; [discriminate | reflexivity].
    + vm_compute. reflexivity.
  - eapply run_cons.
    + apply run_nil.
    + vm_compute. discriminate.
    + vm_compute. reflexivity.
Defined.

(** X4. The test of line 95 reads the parity of the number: in every
    reachable state the bit under the cursor is clear exactly when the
    tracked value is even, whatever transform is pending on the words
    above. *)
Theorem cursor_bit_is_parity (st : State) :
  reachable st ->
  (Z.land (narr st (wordoffset st)) (bitmask st) =? 0) = Z.even (tracked st).
Proof.
  intros R. destruct (reachable_invariant st R) as [W _].
  apply (cursor_test_parity st W).
Qed.

(** The value 3, digits [11]. *)
Lemma cursor_bit_is_parity_witness :
  exists st0,
    init_from_file (file_of_digits ["1"; "1"]%char) clear_memory = Ok st0 /\
    tracked st0 = 3 /\
    (Z.land (narr st0 (wordoffset st0)) (bitmask st0) =? 0) = Z.even (tracked st0).
Proof.
  eexists.
  split; [vm_compute; reflexivity |].
  split; [vm_compute; reflexivity |].
  apply cursor_bit_is_parity.
  eexists. exists []. split; [| apply run_nil].
  eapply started_file with (file := file_of_digits ["1"; "1"]%char).
  - exact clear_memory_typed.
  - vm_compute. split; [discriminate | reflexivity].
  - vm_compute. reflexivity.
Defined.

(** X5. The lazy path is a 3x+1 step on the whole number: in every
    reachable state in which the guard passes, the lazy update runs
    without fault, touches the cursor word only, and takes the tracked
    value [v] to [3 v + 1]. *)
Theorem lazy_update_triples (st : State) :
  reachable st ->
  lazy_guard (cvalue st) (kvalue st) = true ->
  exists st',
    lazy_update st = Ok st' /\
    tracked st' = 3 * tracked st + 1 /\
    (forall i, i <> wordoffset st -> narr st' i = narr st i) /\
    wordoffset st' = wordoffset st /\ lastword st' = lastword st /\
    bitmask st' = bitmask st.
Proof.
  intros R G. destruct (reachable_invariant st R) as [W _].
  destruct (lazy_update_defined st W) as [st' H].
  exists st'. split; [exact H |].
  split; [apply (lazy_update_spec st st' W G H) |].
  unfold lazy_update in H.
  bind_ok H w Hw. bind_ok H m Hm. apply store_ok in Hm. destruct Hm as [_ ->].
  apply Ok_inj in H. subst st'. fields.
  repeat split. intros i Hi. now apply upd_other.
Qed.

(** The value 3, digits [11]: the lazy update leaves 10. *)
Lemma lazy_update_triples_witness :
  exists st0,
    init_from_file (file_of_digits ["1"; "1"]%char) clear_memory = Ok st0 /\
    tracked st0 = 3 /\
    exists st',
      lazy_update st0 = Ok st' /\
      tracked st' = 3 * tracked st0 + 1 /\
      (forall i, i <> wordoffset st0 -> narr st' i = narr st0 i) /\
      wordoffset st' = wordoffset st0 /\ lastword st' = lastword st0 /\
      bitmask st' = bitmask st0.
Proof.
  eexists.
  split; [vm_compute; reflexivity |].
  split; [vm_compute; reflexivity |].
  apply lazy_update_triples.
  - eexists. exists []. split; [| apply run_nil].
    eapply started_file with (file := file_of_digits ["1"; "1"]%char).
    + exact clear_memory_typed.
    + vm_compute. split; [discriminate | reflexivity].
    + vm_compute. reflexivity.
  - vm_compute. reflexivity.
Defined.

(** X6. At the head of every iteration the tracked value is the start
    value after as many steps of the 3x+1 process as the trace holds:
    halvings were taken on even values and 3x+1 steps on odd ones, and
    no step was skipped or repeated by the deferred multiplication. *)
Theorem tracked_follows_collatz (st0 st : State) (tr : list event) :
  started st0 ->
  run_from st0 tr st ->
  tracked st = Nat.iter (step_count tr) collatz_step (represented st0).
Proof.
  intros S R. destruct (started_spec st0 S) as (I0 & _).
  rewrite (started_represented st0 S).
  destruct (run_from_invariant st0 tr st I0 R) as [_ T].
  rewrite T. apply (run_from_collatz st0 tr st I0 R).
Qed.

(** The value 3, digits [11]: 3, 10, 5. *)
Lemma tracked_follows_collatz_witness :
  exists st0 st1 st,
    init_from_file (file_of_digits ["1"; "1"]%char) clear_memory = Ok st0 /\
    iteration st0 = Ok (EvTriple, st1) /\
    iteration st1 = Ok (EvHalve, st) /\
    tracked st = 5 /\
    tracked st
    = Nat.iter (step_count [EvHalve; EvTriple]) collatz_step (represented st0).
Proof.
  do 3 eexists.
  split; [vm_compute; reflexivity |].
  split; [vm_compute; reflexivity |].
  split; [vm_compute; reflexivity |].
  split; [vm_compute; reflexivity |].
  eapply tracked_follows_collatz.
  - eapply started_file with (file := file_of_digits ["1"; "1"]%char).
    + exact clear_memory_typed.
    + vm_compute. split; [discriminate | reflexivity].
    + vm_compute. reflexivity.
  - eapply run_cons; [eapply run_cons; [apply run_nil | |] | |].
    + vm_compute. discriminate.
    + vm_compute. reflexivity.
    + vm_compute. discriminate.
    + vm_compute. reflexivity.
Defined.

(** ** The loader stores the number the digits write *)

Lemma fold_digits_bits ds : forall v j,
  0 <= j ->
  Z.testbit (fold_left (fun v c => 2 * v + digit c) ds v) j
  = if j <? Z.of_nat (length ds)
    then is_one (nth (length ds - 1 - Z.to_nat j) ds Ascii.zero)
    else Z.testbit v (j - Z.of_nat (length ds)).
Proof.
  induction ds as [| c ds IH]; intros v j Hj; cbn [fold_left length].
  - destruct (Z.ltb_spec j (Z.of_nat 0)); [lia |]. f_equal. lia.
  - rewrite IH by assumption. rewrite digit_b2z.
    destruct (Z.ltb_spec j (Z.of_nat (length ds))) as [Hlt | Hge],
      (Z.ltb_spec j (Z.of_nat (S (length ds)))) as [Hlt' | Hge']; try lia.
    + replace (S (length ds) - 1 - Z.to_nat j)%nat
        with (S (length ds - 1 - Z.to_nat j)) by lia.
      reflexivity.
    + assert (E : j = Z.of_nat (length ds)) by lia.
      rewrite E, Z.sub_diag, Z.testbit_0_r, Nat2Z.id.
      replace (S (length ds) - 1 - length ds)%nat with O by lia.
      reflexivity.
    + replace (j - Z.of_nat (length ds))
        with (Z.succ (j - Z.of_nat (S (length ds)))) by lia.
      rewrite Z.testbit_succ_r by lia. reflexivity.
Qed.

Lemma binary_value_bits ds j :
  0 <= j ->
  Z.testbit (binary_value ds) j
  = if j <? Z.of_nat (length ds)
    then is_one (char_at ds (Z.of_nat (length ds) - 1 - j))
    else false.
Proof.
  intros Hj. unfold binary_value. rewrite fold_digits_bits by assumption.
  destruct (Z.ltb_spec j (Z.of_nat (length ds))) as [Hlt | Hge].
  - unfold char_at. do 2 f_equal. lia.
  - apply Z.bits_0.
Qed.

Lemma word_above_bits w v j :
  u64 w -> 0 <= j ->
  Z.testbit (w + 2 ^ 64 * v) j
  = if j <? 64 then Z.testbit w j else Z.testbit v (j - 64).
Proof.
  intros [H0 H1] Hj.
  replace (w + 2 ^ 64 * v) with (w + v * 2 ^ 64) by ring.
  destruct (Z.ltb_spec j 64) as [Hlt | Hge].
  - rewrite <- (Z.mod_pow2_bits_low (w + v * 2 ^ 64) 64 j) by lia.
    rewrite Z.mod_add by lia.
    now rewrite Z.mod_small by lia.
  - replace j with ((j - 64) + 64) at 1 by lia.
    rewrite <- Z.div_pow2_bits by lia.
    rewrite Z.div_add by lia.
    now rewrite Z.div_small, Z.add_0_l by lia.
Qed.

Lemma read_range_bits m n : forall lo j,
  typed_memory m -> 0 <= j ->
  Z.testbit (words_value (read_range m lo n)) j
  = if j <? 64 * Z.of_nat n
    then Z.testbit (m (lo + j / 64)) (j mod 64)
    else false.
Proof.
  induction n as [| n IH]; intros lo j Hm Hj; cbn [read_range words_value].
  - destruct (Z.ltb_spec j (64 * Z.of_nat 0)); [lia | apply Z.bits_0].
  - rewrite word_above_bits by auto.
    destruct (Z.ltb_spec j 64) as [Hlt | Hge].
    + destruct (Z.ltb_spec j (64 * Z.of_nat (S n))); [| lia].
      rewrite Z.div_small, Z.mod_small, Z.add_0_r by lia. reflexivity.
    + rewrite IH by (auto; lia).
      destruct (Z.ltb_spec (j - 64) (64 * Z.of_nat n)),
        (Z.ltb_spec j (64 * Z.of_nat (S n))); try lia; try reflexivity.
      f_equal; [f_equal |]; dlia.
Qed.

Lemma file_digits_length (file : list ascii) :
  1 <= Z.of_nat (length file) ->
  Z.of_nat (length (removelast file)) = Z.of_nat (length file) - 1.
Proof.
  intros H. destruct file as [| c file]; [cbn in H; lia |].
  rewrite removelast_firstn_len, length_firstn. lia.
Qed.

Lemma file_digits_firstn (file : list ascii) :
  firstn (Z.to_nat (Z.of_nat (length file) - 1)) file = removelast file.
Proof.
  rewrite removelast_firstn_len. f_equal. lia.
Qed.

Lemma loaded_value file mem0 st :
  typed_memory mem0 ->
  2 <= Z.of_nat (length file) < 2 ^ 64 ->
  init_from_file file mem0 = Ok st ->
  words_value (window st) = binary_value (removelast file).
Proof.
  intros Hm Hlen H.
  destruct (init_from_file_spec file mem0 st Hlen H)
    as (W & Hwo & Hbm & Hlw & Hbs & Hcap & _ & _ & _ & _ & _ & Hfull & Htop).
  specialize (W Hm).
  rewrite file_digits_firstn in Hfull, Htop.
  pose proof (file_digits_length file ltac:(lia)) as Hdl.
  set (flen := Z.of_nat (length file) - 1) in *.
  set (num := removelast file) in *.
  apply Z.bits_inj'. intros j Hj.
  unfold window. rewrite read_range_bits by (auto; apply (wf_memory st W)).
  rewrite binary_value_bits by assumption.
  rewrite Hwo, Hlw, Hdl, Z.sub_0_r, Z.add_0_l.
  assert (Hq : 0 <= flen / 64) by dlia.
  rewrite Z2Nat.id by dlia.
  destruct (Z.ltb_spec j (64 * ((flen + 63) / 64))) as [Hw | Hw].
  - destruct (Z_lt_ge_dec (j / 64) (flen / 64)) as [Hfullw | Hlast].
    + rewrite Hfull by dlia. rewrite asbyte_bits by dlia.
      destruct (Z.ltb_spec (j mod 64) 64); [| dlia].
      destruct (Z.ltb_spec j flen); [| dlia].
      do 2 f_equal. dlia.
    + assert (Ej : j / 64 = flen / 64) by dlia.
      assert (Hx : flen mod 64 <> 0) by dlia.
      rewrite Ej, (Htop Hx), Z.shiftr_spec, asbyte_bits by dlia.
      destruct (Z.ltb_spec (j mod 64 + (64 - flen mod 64)) 64) as [Hin | Hout],
        (Z.ltb_spec j flen) as [Hjf | Hjf]; try dlia; try reflexivity.
      do 2 f_equal. dlia.
  - destruct (Z.ltb_spec j flen); [dlia | reflexivity].
Qed.

Lemma fold_digits_shift ds : forall v,
  fold_left (fun v c => 2 * v + digit c) ds v
  = v * 2 ^ Z.of_nat (length ds) + binary_value ds /\
  0 <= binary_value ds < 2 ^ Z.of_nat (length ds).
Proof.
  unfold binary_value.
  induction ds as [| c ds IH]; intros v; cbn [fold_left length].
  - cbn. lia.
  - destruct (IH (2 * v + digit c)) as [E _].
    destruct (IH (2 * 0 + digit c)) as [E0 B0].
    rewrite E, E0. rewrite Nat2Z.inj_succ, Z.pow_succ_r by lia.
    pose proof (pow2_pos (Z.of_nat (length ds)) ltac:(lia)).
    assert (0 <= digit c <= 1) by (unfold digit; destruct (Ascii.eqb c "0"); lia).
    split; nia.
Qed.

Lemma binary_value_leading_one c ds :
  is_one c = true ->
  bit_length (binary_value (c :: ds)) = Z.of_nat (length (c :: ds)).
Proof.
  intros Hc. unfold binary_value. cbn [fold_left length].
  destruct (fold_digits_shift ds (2 * 0 + digit c)) as [E _].
  destruct (fold_digits_shift ds 0) as [_ B].
  rewrite E. rewrite digit_b2z, Hc. cbn [Z.b2z].
  pose proof (pow2_pos (Z.of_nat (length ds)) ltac:(lia)) as Hp.
  unfold bit_length.
  destruct (Z.eqb_spec ((2 * 0 + 1) * 2 ^ Z.of_nat (length ds) + binary_value ds) 0);
    [lia |].
  rewrite (Z.log2_unique _ (Z.of_nat (length ds))); [lia | lia |].
  rewrite Z.pow_succ_r by lia. lia.
Qed.

(** X7. The loader stores the number the file writes: for a file of at
    least one digit that passes the capacity check, the buffer
    represents the integer whose binary digits, most significant
    first, are the characters before the final newline; the window
    starts at the first word of the buffer and spans one word per 64
    digits, rounded up; [bitsize] is the number of digits; no word past
    the window is written; and when the first digit is not [0],
    [bitsize] is the exact bit length of the number. *)
Theorem loader_stores_binary_value (file : list ascii) (mem0 : memory) (st : State) :
  typed_memory mem0 ->
  2 <= Z.of_nat (length file) < 2 ^ 64 ->
  init_from_file file mem0 = Ok st ->
  represented st = binary_value (removelast file) /\
  tracked st = binary_value (removelast file) /\
  wordoffset st = 0 /\
  lastword st = (Z.of_nat (length (removelast file)) + 63) / 64 /\
  bitsize st = Z.of_nat (length (removelast file)) /\
  (forall j, lastword st <= j -> narr st j = mem0 j) /\
  (is_one (hd Ascii.zero file) = true ->
   bitsize st = bit_length (represented st)).
Proof.
  intros Hm Hlen H.
  pose proof (loaded_value file mem0 st Hm Hlen H) as Hv.
  assert (S : started st) by (eapply started_file; eauto).
  pose proof (started_represented st S) as Hrt.
  destruct (init_from_file_spec file mem0 st Hlen H)
    as (_ & Hwo & Hbm & Hlw & Hbs & _).
  pose proof (file_digits_length file ltac:(lia)) as Hdl.
  assert (Hr : represented st = binary_value (removelast file)).
  { unfold represented. rewrite Hv, Hbm. apply Z.div_1_r. }
  split; [exact Hr |]. split; [congruence |]. split; [exact Hwo |].
  split; [rewrite Hdl; exact Hlw |]. split; [rewrite Hdl; exact Hbs |].
  split.
  - (* the frame *)
    clear Hv Hr Hrt S. intros j Hj.
    unfold init_from_file, usf_ftos in H. cbv beta iota in H.
    destruct file as [| a file']; [discriminate |].
    remember (a :: file') as file eqn:Efile. clear Efile a file'.
    rewrite (wrap64_small (Z.of_nat (length file))) in H by lia.
    rewrite (wrap64_small (Z.of_nat (length file) - 1)) in H by lia.
    set (flen := Z.of_nat (length file) - 1) in *.
    assert (Hx : 0 <= flen mod 64 < 64) by (apply Z.mod_pos_bound; lia).
    rewrite (wrap32_small (flen mod 64)) in H by lia.
    destruct (Z.gtb_spec (flen / 64) NWORDS) as [Hbig | Hcap]; [discriminate |].
    pose proof capacity_value as HC. unfold NWORDS in Hcap.
    destruct (load_blocks_spec (Z.to_nat flen)
                (firstn (Z.to_nat flen) file) (flen mod 64)
                (Z.to_nat (flen / 64)) flen 0 mem0)
      as (m & E & _ & Hout & _); try dlia.
    rewrite E in H. cbn [bind] in H. unfold load_last in H.
    rewrite Z2Nat.id in Hout by dlia.
    destruct (Z.eqb_spec (flen mod 64) 0) as [E0 | E0]; cbn [bind] in H.
    + apply Ok_inj in H. subst st. fields. apply Hout. dlia.
    + rewrite store_in in H by dlia. cbn [bind] in H.
      rewrite wrap32_small in H by dlia.
      apply Ok_inj in H. subst st. fields.
      rewrite upd_other by dlia. apply Hout. dlia.
  - intros Hone. rewrite Hbs, Hr, <- Hdl.
    destruct file as [| c file']; [cbn in Hlen; lia |].
    destruct file' as [| c' file'']; [cbn in Hlen; lia |].
    change (removelast (c :: c' :: file''))
      with (c :: removelast (c' :: file'')).
    symmetry. apply binary_value_leading_one. exact Hone.
Qed.

(** The digits [1x0] followed by a newline: the [x] counts as a 1, and
    the number loaded is 6. *)
Lemma loader_stores_binary_value_witness :
  exists st,
    init_from_file ["1"; "x"; "0"; "010"]%char clear_memory = Ok st /\
    binary_value (removelast ["1"; "x"; "0"; "010"]%char) = 6 /\
    represented st = binary_value (removelast ["1"; "x"; "0"; "010"]%char).
Proof.
  eexists.
  split; [vm_compute; reflexivity |].
  split; [reflexivity |].
  refine (proj1 (loader_stores_binary_value _ clear_memory _ _ _ _)).
  - exact clear_memory_typed.
  - vm_compute. split; [discriminate | reflexivity].
  - vm_compute. reflexivity.
Defined.

(** ** What [bitsize] measures *)

Lemma bit_length_shift v b :
  0 <= b -> 2 ^ b <= v -> bit_length (v / 2 ^ b) = bit_length v - b.
Proof.
  intros Hb Hv. pose proof (pow2_pos b Hb) as Hp.
  assert (Hq : 1 <= v / 2 ^ b) by (apply Z.div_le_lower_bound; lia).
  unfold bit_length.
  destruct (Z.eqb_spec (v / 2 ^ b) 0), (Z.eqb_spec v 0); try lia.
  rewrite <- Z.shiftr_div_pow2, Z.log2_shiftr by lia.
  assert (b <= Z.log2 v) by (apply Z.log2_le_pow2; lia).
  lia.
Qed.

Lemma words_value_log2 init top :
  Forall u64 init -> 0 < top < 2 ^ 64 ->
  Z.log2 (words_value (init ++ [top]))
  = 64 * Z.of_nat (length init) + Z.log2 top.
Proof.
  intros Hi Ht. rewrite words_value_app. cbn [words_value].
  pose proof (words_value_nonneg init Hi) as H0.
  pose proof (words_value_bound init Hi) as H1.
  pose proof (Z.log2_spec top ltac:(lia)) as [L0 L1].
  pose proof (Z.log2_nonneg top) as Ln.
  set (n := 64 * Z.of_nat (length init)) in *.
  assert (Hn : 0 <= n) by (unfold n; lia).
  pose proof (pow2_pos n Hn) as Hp.
  apply Z.log2_unique; [lia |].
  rewrite Z.pow_succ_r, !Z.pow_add_r by lia.
  rewrite Z.pow_succ_r in L1 by lia.
  set (X := words_value init) in *. set (P := 2 ^ n) in *.
  set (Q := 2 ^ Z.log2 top) in *.
  split; nia.
Qed.

Lemma window_snoc st :
  wordoffset st < lastword st ->
  window st
  = read_range (narr st) (wordoffset st)
               (Z.to_nat (lastword st - wordoffset st - 1))
    ++ [narr st (lastword st - 1)].
Proof.
  intros H. unfold window.
  replace (Z.to_nat (lastword st - wordoffset st))
    with (S (Z.to_nat (lastword st - wordoffset st - 1))) by lia.
  rewrite read_range_snoc. do 3 f_equal. lia.
Qed.

(** The bit length of the buffer value when the top word is not zero. *)
Lemma represented_bit_length st :
  well_formed st ->
  narr st (lastword st - 1) <> 0 ->
  bit_length (represented st)
  = 64 * (lastword st - wordoffset st - 1)
    + Z.log2 (narr st (lastword st - 1)) + 1 - Z.log2 (bitmask st).
Proof.
  intros W Htop.
  pose proof (wf_cursor st W) as Hc.
  destruct (wf_mask st W) as (b & Hb & Hbm).
  pose proof (wf_memory st W (lastword st - 1)) as [T0 T1].
  pose proof (wf_memory st W (wordoffset st)) as [C0 C1].
  pose proof (pow2_pos b ltac:(lia)) as Hp.
  unfold represented. rewrite Hbm, Z.log2_pow2 by lia.
  pose proof (window_snoc st ltac:(lia)) as Ew.
  set (init := read_range (narr st) (wordoffset st)
                 (Z.to_nat (lastword st - wordoffset st - 1))) in *.
  assert (Hi : Forall u64 init) by apply read_range_typed, (wf_memory st W).
  assert (Hl : Z.of_nat (length init) = lastword st - wordoffset st - 1).
  { unfold init. rewrite read_range_length. lia. }
  pose proof (words_value_log2 init (narr st (lastword st - 1)) Hi ltac:(lia))
    as Hlog.
  rewrite <- Ew, Hl in Hlog.
  assert (Hge : 2 ^ b <= words_value (window st)).
  { (* the cursor word is a multiple of the mask; so is the window *)
    destruct (Z.eq_dec (lastword st - wordoffset st) 1) as [E1 | E1].
    - rewrite window_cons by lia. unfold high_words.
      replace (Z.to_nat (lastword st - (wordoffset st + 1))) with O by lia.
      cbn [read_range words_value].
      replace (lastword st - 1) with (wordoffset st) in Htop by lia.
      pose proof (wf_low st W) as Hlow. rewrite Hbm in Hlow.
      pose proof (Z.div_mod (narr st (wordoffset st)) (2 ^ b) ltac:(lia)) as D.
      rewrite Hlow in D.
      assert (0 < narr st (wordoffset st) / 2 ^ b) by nia.
      nia.
    - apply Z.log2_le_pow2.
      + rewrite Ew, words_value_app. cbn [words_value].
        pose proof (words_value_nonneg init Hi).
        pose proof (pow2_pos (64 * Z.of_nat (length init)) ltac:(lia)).
        nia.
      + rewrite Hlog. pose proof (Z.log2_nonneg (narr st (lastword st - 1))).
        lia. }
  rewrite bit_length_shift by lia.
  unfold bit_length.
  destruct (Z.eqb_spec (words_value (window st)) 0); lia.
Qed.

Lemma clzll_value w lz : clzll w = Ok lz -> w <> 0 /\ lz = 63 - Z.log2 w.
Proof.
  unfold clzll. destruct (Z.eqb_spec w 0); intros H; inversion H. auto.
Qed.

Lemma log2_word w : 0 < w < 2 ^ 64 -> 0 <= Z.log2 w <= 63.
Proof.
  intros H. split; [apply Z.log2_nonneg |].
  assert (Z.log2 w < 64) by (apply Z.log2_lt_pow2; lia). lia.
Qed.

(** After the actualization pass, [bitsize] counts from the start of
    the buffer. *)
Lemma actualize_bitsize st sa :
  well_formed st ->
  actualize st = Ok sa ->
  bitsize sa = bit_length (tracked sa) + 64 * wordoffset sa.
Proof.
  intros W H.
  destruct (actualize_spec st sa W H)
    as (W' & _ & Hc & Hk & Htop & lz & tz & Hlz & Htz & Hbs).
  pose proof (wf_cursor sa W') as Hcur. pose proof (wf_last sa W') as Hlast.
  destruct (wf_mask sa W') as (b & Hb & Hbm).
  rewrite <- (represented_tracked sa) by (auto; lia).
  rewrite (represented_bit_length sa W' Htop).
  apply clzll_value in Hlz. destruct Hlz as [_ ->].
  rewrite Hbm, ctzll_pow2 in Htz by lia. apply Ok_inj in Htz. subst tz.
  rewrite Hbm, Z.log2_pow2 by lia.
  pose proof (wf_memory sa W' (lastword sa - 1)) as [T0 T1].
  pose proof (log2_word (narr sa (lastword sa - 1)) ltac:(lia)) as HL.
  rewrite Hbs. pose proof capacity_value as HC.
  (* the value is positive: a one-word window holds a multiple of the mask *)
  assert (Hpos : b <= Z.log2 (narr sa (lastword sa - 1))
                 \/ wordoffset sa + 1 < lastword sa).
  { destruct (Z.eq_dec (wordoffset sa + 1) (lastword sa)) as [E | E]; [left | lia].
    replace (lastword sa - 1) with (wordoffset sa) in * by lia.
    pose proof (wf_low sa W') as Hlow. rewrite Hbm in Hlow.
    apply Z.log2_le_pow2; [lia |].
    pose proof (pow2_pos b ltac:(lia)).
    pose proof (Z.div_mod (narr sa (wordoffset sa)) (2 ^ b) ltac:(lia)) as D.
    rewrite Hlow in D.
    assert (0 < narr sa (wordoffset sa) / 2 ^ b) by nia. nia. }
  rewrite wrap64_small by lia. lia.
Qed.

(** X8. What [bitsize] holds after an actualization: the bit length of
    the tracked value, counted from the cursor's bit to the most
    significant bit, plus 64 for every word between the start of the
    buffer and the cursor word.  It is the exact bit length when the
    cursor is in the first word of the buffer, as it is until the
    first word is used up and again after every compaction. *)
Theorem bitsize_after_actualization (st0 sa : State) (tr : list event) :
  started st0 ->
  actualized_from st0 tr sa ->
  bitsize sa = bit_length (tracked sa) + 64 * wordoffset sa /\
  (wordoffset sa = 0 -> bitsize sa = bit_length (tracked sa)).
Proof.
  intros S A. destruct (started_spec st0 S) as (I0 & _).
  assert (H : bitsize sa = bit_length (tracked sa) + 64 * wordoffset sa).
  { destruct A as [tr st sa R Hb Hodd G Ha | tr st s1 sa R Hb Hodd G Hl Hh Ha].
    - destruct (run_from_invariant st0 tr st I0 R) as [[W _] _].
      apply (actualize_bitsize st sa W Ha).
    - destruct (run_from_invariant st0 tr st I0 R) as [[W _] _].
      destruct (lazy_update_spec st s1 W G Hl) as [W1 _].
      apply (actualize_bitsize s1 sa W1 Ha). }
  split; [exact H |]. intros E. rewrite H, E. lia.
Qed.

(** The value [2^64 - 1], 64 digits 1: the first lazy update carries
    out, and the actualization finds the 66 bits of [3 (2^64 - 1) + 1]
    with the cursor still in the first word. *)
Lemma bitsize_after_actualization_witness :
  exists st0 sa,
    init_from_file (file_of_digits (repeat "1"%char 64)) clear_memory = Ok st0 /\
    (bitsize sa = bit_length (tracked sa) + 64 * wordoffset sa /\
     (wordoffset sa = 0 -> bitsize sa = bit_length (tracked sa))) /\
    bitsize sa = 66 /\ wordoffset sa = 0.
Proof.
  eexists. eexists.
  split; [vm_compute; reflexivity |].
  split.
  - eapply (bitsize_after_actualization _ _ [EvTriple]).
    + eapply started_file with (file := file_of_digits (repeat "1"%char 64)).
      * exact clear_memory_typed.
      * vm_compute. split; [discriminate | reflexivity].
      * vm_compute. reflexivity.
    + eapply actualized_jump.
      * apply run_nil.
      * vm_compute. discriminate.
      * vm_compute. discriminate.
      * vm_compute. reflexivity.
      * vm_compute. reflexivity.
      * vm_compute. reflexivity.
      * vm_compute. reflexivity.
  - split; vm_compute; reflexivity.
Defined.

(** ** The parts of an iteration *)

Lemma even_branch_frame st st' :
  even_branch st = Ok st' ->
  lastword st' = lastword st /\ bitsize st' = bitsize st /\
  (forall i, i <> wordoffset st' -> narr st' i = narr st i).
Proof.
  unfold even_branch. intros H.
  destruct (bitmask st =? MSB64).
  - bind_ok H w Hw. bind_ok H m Hm. apply store_ok in Hm. destruct Hm as [_ ->].
    apply Ok_inj in H. subst st'. fields.
    repeat split. intros i Hi. now apply upd_other.
  - apply Ok_inj in H. subst st'. fields. repeat split.
Qed.

Lemma lazy_update_frame st st' :
  lazy_update st = Ok st' ->
  lastword st' = lastword st /\ bitsize st' = bitsize st /\
  wordoffset st' = wordoffset st /\
  (forall i, i <> wordoffset st' -> narr st' i = narr st i).
Proof.
  unfold lazy_update. intros H.
  bind_ok H w Hw. bind_ok H m Hm. apply store_ok in Hm. destruct Hm as [_ ->].
  apply Ok_inj in H. subst st'. fields.
  repeat split. intros i Hi. now apply upd_other.
Qed.

(** What a branch leaves: either the block under [actualize:] has run
    on a well-formed state, or the top word, [lastword] and [bitsize]
    are as before. *)
Lemma branch_cases st ev st1 :
  loop_invariant st ->
  branch st = Ok (ev, st1) ->
  (flushes ev = true /\
   exists s sa, well_formed s /\ actualize s = Ok sa /\
                st1 = telemetry (compaction sa)) \/
  (flushes ev = false /\
   lastword st1 = lastword st /\ bitsize st1 = bitsize st /\
   (forall i, i <> wordoffset st1 -> narr st1 i = narr st i)).
Proof.
  intros I H. pose proof I as [W _]. unfold branch in H.
  bind_ok H w Hw.
  destruct (Z.land w (bitmask st) =? 0).
  - bind_ok H s He. apply Ok_inj in H. inversion H; subst ev st1.
    right. split; [reflexivity |]. apply (even_branch_frame st s He).
  - unfold odd_branch in H.
    destruct (lazy_guard (cvalue st) (kvalue st)) eqn:G.
    + bind_ok H s1 Hl.
      destruct (lazy_update_spec st s1 W G Hl) as [W1 _].
      destruct (hail_mary s1).
      * bind_ok H s2 Hab. apply Ok_inj in H. inversion H; subst ev st1.
        unfold actualize_block in Hab. bind_ok Hab sa Ha.
        apply Ok_inj in Hab. subst s2.
        left. split; [reflexivity |]. exists s1, sa. auto.
      * apply Ok_inj in H. inversion H; subst ev st1.
        right. split; [reflexivity |].
        destruct (lazy_update_frame st s1 Hl) as (F1 & F2 & _ & F4). auto.
    + bind_ok H s2 Hab. apply Ok_inj in H. inversion H; subst ev st1.
      unfold actualize_block in Hab. bind_ok Hab sa Ha.
      apply Ok_inj in Hab. subst s2.
      left. split; [reflexivity |]. exists st, sa. auto.
Qed.

Lemma iteration_split st ev st' :
  iteration st = Ok (ev, st') ->
  exists st1, branch st = Ok (ev, st1) /\ refresh_bitsize st1 = Ok st'.
Proof.
  intros H. unfold iteration in H.
  bind_ok H r Hb. destruct r as [ev1 st1].
  bind_ok H st2 Hr. apply Ok_inj in H. inversion H; subst ev1 st2.
  exists st1. auto.
Qed.

Lemma compaction_top st :
  wordoffset st < lastword st ->
  narr (compaction st) (lastword (compaction st) - 1) = narr st (lastword st - 1).
Proof.
  intros H. unfold compaction.
  destruct (lastword st >=? 0 + SCRATCHPAD / 8 - 2); [| reflexivity].
  fields. unfold memmove_front.
  destruct (Z.leb_spec 0 (lastword st - (wordoffset st - 0) - 1)),
    (Z.ltb_spec (lastword st - (wordoffset st - 0) - 1)
                (lastword st - wordoffset st)); cbn [andb]; try lia.
  f_equal. lia.
Qed.

(** The state the block under [actualize:] leaves. *)
Lemma flushed_state sa :
  well_formed sa ->
  let st1 := telemetry (compaction sa) in
  narr st1 (lastword st1 - 1) = narr sa (lastword sa - 1) /\
  bitsize st1 = bitsize sa /\
  lastword st1 - wordoffset st1 = lastword sa - wordoffset sa.
Proof.
  intros W st1. pose proof (wf_cursor sa W) as Hc.
  destruct (telemetry_fields (compaction sa))
    as (Tn & Two & Tlw & _ & _ & _ & Tbs & _).
  destruct (compaction_fields sa) as (_ & _ & _ & Cbs & _ & _ & _ & _ & Clen).
  unfold st1. rewrite Tn, Tlw, Two, Tbs.
  rewrite compaction_top by lia. auto.
Qed.

(** ** The top word stays non-zero *)

Lemma refresh_single st st' :
  well_formed st ->
  refresh_bitsize st = Ok st' ->
  wordoffset st' + 1 = lastword st' ->
  narr st' (wordoffset st') <> 0 /\
  bitsize st' = bit_length (narr st' (wordoffset st') / bitmask st').
Proof.
  intros W H Hs. unfold refresh_bitsize in H.
  destruct (Z.eqb_spec (wordoffset st + 1) (lastword st)) as [E | E].
  - bind_ok H w Hw. apply load_ok in Hw. destruct Hw as [_ ->].
    bind_ok H lz Hlz. bind_ok H tz Htz.
    apply Ok_inj in H. subst st'. fields.
    destruct (wf_mask st W) as (b & Hb & Hbm).
    apply clzll_value in Hlz. destruct Hlz as [Hnz ->].
    rewrite Hbm, ctzll_pow2 in Htz by lia. apply Ok_inj in Htz. subst tz.
    split; [exact Hnz |].
    pose proof (wf_memory st W (wordoffset st)) as [C0 C1].
    pose proof (wf_low st W) as Hlow. rewrite Hbm in *.
    pose proof (pow2_pos b ltac:(lia)) as Hp.
    pose proof (Z.div_mod (narr st (wordoffset st)) (2 ^ b) ltac:(lia)) as D.
    rewrite Hlow in D.
    assert (Hge : 2 ^ b <= narr st (wordoffset st)).
    { assert (0 < narr st (wordoffset st) / 2 ^ b) by nia. nia. }
    rewrite bit_length_shift by lia.
    pose proof (log2_word (narr st (wordoffset st)) ltac:(lia)) as HL.
    assert (b <= Z.log2 (narr st (wordoffset st)))
      by (apply Z.log2_le_pow2; lia).
    unfold bit_length.
    destruct (Z.eqb_spec (narr st (wordoffset st)) 0); [lia |].
    rewrite wrap64_small by lia. lia.
  - apply Ok_inj in H. subst st'. contradiction.
Qed.

Lemma iteration_top st ev st' :
  loop_invariant st ->
  narr st (lastword st - 1) <> 0 ->
  iteration st = Ok (ev, st') ->
  narr st' (lastword st' - 1) <> 0.
Proof.
  intros I Htop H.
  destruct (iteration_split st ev st' H) as (st1 & Hb & Hr).
  destruct (branch_spec st ev st1 I Hb) as (W1 & _ & _).
  destruct (refresh_bitsize_fields st1 st' Hr) as (En & Ewo & _ & Elw & _).
  destruct (Z.eq_dec (wordoffset st' + 1) (lastword st')) as [Es | Es].
  - destruct (refresh_single st1 st' W1 Hr Es) as [Hnz _].
    replace (lastword st' - 1) with (wordoffset st') by lia. exact Hnz.
  - rewrite En, Elw. rewrite Ewo, Elw in Es.
    pose proof (wf_cursor st1 W1) as Hc.
    destruct (branch_cases st ev st1 I Hb)
      as [(_ & s & sa & Ws & Ha & ->) | (_ & Flw & _ & Fm)].
    + destruct (actualize_spec s sa Ws Ha) as (Wa & _ & _ & _ & Hnz & _).
      destruct (flushed_state sa Wa) as (-> & _). exact Hnz.
    + rewrite Fm by lia. now rewrite Flw.
Qed.

Lemma iteration_bitsize_multi st ev st' :
  loop_invariant st ->
  bitsize st <> 1 ->
  iteration st = Ok (ev, st') ->
  wordoffset st' + 1 < lastword st' ->
  bitsize st' <> 1.
Proof.
  intros I Hne H Hm.
  destruct (iteration_split st ev st' H) as (st1 & Hb & Hr).
  destruct (refresh_bitsize_fields st1 st' Hr) as (_ & Ewo & _ & Elw & _).
  assert (Ebs : bitsize st' = bitsize st1).
  { unfold refresh_bitsize in Hr.
    destruct (Z.eqb_spec (wordoffset st1 + 1) (lastword st1)) as [E | E].
    - exfalso. rewrite <- Ewo, <- Elw in E. lia.
    - apply Ok_inj in Hr. now subst st'. }
  rewrite Ebs. rewrite Ewo, Elw in Hm.
  destruct (branch_cases st ev st1 I Hb)
    as [(_ & s & sa & Ws & Ha & ->) | (_ & _ & -> & _)]; [| exact Hne].
  destruct (actualize_spec s sa Ws Ha) as (Wa & _ & Hc & Hk & Hnz & _).
  destruct (flushed_state sa Wa) as (_ & -> & Hlen).
  rewrite (actualize_bitsize s sa Ws Ha).
  pose proof (wf_cursor sa Wa) as Hcur.
  rewrite <- (represented_tracked sa) by (auto; lia).
  rewrite (represented_bit_length sa Wa Hnz).
  destruct (wf_mask sa Wa) as (b & Hb' & ->).
  rewrite Z.log2_pow2 by lia.
  pose proof (Z.log2_nonneg (narr sa (lastword sa - 1))). lia.
Qed.

Lemma run_from_top st0 tr st :
  loop_invariant st0 ->
  narr st0 (lastword st0 - 1) <> 0 ->
  run_from st0 tr st ->
  narr st (lastword st - 1) <> 0.
Proof.
  intros I0 T0 R. induction R as [| tr st st' ev R IH Hb Hit]; [exact T0 |].
  destruct (run_from_invariant st0 tr st I0 R) as [I _].
  apply (iteration_top st ev st' I IH Hit).
Qed.

(** ** What a [bitsize] of 1 means *)

(** A tracked value of 1 sits in a one-word window, with no carry
    pending and the cursor on the only bit of the word. *)
Lemma tracked_one st :
  well_formed st ->
  narr st (lastword st - 1) <> 0 ->
  tracked st = 1 ->
  wordoffset st + 1 = lastword st /\ kvalue st = 0 /\
  narr st (wordoffset st) = bitmask st.
Proof.
  intros W Htop T.
  pose proof (pending_sum_multiple st W) as P. rewrite T, Z.mul_1_r in P.
  pose proof (wf_cursor st W) as Hc.
  destruct (wf_mask st W) as (b & Hb & Hbm).
  pose proof (wf_cvalue st W) as Hcv. pose proof (wf_kvalue st W) as [Hk _].
  pose proof (wf_memory st W (wordoffset st)) as [C0 _].
  assert (Hbm' : bitmask st < 2 ^ 64).
  { rewrite Hbm. apply Z.pow_lt_mono_r; lia. }
  unfold pending_sum in P.
  assert (Hh : Forall u64 (high_words st))
    by apply read_range_typed, (wf_memory st W).
  pose proof (words_value_nonneg (high_words st) Hh) as Hn.
  assert (Hz : cvalue st * words_value (high_words st) + kvalue st = 0) by nia.
  assert (Hv : words_value (high_words st) = 0) by nia.
  assert (Hkz : kvalue st = 0) by nia.
  assert (Hs : wordoffset st + 1 = lastword st).
  { destruct (Z.eq_dec (wordoffset st + 1) (lastword st)) as [E | E]; [exact E |].
    exfalso. unfold high_words in Hv, Hh.
    replace (Z.to_nat (lastword st - (wordoffset st + 1)))
      with (S (Z.to_nat (lastword st - (wordoffset st + 1) - 1))) in Hv, Hh by lia.
    rewrite read_range_snoc in Hv, Hh. rewrite words_value_app in Hv.
    cbn [words_value] in Hv.
    rewrite read_range_length in Hv.
    replace (wordoffset st + 1
             + Z.of_nat (Z.to_nat (lastword st - (wordoffset st + 1) - 1)))
      with (lastword st - 1) in Hv by lia.
    apply Forall_app in Hh. destruct Hh as [Hi _].
    pose proof (words_value_nonneg _ Hi).
    pose proof (wf_memory st W (lastword st - 1)) as [T0 _].
    pose proof (pow2_pos (64 * Z.of_nat (Z.to_nat (lastword st - (wordoffset st + 1) - 1)))
                  ltac:(lia)).
    nia. }
  repeat split; auto. lia.
Qed.

(** ** Runs on a number written without leading zeros *)

Lemma bit_length_one v : 0 <= v -> (bit_length v = 1 <-> v = 1).
Proof.
  intros Hv. unfold bit_length. split.
  - destruct (Z.eqb_spec v 0); [lia |]. intros H.
    assert (Z.log2 v = 0) as E by lia. apply Z.log2_null in E. lia.
  - intros ->. reflexivity.
Qed.

Lemma loaded_exact file mem0 st :
  typed_memory mem0 ->
  2 <= Z.of_nat (length file) < 2 ^ 64 ->
  is_one (hd Ascii.zero file) = true ->
  init_from_file file mem0 = Ok st ->
  tracked st = binary_value (removelast file) /\
  bitsize st = bit_length (tracked st) /\
  narr st (lastword st - 1) <> 0.
Proof.
  intros Hm Hlen Hone H.
  pose proof (loaded_value file mem0 st Hm Hlen H) as Hv.
  assert (S : started st) by (eapply started_file; eauto).
  pose proof (started_represented st S) as Hrt.
  destruct (started_spec st S) as ([W _] & _).
  destruct (init_from_file_spec file mem0 st Hlen H)
    as (_ & Hwo & Hbm & Hlw & Hbs & _).
  pose proof (file_digits_length file ltac:(lia)) as Hdl.
  assert (Hr : represented st = binary_value (removelast file)).
  { unfold represented. rewrite Hv, Hbm. apply Z.div_1_r. }
  assert (Hbl : bit_length (binary_value (removelast file))
                = Z.of_nat (length file) - 1).
  { rewrite <- Hdl. clear - Hlen Hone.
    destruct file as [| c file']; [cbn in Hlen; lia |].
    destruct file' as [| c' file'']; [cbn in Hlen; lia |].
    change (removelast (c :: c' :: file''))
      with (c :: removelast (c' :: file'')).
    apply binary_value_leading_one. exact Hone. }
  split; [congruence |]. split; [rewrite <- Hrt, Hr, Hbl; exact Hbs |].
  (* the top word *)
  intros Htop.
  set (flen := Z.of_nat (length file) - 1) in *.
  pose proof (wf_cursor st W) as Hc.
  pose proof (window_snoc st ltac:(lia)) as Ew.
  rewrite Htop in Ew. rewrite Ew, words_value_app in Hv.
  cbn [words_value] in Hv.
  set (init := read_range (narr st) (wordoffset st)
                 (Z.to_nat (lastword st - wordoffset st - 1))) in *.
  assert (Hv' : words_value init = binary_value (removelast file)) by lia.
  clear Hv. rename Hv' into Hv.
  assert (Hi : Forall u64 init) by apply read_range_typed, (wf_memory st W).
  pose proof (words_value_nonneg init Hi) as H0.
  pose proof (words_value_bound init Hi) as H1.
  unfold init in H1. rewrite read_range_length in H1. fold init in H1.
  rewrite Z2Nat.id in H1 by lia.
  rewrite Hv in H0, H1. unfold bit_length in Hbl.
  destruct (Z.eqb_spec (binary_value (removelast file)) 0); [lia |].
  apply Z.log2_lt_pow2 in H1; [| lia].
  rewrite Hwo, Hlw in H1. dlia.
Qed.

(** At the head of an iteration, a tracked value of 1 shows as a
    [bitsize] of 1, and a [bitsize] of 1 leaves a one-word window with
    the cursor on the only bit of the word. *)
Lemma file_run_one file mem0 st0 tr st :
  typed_memory mem0 ->
  2 <= Z.of_nat (length file) < 2 ^ 64 ->
  is_one (hd Ascii.zero file) = true ->
  init_from_file file mem0 = Ok st0 ->
  run_from st0 tr st ->
  (tracked st = 1 -> bitsize st = 1 /\ kvalue st = 0) /\
  (bitsize st = 1 ->
   tracked st = 1 + 2 ^ (64 - Z.log2 (bitmask st)) * kvalue st).
Proof.
  intros Hm Hlen Hone H0 R.
  assert (S : started st0) by (eapply started_file; eauto).
  destruct (started_spec st0 S) as (I0 & C0 & K0).
  destruct (loaded_exact file mem0 st0 Hm Hlen Hone H0) as (Hv0 & Hb0 & T0).
  destruct (run_from_invariant st0 tr st I0 R) as [I _].
  pose proof I as [W _].
  pose proof (run_from_top st0 tr st I0 T0 R) as Top.
  destruct (wf_mask st W) as (b & Hb & Hbm).
  pose proof (pow2_pos b ltac:(lia)) as Hp.
  inversion R as [| tr' st1 st' ev R1 Hne Hit]; subst.
  - (* before the first iteration *)
    assert (Hnn : 0 <= tracked st).
    { rewrite Hv0. destruct (fold_digits_shift (removelast file) 0). lia. }
    split.
    + intros T. split; [| exact K0]. rewrite Hb0.
      now apply (proj2 (bit_length_one (tracked st) Hnn)).
    + intros B. rewrite Hb0 in B.
      apply (proj1 (bit_length_one (tracked st) Hnn)) in B.
      rewrite B, K0. lia.
  - (* after an iteration *)
    destruct (run_from_invariant st0 tr' st1 I0 R1) as [I1 _].
    destruct (iteration_split st1 ev st Hit) as (s1 & Hbr & Hr).
    destruct (branch_spec st1 ev s1 I1 Hbr) as (W1 & _ & _).
    assert (Hsingle : wordoffset st + 1 = lastword st ->
                      narr st (wordoffset st) = bitmask st ->
                      bitsize st = 1).
    { intros Es Ew. destruct (refresh_single s1 st W1 Hr Es) as [_ ->].
      rewrite Ew, Z.div_same by lia. reflexivity. }
    split.
    + intros T. destruct (tracked_one st W Top T) as (Es & Hk & Ew). auto.
    + intros B.
      assert (Es : wordoffset st + 1 = lastword st).
      { pose proof (wf_cursor st W).
        destruct (Z.eq_dec (wordoffset st + 1) (lastword st)); [assumption |].
        exfalso. apply (iteration_bitsize_multi st1 ev st I1 Hne Hit); [lia | exact B]. }
      destruct (refresh_single s1 st W1 Hr Es) as [Hnz Hbs].
      rewrite B in Hbs. symmetry in Hbs.
      pose proof (wf_memory st W (wordoffset st)) as [C0' _].
      pose proof (wf_low st W) as Hlow. rewrite Hbm in *.
      pose proof (Z.div_mod (narr st (wordoffset st)) (2 ^ b) ltac:(lia)) as D.
      rewrite Hlow in D.
      assert (Hq : 0 <= narr st (wordoffset st) / 2 ^ b)
        by (apply Z.div_pos; lia).
      apply (proj1 (bit_length_one _ Hq)) in Hbs.
      rewrite Hbs in D.
      rewrite Z.log2_pow2 by lia.
      rewrite tracked_pending. unfold pending_sum, high_words.
      replace (Z.to_nat (lastword st - (wordoffset st + 1))) with O by lia.
      cbn [read_range words_value]. rewrite Hbm, D.
      rewrite (pow2_split b) by lia.
      replace (2 ^ b * 1 + 0 + 2 ^ b * 2 ^ (64 - b) * (cvalue st * 0 + kvalue st))
        with ((1 + 2 ^ (64 - b) * kvalue st) * 2 ^ b) by ring.
      apply Z.div_mul. lia.
Qed.

Lemma run_from_not_one file mem0 st0 tr st :
  typed_memory mem0 ->
  2 <= Z.of_nat (length file) < 2 ^ 64 ->
  is_one (hd Ascii.zero file) = true ->
  init_from_file file mem0 = Ok st0 ->
  run_from st0 tr st ->
  forall m, (m < step_count tr)%nat ->
    Nat.iter m collatz_step (binary_value (removelast file)) <> 1.
Proof.
  intros Hm Hlen Hone H0 R.
  assert (St : started st0) by (eapply started_file; eauto).
  destruct (started_spec st0 St) as (I0 & _).
  destruct (loaded_exact file mem0 st0 Hm Hlen Hone H0) as (Hv0 & _).
  induction R as [| tr st st' ev R IH Hne Hit]; intros m Hlt.
  - cbn in Hlt. lia.
  - assert (Hs : (step_count (ev :: tr) <= S (step_count tr))%nat)
      by (destruct ev; cbn [step_count]; lia).
    destruct (Nat.eq_dec m (step_count tr)) as [-> | Hneq];
      [| apply IH; lia].
    destruct (run_from_invariant st0 tr st I0 R) as [_ T].
    rewrite (run_from_collatz st0 tr st I0 R), Hv0 in T.
    rewrite <- T. intros T1.
    destruct (file_run_one file mem0 st0 tr st Hm Hlen Hone H0 R) as [Ha _].
    destruct (Ha T1) as [B _]. contradiction.
Qed.

(** X9. What a [bitsize] of 1 means.  On a number written without
    leading zeros, at the head of every iteration: if the tracked value
    is 1 then [bitsize] is 1 and no carry is pending, so the loop
    stops; and if [bitsize] is 1 then the window is one word with the
    cursor on its only bit, so that the tracked value is 1 plus the
    pending carry [kvalue] shifted above that word: it is 1 exactly
    when [kvalue] is 0. *)
Theorem bitsize_one_means (file : list ascii) (mem0 : memory)
    (st0 st : State) (tr : list event) :
  typed_memory mem0 ->
  2 <= Z.of_nat (length file) < 2 ^ 64 ->
  is_one (hd Ascii.zero file) = true ->
  init_from_file file mem0 = Ok st0 ->
  run_from st0 tr st ->
  (tracked st = 1 -> bitsize st = 1 /\ kvalue st = 0) /\
  (bitsize st = 1 ->
   tracked st = 1 + 2 ^ (64 - Z.log2 (bitmask st)) * kvalue st) /\
  (bitsize st = 1 -> kvalue st = 0 -> tracked st = 1).
Proof.
  intros Hm Hlen Hone H0 R.
  destruct (file_run_one file mem0 st0 tr st Hm Hlen Hone H0 R) as [Ha Hb].
  split; [exact Ha |]. split; [exact Hb |].
  intros B K. rewrite (Hb B), K. lia.
Qed.

(** The value 2, digits [10]: after the halving the value is 1 and
    [bitsize] is 1. *)
Lemma bitsize_one_means_witness :
  exists st0 st,
    init_from_file (file_of_digits ["1"; "0"]%char) clear_memory = Ok st0 /\
    iteration st0 = Ok (EvHalve, st) /\
    bitsize st = 1 /\ kvalue st = 0 /\
    (bitsize st = 1 -> kvalue st = 0 -> tracked st = 1).
Proof.
  do 2 eexists.
  split; [vm_compute; reflexivity |].
  split; [vm_compute; reflexivity |].
  split; [vm_compute; reflexivity |].
  split; [vm_compute; reflexivity |].
  refine (proj2 (proj2 (bitsize_one_means
    (file_of_digits ["1"; "0"]%char) clear_memory _ _ [EvHalve] _ _ _ _ _))).
  - exact clear_memory_typed.
  - vm_compute. split; [discriminate | reflexivity].
  - vm_compute. reflexivity.
  - vm_compute. reflexivity.
  - eapply run_cons.
    + apply run_nil.
    + vm_compute. discriminate.
    + vm_compute. reflexivity.
Defined.

(** X10. The step count of a finished run is the total stopping time.
    When [main], started on a file that writes a number [v] without
    leading zeros, leaves the loop with no carry pending, then [v]
    reaches 1 under the 3x+1 process after a number [n] of steps and
    not before, and the counters hold [n] and its split into halvings
    and 3x+1 steps, modulo [2^64]. *)
Theorem finished_run_stopping_time (fuel : nat) (file : list ascii)
    (mem0 : memory) (st : State) :
  typed_memory mem0 ->
  2 <= Z.of_nat (length file) < 2 ^ 64 ->
  is_one (hd Ascii.zero file) = true ->
  main_file fuel file mem0 = Finished st ->
  kvalue st = 0 ->
  exists n : nat,
    Nat.iter n collatz_step (binary_value (removelast file)) = 1 /\
    (forall m, (m < n)%nat ->
       Nat.iter m collatz_step (binary_value (removelast file)) <> 1) /\
    steps st = Z.of_nat n mod 2 ^ 64 /\
    steps st = (divsteps st + mulsteps st) mod 2 ^ 64.
Proof.
  intros Hm Hlen Hone Hmain Hk. unfold main_file in Hmain.
  destruct (init_from_file file mem0) as [st0 |] eqn:H0; [| discriminate].
  destruct (run_finished fuel st0 st Hmain) as (tr & R & B & _).
  assert (S : started st0) by (eapply started_file; eauto).
  destruct (started_spec st0 S) as (I0 & _).
  destruct (loaded_exact file mem0 st0 Hm Hlen Hone H0) as (Hv0 & _).
  exists (step_count tr).
  split; [| split].
  - destruct (run_from_invariant st0 tr st I0 R) as [_ T].
    rewrite (run_from_collatz st0 tr st I0 R), Hv0 in T. rewrite <- T.
    destruct (file_run_one file mem0 st0 tr st Hm Hlen Hone H0 R) as [_ Hb].
    rewrite (Hb B), Hk. lia.
  - apply (run_from_not_one file mem0 st0 tr st Hm Hlen Hone H0 R).
  - destruct (started_counters st0 S) as (S0 & D0 & M0).
    destruct (run_from_counters st0 tr st S0 D0 M0 R) as (HS & HD & HM).
    rewrite HS, HD, HM, step_count_split. unfold wrap64.
    split; [reflexivity |].
    now rewrite <- Zplus_mod, Nat2Z.inj_add.
Qed.

(** The value 27, digits [11011]: 111 steps. *)
Lemma finished_run_stopping_time_witness :
  exists st,
    main_file 200 (file_of_digits ["1"; "1"; "0"; "1"; "1"]%char) clear_memory
    = Finished st /\
    steps st = 111 /\
    exists n : nat,
      Nat.iter n collatz_step
        (binary_value (removelast (file_of_digits ["1"; "1"; "0"; "1"; "1"]%char)))
      = 1 /\
      (forall m, (m < n)%nat ->
         Nat.iter m collatz_step
           (binary_value
              (removelast (file_of_digits ["1"; "1"; "0"; "1"; "1"]%char)))
         <> 1) /\
      steps st = Z.of_nat n mod 2 ^ 64 /\
      steps st = (divsteps st + mulsteps st) mod 2 ^ 64.
Proof.
  eexists.
  split; [vm_compute; reflexivity |].
  split; [vm_compute; reflexivity |].
  eapply (finished_run_stopping_time 200).
  - exact clear_memory_typed.
  - vm_compute. split; [discriminate | reflexivity].
  - vm_compute. reflexivity.
  - vm_compute. reflexivity.
  - vm_compute. reflexivity.
Defined.

(** ** [bitsize] in the last word *)

(** X11. When an iteration ends with a window of one word, line 171
    has set [bitsize] to the bit length of that word from the cursor's
    bit upwards; this is the exact bit length of the tracked value
    when no carry is pending in [kvalue]. *)
Theorem bitsize_in_last_word (st0 st : State) (ev : event) (tr : list event) :
  started st0 ->
  run_from st0 (ev :: tr) st ->
  wordoffset st + 1 = lastword st ->
  bitsize st = bit_length (narr st (wordoffset st) / bitmask st) /\
  (kvalue st = 0 -> bitsize st = bit_length (tracked st)).
Proof.
  intros S R Es. destruct (started_spec st0 S) as (I0 & _).
  inversion R as [| tr' st1 st' ev' R1 Hne Hit]; subst.
  destruct (run_from_invariant st0 tr st1 I0 R1) as [I1 _].
  destruct (iteration_split st1 ev st Hit) as (s1 & Hbr & Hr).
  destruct (branch_spec st1 ev s1 I1 Hbr) as (W1 & _ & _).
  destruct (refresh_single s1 st W1 Hr Es) as [_ Hbs].
  split; [exact Hbs |]. intros Hk. rewrite Hbs.
  rewrite tracked_pending. unfold pending_sum, high_words.
  replace (Z.to_nat (lastword st - (wordoffset st + 1))) with O by lia.
  cbn [read_range words_value]. rewrite Hk.
  do 2 f_equal. lia.
Qed.

(** The value 3, digits [11]: after the lazy step the only word holds
    10, which has 4 bits. *)
Lemma bitsize_in_last_word_witness :
  exists st0 st,
    init_from_file (file_of_digits ["1"; "1"]%char) clear_memory = Ok st0 /\
    iteration st0 = Ok (EvTriple, st) /\
    tracked st = 10 /\ bitsize st = 4 /\
    (kvalue st = 0 -> bitsize st = bit_length (tracked st)).
Proof.
  do 2 eexists.
  split; [vm_compute; reflexivity |].
  split; [vm_compute; reflexivity |].
  split; [vm_compute; reflexivity |].
  split; [vm_compute; reflexivity |].
  refine (proj2 (bitsize_in_last_word _ _ EvTriple [] _ _ _)).
  - eapply started_file with (file := file_of_digits ["1"; "1"]%char).
    + exact clear_memory_typed.
    + vm_compute. split; [discriminate | reflexivity].
    + vm_compute. reflexivity.
  - eapply run_cons.
    + apply run_nil.
    + vm_compute. discriminate.
    + vm_compute. reflexivity.
  - vm_compute. reflexivity.
Defined.

(** ** When an iteration runs without fault *)

Lemma flush_words_last n : forall m p c k m' k',
  typed_memory m -> 1 <= c < 2 ^ 64 -> u64 k ->
  m (p + Z.of_nat n) <> 0 ->
  flush_words (S n) m p c k = Ok (m', k') ->
  k' <> 0 \/ m' (p + Z.of_nat n) <> 0.
Proof.
  induction n as [| n IH]; intros m p c k m' k' Hm Hc Hk Hnz H.
  - cbn [flush_words] in H.
    bind_ok H w Hw. apply load_ok in Hw. destruct Hw as [_ ->].
    bind_ok H m1 Hs. apply store_ok in Hs. destruct Hs as [_ ->].
    apply Ok_inj in H. inversion H; subst m' k'.
    rewrite Z.add_0_r in *. rewrite upd_same.
    destruct (lo_hi_split (m p) c k (Hm p) ltac:(unfold u64; lia) Hk)
      as (Hv & [L0 _] & [H0 _]).
    pose proof (Hm p) as [W0 _]. destruct Hk as [K0 _].
    set (lo := lo64 _) in *. set (hi := hi64 _) in *.
    destruct (Z.eq_dec hi 0) as [E | E]; [right | now left].
    nia.
  - change (flush_words (S (S n)) m p c k)
      with (w <- load m p ;;
            let val128 := mul_add128 w c k in
            m1 <- store m p (lo64 val128) ;;
            flush_words (S n) m1 (p + 1) c (hi64 val128)) in H.
    bind_ok H w Hw. apply load_ok in Hw. destruct Hw as [_ ->].
    bind_ok H m1 Hs. apply store_ok in Hs. destruct Hs as [_ ->].
    destruct (lo_hi_split (m p) c k (Hm p) ltac:(unfold u64; lia) Hk)
      as (_ & Hlo & Hhi).
    replace (p + Z.of_nat (S n)) with (p + 1 + Z.of_nat n) in * by lia.
    eapply IH; [| exact Hc | | | exact H].
    + exact (upd_typed _ _ _ Hm Hlo).
    + exact Hhi.
    + rewrite upd_other by lia. exact Hnz.
Qed.

Lemma ctzll_mask st : well_formed st -> exists tz, ctzll (bitmask st) = Ok tz.
Proof.
  intros W. destruct (wf_mask st W) as (b & Hb & ->).
  exists b. now apply ctzll_pow2.
Qed.

Lemma clzll_defined w : w <> 0 -> exists lz, clzll w = Ok lz.
Proof.
  intros H. unfold clzll. destruct (Z.eqb_spec w 0); [contradiction | eauto].
Qed.

(** The actualization pass runs without fault when a free word remains
    at the end of the buffer and the top word is not zero, or the
    window is one word with a carry pending. *)
Lemma actualize_defined st :
  well_formed st ->
  lastword st < CAPACITY ->
  narr st (lastword st - 1) <> 0 \/
  (wordoffset st + 1 = lastword st /\ kvalue st <> 0) ->
  exists sa, actualize st = Ok sa.
Proof.
  intros W Hroom Hcase.
  pose proof (wf_cursor st W) as Hc. pose proof (wf_last st W) as Hl.
  pose proof (wf_cvalue st W) as Hcv. pose proof (wf_kvalue st W) as Hk.
  destruct (ctzll_mask st W) as [tz Htz].
  rewrite actualize_unfold.
  destruct (flush_words_in (Z.to_nat (lastword st - (wordoffset st + 1)))
              (narr st) (wordoffset st + 1) (cvalue st) (kvalue st))
    as (m & k & Hfl); try lia.
  rewrite Hfl. cbn [bind].
  pose proof Hfl as Hsp. apply flush_words_spec in Hsp;
    [| apply (wf_memory st W) | unfold u64; lia | exact Hk].
  destruct Hsp as (Hm & Hk' & Hout & _).
  assert (Htop : k <> 0 \/ (k = 0 /\ m (lastword st - 1) <> 0)).
  { destruct (Z.eq_dec k 0) as [Ek | Ek]; [right | now left].
    split; [exact Ek |].
    destruct (Z.eq_dec (wordoffset st + 1) (lastword st)) as [Es | Es].
    - (* one word: nothing was flushed *)
      replace (Z.to_nat (lastword st - (wordoffset st + 1))) with O in Hfl by lia.
      cbn [flush_words] in Hfl. apply Ok_inj in Hfl. inversion Hfl; subst m k.
      destruct Hcase as [Ht | [_ Hkn]]; [exact Ht | contradiction].
    - destruct Hcase as [Ht | [Es' _]]; [| contradiction].
      replace (Z.to_nat (lastword st - (wordoffset st + 1)))
        with (S (Z.to_nat (lastword st - (wordoffset st + 1) - 1))) in Hfl by lia.
      apply flush_words_last in Hfl; auto.
      + replace (wordoffset st + 1
                 + Z.of_nat (Z.to_nat (lastword st - (wordoffset st + 1) - 1)))
          with (lastword st - 1) in Hfl by lia.
        destruct Hfl; [contradiction | assumption].
      + apply (wf_memory st W).
      + replace (wordoffset st + 1
                 + Z.of_nat (Z.to_nat (lastword st - (wordoffset st + 1) - 1)))
          with (lastword st - 1) by lia.
        exact Ht. }
  unfold carry_out.
  destruct Htop as [Hkn | [-> Hmn]].
  - destruct (Z.eqb_spec k 0) as [E | _]; [contradiction |].
    rewrite store_in by lia. cbn [bind].
    rewrite load_in by lia. cbn [bind].
    replace (lastword st + 1 - 1) with (lastword st) by lia.
    rewrite upd_same.
    destruct (clzll_defined k Hkn) as [lz ->]. cbn [bind].
    rewrite Htz. cbn [bind]. eauto.
  - cbn [Z.eqb bind]. rewrite load_in by lia. cbn [bind].
    destruct (clzll_defined _ Hmn) as [lz ->]. cbn [bind].
    rewrite Htz. cbn [bind]. eauto.
Qed.

Lemma refresh_defined st :
  well_formed st ->
  (wordoffset st + 1 = lastword st -> narr st (wordoffset st) <> 0) ->
  exists st', refresh_bitsize st = Ok st'.
Proof.
  intros W H. unfold refresh_bitsize.
  pose proof (wf_cursor st W) as Hc. pose proof (wf_last st W) as Hl.
  destruct (Z.eqb_spec (wordoffset st + 1) (lastword st)) as [E | E]; [| eauto].
  rewrite load_in by lia. cbn [bind].
  destruct (clzll_defined _ (H E)) as [lz ->]. cbn [bind].
  destruct (ctzll_mask st W) as [tz ->]. cbn [bind]. eauto.
Qed.

Lemma lazy_update_word st st' :
  well_formed st ->
  lazy_guard (cvalue st) (kvalue st) = true ->
  lazy_update st = Ok st' ->
  kvalue st' = 0 ->
  narr st' (wordoffset st') <> 0.
Proof.
  intros W G H Hk0.
  destruct (wf_mask st W) as (b & Hb & Hbm).
  pose proof (pow2_pos b ltac:(lia)) as Hp.
  pose proof (wf_kvalue st W) as Hk.
  pose proof (wf_memory st W (wordoffset st)) as Hw.
  pose proof (wf_low st W) as Hl.
  apply lazy_guard_true in G. destruct G as [Gc Gk].
  unfold lazy_update in H.
  bind_ok H w Hw0. apply load_ok in Hw0. destruct Hw0 as [_ ->].
  bind_ok H m Hs. apply store_ok in Hs. destruct Hs as [_ ->].
  apply Ok_inj in H. subst st'. revert Hk0. fields. rewrite upd_same.
  set (old := narr st (wordoffset st)) in *.
  pose proof (lazy_carry_range old (bitmask st)) as Hcr.
  assert (Hsum : 3 * old + bitmask st
                 = lazy_word old (bitmask st) + lazy_carry old (bitmask st) * 2 ^ 64).
  { apply lazy_word_carry; try assumption; try lia.
    apply (multiple_below_top old (bitmask st) b); auto. }
  rewrite (triple_k_exact (kvalue st)) by (unfold u64 in Hk; lia).
  intros Hk0 Hz. unfold u64 in *. nia.
Qed.

Lemma refresh_after_flush s sa :
  well_formed s ->
  actualize s = Ok sa ->
  exists st', refresh_bitsize (telemetry (compaction sa)) = Ok st'.
Proof.
  intros W Ha.
  destruct (actualize_spec s sa W Ha) as (Wa & _ & _ & _ & Hnz & _).
  assert (Hb : actualize_block s = Ok (telemetry (compaction sa)))
    by (unfold actualize_block; rewrite Ha; reflexivity).
  destruct (actualize_block_spec s _ W Hb) as (W1 & _).
  destruct (flushed_state sa Wa) as (Ht & _).
  apply (refresh_defined _ W1).
  intros Es.
  replace (wordoffset (telemetry (compaction sa)))
    with (lastword (telemetry (compaction sa)) - 1) by lia.
  rewrite Ht. exact Hnz.
Qed.

(** X12. Progress of the main loop.  From a start whose top word is
    not zero, an iteration at the head of the loop runs without fault
    as long as a free word remains at the end of the buffer, with one
    exception: the cursor leaves the word below the last one and the
    pending transform turns the last word into 0 (its product is a
    multiple of 2^64); then the iteration does fault, for line 171
    counts the leading zeros of a zero word. *)
Theorem iteration_without_fault (st0 st : State) (tr : list event) :
  started st0 ->
  narr st0 (lastword st0 - 1) <> 0 ->
  run_from st0 tr st ->
  lastword st < CAPACITY ->
  (~ enters_zero_word st -> exists ev st', iteration st = Ok (ev, st')) /\
  (enters_zero_word st -> iteration st = Err UB).
Proof.
  intros St Top R Hroom.
  destruct (started_spec st0 St) as (I0 & _).
  destruct (run_from_invariant st0 tr st I0 R) as [I _].
  pose proof (run_from_top st0 tr st I0 Top R) as Htop.
  pose proof I as [W _].
  pose proof (wf_cursor st W) as Hc. pose proof (wf_last st W) as Hl.
  split; [intros Hex | intros (Em & Es & Ev & Hz)].
  2:{ unfold iteration, branch. rewrite load_in by lia. cbn [bind].
      rewrite Ev. cbn [Z.eqb bind]. unfold even_branch.
      rewrite Em, Z.eqb_refl. rewrite load_in by lia. cbn [bind].
      rewrite store_in by lia. cbn [bind].
      unfold refresh_bitsize. fields.
      replace (wordoffset st + 1 + 1 =? lastword st) with true
        by (symmetry; apply Z.eqb_eq; lia).
      rewrite load_in by lia. cbn [bind]. rewrite upd_same, Hz.
      reflexivity. }
  unfold iteration, branch. rewrite load_in by lia. cbn [bind].
  destruct (Z.eqb_spec (Z.land (narr st (wordoffset st)) (bitmask st)) 0)
    as [Ev | Od].
  - destruct (even_branch_defined st I Ev) as [s1 E1]. rewrite E1. cbn [bind].
    destruct (even_branch_spec st s1 I Ev E1) as [W1 _].
    destruct (refresh_defined s1 W1) as [st' Hr].
    { intros Es. unfold even_branch in E1.
      destruct (Z.eqb_spec (bitmask st) MSB64) as [Em | Em].
      - bind_ok E1 w Hw. apply load_ok in Hw. destruct Hw as [_ ->].
        bind_ok E1 m Hs. apply store_ok in Hs. destruct Hs as [_ ->].
        apply Ok_inj in E1. subst s1. revert Es. fields. intros Es.
        rewrite upd_same. intros Z0. apply Hex.
        unfold enters_zero_word. repeat split; auto; lia.
      - apply Ok_inj in E1. subst s1. revert Es. fields. intros Es.
        replace (wordoffset st) with (lastword st - 1) by lia. exact Htop. }
    rewrite Hr. cbn [bind]. eauto.
  - unfold odd_branch.
    destruct (lazy_guard (cvalue st) (kvalue st)) eqn:G.
    + destruct (lazy_update_defined st W) as [s1 E1]. rewrite E1. cbn [bind].
      destruct (lazy_update_spec st s1 W G E1) as [W1 _].
      destruct (lazy_update_frame st s1 E1) as (Flw & _ & Fwo & _).
      destruct (hail_mary s1) eqn:HM.
      * unfold hail_mary in HM. apply andb_true_iff in HM.
        destruct HM as [Es Hk]. apply Z.eqb_eq in Es.
        apply negb_true_iff, Z.eqb_neq in Hk.
        destruct (actualize_defined s1 W1) as [sa Ha]; [lia | now right |].
        unfold actualize_block. rewrite Ha. cbn [bind].
        destruct (refresh_after_flush s1 sa W1 Ha) as [st' ->].
        cbn [bind]. eauto.
      * cbn [bind].
        destruct (refresh_defined s1 W1) as [st' ->]; [| cbn [bind]; eauto].
        intros Es. apply (lazy_update_word st s1 W G E1).
        unfold hail_mary in HM. apply andb_false_iff in HM.
        destruct HM as [HM | HM].
        -- apply Z.eqb_neq in HM. contradiction.
        -- apply negb_false_iff, Z.eqb_eq in HM. exact HM.
    + destruct (actualize_defined st W Hroom (or_introl Htop)) as [sa Ha].
      unfold actualize_block. rewrite Ha. cbn [bind].
      destruct (refresh_after_flush st sa W Ha) as [st' ->].
      cbn [bind]. eauto.
Qed.

(** The value 3: the first iteration runs. *)
Lemma iteration_without_fault_witness :
  exists st0,
    init_from_file (file_of_digits ["1"; "1"]%char) clear_memory = Ok st0 /\
    (~ enters_zero_word st0 -> exists ev st', iteration st0 = Ok (ev, st')) /\
    (enters_zero_word st0 -> iteration st0 = Err UB).
Proof.
  eexists. split; [vm_compute; reflexivity |].
  eapply (iteration_without_fault _ _ []).
  - eapply started_file with (file := file_of_digits ["1"; "1"]%char).
    + exact clear_memory_typed.
    + vm_compute. split; [discriminate | reflexivity].
    + vm_compute. reflexivity.
  - vm_compute. discriminate.
  - apply run_nil.
  - vm_compute. reflexivity.
Defined.

(** The exception does occur: on [(2^66 - 1) / 3 * 2^62] the tracked
    value reaches [2^64] when the cursor enters the last word, which
    then holds 0 with the carry 1 in [kvalue]. *)
Example zero_word_fault :
  main_file 100 zero_word_file clear_memory = Failed UB.
Proof. vm_compute. reflexivity. Qed.

(** ** Zero words at the top of the window *)

Lemma mul_add128_zero c k :
  u64 c -> u64 k ->
  lo64 (mul_add128 0 c k) = k /\ hi64 (mul_add128 0 c k) = 0.
Proof.
  intros Hc Hk.
  destruct (lo_hi_split 0 c k ltac:(unfold u64; lia) Hc Hk) as (Hv & [L0 L1] & [H0 H1]).
  destruct Hk as [K0 K1].
  set (lo := lo64 _) in *. set (hi := hi64 _) in *. lia.
Qed.

(** Two zero words at the end of the range stay zero and absorb the
    carry. *)
Lemma flush_words_zero_top n : forall m p c k m' k',
  typed_memory m -> u64 c -> u64 k ->
  m (p + Z.of_nat n) = 0 -> m (p + Z.of_nat n + 1) = 0 ->
  flush_words (S (S n)) m p c k = Ok (m', k') ->
  k' = 0 /\ m' (p + Z.of_nat n + 1) = 0.
Proof.
  induction n as [| n IH]; intros m p c k m' k' Hm Hc Hk Z1 Z2 H.
  - cbn [flush_words] in H. rewrite Z.add_0_r in *.
    bind_ok H w Hw. apply load_ok in Hw. destruct Hw as [_ ->].
    bind_ok H m1 Hs. apply store_ok in Hs. destruct Hs as [_ ->].
    bind_ok H w Hw. apply load_ok in Hw. destruct Hw as [_ ->].
    bind_ok H m2 Hs. apply store_ok in Hs. destruct Hs as [_ ->].
    apply Ok_inj in H. inversion H; subst m' k'. clear H.
    rewrite upd_same. rewrite upd_other by lia. rewrite Z1, Z2.
    destruct (mul_add128_zero c k Hc Hk) as [_ ->].
    destruct (mul_add128_zero c 0 Hc ltac:(unfold u64; lia)) as [-> ->].
    auto.
  - change (flush_words (S (S (S n))) m p c k)
      with (w <- load m p ;;
            let val128 := mul_add128 w c k in
            m1 <- store m p (lo64 val128) ;;
            flush_words (S (S n)) m1 (p + 1) c (hi64 val128)) in H.
    bind_ok H w Hw. apply load_ok in Hw. destruct Hw as [_ ->].
    bind_ok H m1 Hs. apply store_ok in Hs. destruct Hs as [_ ->].
    destruct (lo_hi_split (m p) c k (Hm p) Hc Hk) as (_ & Hlo & Hhi).
    replace (p + Z.of_nat (S n)) with (p + 1 + Z.of_nat n) in * by lia.
    eapply IH; [| exact Hc | | | | exact H].
    + exact (upd_typed _ _ _ Hm Hlo).
    + exact Hhi.
    + rewrite upd_other by lia. exact Z1.
    + rewrite upd_other by lia. exact Z2.
Qed.

(** The actualization pass on a window whose two top words are zero,
    with the cursor at least three words below the end: nothing is
    appended and line 152 counts the leading zeros of a zero word. *)
Lemma actualize_zero_top st :
  well_formed st ->
  wordoffset st + 2 < lastword st ->
  narr st (lastword st - 2) = 0 -> narr st (lastword st - 1) = 0 ->
  actualize st = Err UB.
Proof.
  intros W Hwo Z1 Z2.
  pose proof (wf_cursor st W) as Hc. pose proof (wf_last st W) as Hl.
  pose proof (wf_cvalue st W) as Hcv. pose proof (wf_kvalue st W) as Hk.
  rewrite actualize_unfold.
  destruct (flush_words_in (Z.to_nat (lastword st - (wordoffset st + 1)))
              (narr st) (wordoffset st + 1) (cvalue st) (kvalue st))
    as (m & k & Hfl); try lia.
  rewrite Hfl. cbn [bind].
  replace (Z.to_nat (lastword st - (wordoffset st + 1)))
    with (S (S (Z.to_nat (lastword st - wordoffset st - 3)))) in Hfl by lia.
  apply flush_words_zero_top in Hfl.
  - replace (wordoffset st + 1
             + Z.of_nat (Z.to_nat (lastword st - wordoffset st - 3)) + 1)
      with (lastword st - 1) in Hfl by lia.
    destruct Hfl as [-> Hz].
    unfold carry_out. cbn [Z.eqb bind].
    rewrite load_in by lia. cbn [bind]. rewrite Hz. reflexivity.
  - apply (wf_memory st W).
  - unfold u64; lia.
  - exact Hk.
  - replace (wordoffset st + 1
             + Z.of_nat (Z.to_nat (lastword st - wordoffset st - 3)))
      with (lastword st - 2) by lia. exact Z1.
  - replace (wordoffset st + 1
             + Z.of_nat (Z.to_nat (lastword st - wordoffset st - 3)) + 1)
      with (lastword st - 1) by lia. exact Z2.
Qed.

(** Without an actualization the cursor does not move back. *)
Lemma branch_cursor st ev st1 :
  branch st = Ok (ev, st1) ->
  flushes ev = false ->
  wordoffset st <= wordoffset st1.
Proof.
  intros H F. unfold branch in H.
  bind_ok H w Hw.
  destruct (Z.land w (bitmask st) =? 0).
  - bind_ok H s He. apply Ok_inj in H. inversion H; subst ev st1.
    unfold even_branch in He.
    destruct (bitmask st =? MSB64).
    + bind_ok He w' Hw'. bind_ok He m Hm.
      apply Ok_inj in He. subst s. fields. lia.
    + apply Ok_inj in He. subst s. fields. lia.
  - unfold odd_branch in H.
    destruct (lazy_guard (cvalue st) (kvalue st)).
    + bind_ok H s1 Hl.
      destruct (lazy_update_frame st s1 Hl) as (_ & _ & Fwo & _).
      destruct (hail_mary s1).
      * bind_ok H s2 Hab. apply Ok_inj in H. inversion H; subst ev st1.
        discriminate F.
      * apply Ok_inj in H. inversion H; subst ev st1. lia.
    + bind_ok H s2 Hab. apply Ok_inj in H. inversion H; subst ev st1.
      discriminate F.
Qed.

(** Until the first actualization, [lastword] and the words above the
    cursor word are those of the start. *)
Lemma run_from_frame st0 tr st :
  loop_invariant st0 ->
  run_from st0 tr st ->
  Forall (fun ev => flushes ev = false) tr ->
  lastword st = lastword st0 /\
  wordoffset st0 <= wordoffset st /\
  (forall i, wordoffset st < i -> narr st i = narr st0 i).
Proof.
  intros I0 R. induction R as [| tr st st' ev R IH Hb Hit]; intros F.
  - repeat split; auto; lia.
  - inversion F as [| ? ? Fev Ftr]; subst.
    destruct (IH Ftr) as (Elw & Ewo & Em).
    destruct (run_from_invariant st0 tr st I0 R) as [I _].
    destruct (iteration_split st ev st' Hit) as (s1 & Hbr & Hr).
    destruct (refresh_bitsize_fields s1 st' Hr) as (En & Ewo' & _ & Elw' & _).
    pose proof (branch_cursor st ev s1 Hbr Fev) as Hmono.
    destruct (branch_cases st ev s1 I Hbr)
      as [(Ff & _) | (_ & Flw & _ & Fm)]; [congruence |].
    rewrite En, Ewo', Elw'.
    split; [congruence |]. split; [lia |].
    intros i Hi. rewrite Fm by lia. apply Em. lia.
Qed.

(** X13. Zero words at the top of the window.  When the two top words
    of the start are zero (a file with 128 leading zeros or more, or
    the synthetic start over clear memory), the first actualization
    that is reached with the cursor at least three words below the end
    faults: the pass leaves the top word zero and line 152 counts its
    leading zeros. *)
Theorem zero_top_words_fault (st0 st : State) (tr : list event) :
  started st0 ->
  narr st0 (lastword st0 - 2) = 0 ->
  narr st0 (lastword st0 - 1) = 0 ->
  run_from st0 tr st ->
  Forall (fun ev => flushes ev = false) tr ->
  wordoffset st + 2 < lastword st ->
  Z.land (narr st (wordoffset st)) (bitmask st) <> 0 ->
  lazy_guard (cvalue st) (kvalue st) = false ->
  iteration st = Err UB.
Proof.
  intros St Z1 Z2 R F Hwo Odd G.
  destruct (started_spec st0 St) as (I0 & _).
  destruct (run_from_invariant st0 tr st I0 R) as [[W _] _].
  destruct (run_from_frame st0 tr st I0 R F) as (Elw & _ & Em).
  pose proof (wf_cursor st W) as Hc. pose proof (wf_last st W) as Hl.
  unfold iteration, branch. rewrite load_in by lia. cbn [bind].
  apply Z.eqb_neq in Odd. rewrite Odd.
  unfold odd_branch. rewrite G. unfold actualize_block.
  rewrite actualize_zero_top; [reflexivity | exact W | exact Hwo | |].
  - rewrite Em by lia. now rewrite Elw.
  - rewrite Em by lia. now rewrite Elw.
Qed.

(** The value [2^60 - 1] with 132 leading zeros: after 40 lazy steps
    and 40 halvings the guard fails and the actualization faults. *)
Lemma zero_top_words_fault_witness :
  exists st0 tr st,
    init_from_file zero_padded_file clear_memory = Ok st0 /\
    run_events 80 st0 [] = (tr, Running st) /\
    iteration st = Err UB.
Proof.
  do 3 eexists.
  split; [vm_compute; reflexivity |].
  match goal with |- ?E /\ _ => assert (Hrun : E) by (vm_compute; reflexivity) end.
  split; [exact Hrun |].
  assert (St : started
                 (match init_from_file zero_padded_file clear_memory with
                  | Ok s => s | Err _ => init_synthetic clear_memory end)).
  { eapply started_file with (file := zero_padded_file).
    - exact clear_memory_typed.
    - vm_compute. split; [discriminate | reflexivity].
    - vm_compute. reflexivity. }
  pose proof (run_events_sound _ _ _ _ _ _ (run_nil _) Hrun) as [R _].
  eapply zero_top_words_fault.
  - exact St.
  - vm_compute. reflexivity.
  - vm_compute. reflexivity.
  - exact R.
  - vm_compute. repeat constructor.
  - vm_compute. reflexivity.
  - vm_compute. discriminate.
  - vm_compute. reflexivity.
Defined.

(** ** The synthetic start *)

Lemma read_range_app m a : forall lo b,
  read_range m lo (a + b) = read_range m lo a ++ read_range m (lo + Z.of_nat a) b.
Proof.
  induction a as [| a IH]; intros lo b.
  - cbn [Nat.add read_range app]. now rewrite Z.add_0_r.
  - change (S a + b)%nat with (S (a + b)). cbn [read_range app].
    rewrite IH. do 3 f_equal. lia.
Qed.

Lemma all_ones_value m n : forall lo,
  (forall i, lo <= i < lo + Z.of_nat n -> m i = 2 ^ 64 - 1) ->
  words_value (read_range m lo n) = 2 ^ (64 * Z.of_nat n) - 1.
Proof.
  induction n as [| n IH]; intros lo H.
  - reflexivity.
  - cbn [read_range words_value].
    rewrite IH by (intros i Hi; apply H; lia).
    rewrite H by lia.
    replace (64 * Z.of_nat (S n)) with (64 + 64 * Z.of_nat n) by lia.
    rewrite Z.pow_add_r by lia. lia.
Qed.

Lemma words_value_zero m n : forall lo,
  typed_memory m ->
  words_value (read_range m lo n) = 0 <->
  (forall j, lo <= j < lo + Z.of_nat n -> m j = 0).
Proof.
  induction n as [| n IH]; intros lo Hm.
  - cbn [read_range words_value]. split; [intros _ j Hj; lia | reflexivity].
  - cbn [read_range words_value].
    pose proof (Hm lo) as [L0 _].
    pose proof (words_value_nonneg _ (read_range_typed m (lo + 1) n Hm)) as Hn.
    split.
    + intros H j Hj.
      assert (E0 : m lo = 0) by lia.
      assert (E1 : words_value (read_range m (lo + 1) n) = 0) by lia.
      destruct (Z.eq_dec j lo) as [-> | Hne]; [exact E0 |].
      apply (proj1 (IH (lo + 1) Hm) E1). lia.
    + intros H. rewrite (H lo) by lia.
      rewrite (proj2 (IH (lo + 1) Hm)) by (intros j Hj; apply H; lia). lia.
Qed.

(** [n] words of ones below [d] further words. *)
Lemma ones_below m n d :
  0 <= n -> 0 <= d ->
  (forall i, 0 <= i < n -> m i = 2 ^ 64 - 1) ->
  words_value (read_range m 0 (Z.to_nat (n + d)))
  = 2 ^ (64 * n) - 1 + 2 ^ (64 * n) * words_value (read_range m n (Z.to_nat d)).
Proof.
  intros Hn Hd H.
  replace (Z.to_nat (n + d)) with (Z.to_nat n + Z.to_nat d)%nat by lia.
  rewrite read_range_app, words_value_app, read_range_length.
  rewrite all_ones_value by (intros i Hi; apply H; lia).
  rewrite Z2Nat.id by lia. rewrite Z.add_0_l. reflexivity.
Qed.

Lemma bit_length_ones a g :
  0 < a -> 0 <= g ->
  bit_length (2 ^ a - 1 + 2 ^ a * g) = a <-> g = 0.
Proof.
  intros Ha Hg.
  pose proof (pow2_pos a ltac:(lia)) as Hp.
  assert (H2 : 2 <= 2 ^ a).
  { replace a with (1 + (a - 1)) by lia. rewrite Z.pow_add_r by lia.
    pose proof (pow2_pos (a - 1) ltac:(lia)). lia. }
  unfold bit_length.
  split.
  - intros H. destruct (Z.eq_dec g 0) as [E | E]; [exact E | exfalso].
    destruct (Z.eqb_spec (2 ^ a - 1 + 2 ^ a * g) 0) as [E0 | _]; [nia |].
    assert (a <= Z.log2 (2 ^ a - 1 + 2 ^ a * g)).
    { apply Z.log2_le_pow2; nia. }
    lia.
  - intros ->. rewrite Z.mul_0_r, Z.add_0_r.
    destruct (Z.eqb_spec (2 ^ a - 1) 0) as [E0 | _]; [lia |].
    change (2 ^ a - 1) with (Z.pred (2 ^ a)).
    rewrite Z.log2_pred_pow2 by lia. lia.
Qed.

Lemma synthetic_fields mem0 :
  bitsize (init_synthetic mem0) = 64 * NWORDS /\
  lastword (init_synthetic mem0) = NWORDS + 875000 /\
  wordoffset (init_synthetic mem0) = 0 /\
  bitmask (init_synthetic mem0) = 1 /\
  (forall j, narr (init_synthetic mem0) j
             = if (0 <=? j) && (j <? NWORDS) then 2 ^ 64 - 1 else mem0 j).
Proof.
  unfold init_synthetic. fields.
  split; [reflexivity |]. split; [reflexivity |].
  split; [reflexivity |]. split; [reflexivity |].
  intros j. reflexivity.
Qed.

(** X14. The synthetic start (lines 76-79).  [memset] fills [NWORDS]
    words with ones and [bitsize] is [64 * NWORDS], but [lastword] is
    set 875000 words further: the number the loop works on is
    [2^(64 NWORDS) - 1] plus the uninitialised words above it, and
    [bitsize] is its bit length exactly when all those words are 0. *)
Theorem synthetic_start (mem0 : memory) :
  typed_memory mem0 ->
  bitsize (init_synthetic mem0) = 64 * NWORDS /\
  lastword (init_synthetic mem0) = NWORDS + 875000 /\
  represented (init_synthetic mem0)
  = 2 ^ (64 * NWORDS) - 1
    + 2 ^ (64 * NWORDS)
      * words_value (read_range mem0 NWORDS (Z.to_nat 875000)) /\
  (bit_length (represented (init_synthetic mem0)) = bitsize (init_synthetic mem0)
   <-> forall j, NWORDS <= j < NWORDS + 875000 -> mem0 j = 0).
Proof.
  intros Hm.
  destruct (synthetic_fields mem0) as (Eb & El & Ew & Em & En).
  assert (HN : 0 < NWORDS) by (unfold NWORDS; lia).
  assert (Er : represented (init_synthetic mem0)
               = 2 ^ (64 * NWORDS) - 1
                 + 2 ^ (64 * NWORDS)
                   * words_value (read_range mem0 NWORDS (Z.to_nat 875000))).
  { assert (Ho : forall i, 0 <= i < NWORDS ->
                 narr (init_synthetic mem0) i = 2 ^ 64 - 1).
    { intros i Hi. rewrite En.
      destruct (Z.leb_spec 0 i); [| lia].
      destruct (Z.ltb_spec i NWORDS); [reflexivity | lia]. }
    pose proof (ones_below (narr (init_synthetic mem0)) NWORDS 875000
                  (Z.lt_le_incl _ _ HN) ltac:(discriminate) Ho) as Hv.
    unfold represented, window. rewrite Em, Ew, El, Z.div_1_r, Z.sub_0_r.
    rewrite Hv.
    rewrite (read_range_ext mem0 (narr (init_synthetic mem0))); [reflexivity |].
    intros i Hi. rewrite En.
    destruct (Z.ltb_spec i NWORDS); [lia |].
    rewrite andb_false_r. reflexivity. }
  split; [exact Eb |]. split; [exact El |]. split; [exact Er |].
  rewrite Er, Eb.
  rewrite bit_length_ones; try lia.
  - rewrite (words_value_zero mem0 (Z.to_nat 875000) NWORDS Hm).
    rewrite Z2Nat.id by lia. reflexivity.
  - apply words_value_nonneg, read_range_typed, Hm.
Qed.

(** Over clear memory the number is [2^(64 NWORDS) - 1]. *)
Lemma synthetic_start_witness :
  typed_memory clear_memory /\
  (bit_length (represented (init_synthetic clear_memory))
   = bitsize (init_synthetic clear_memory)
   <-> forall j, NWORDS <= j < NWORDS + 875000 -> clear_memory j = 0).
Proof.
  split; [exact clear_memory_typed |].
  exact (proj2 (proj2 (proj2 (synthetic_start clear_memory clear_memory_typed)))).
Defined.

(** ** The run from the synthetic start *)

Lemma run_from_run st0 tr st :
  run_from st0 tr st ->
  forall fuel, run (length tr + fuel) st0 = run fuel st.
Proof.
  induction 1 as [| tr st st' ev R IH Hb Hit]; intros fuel.
  - reflexivity.
  - cbn [length]. replace (S (length tr) + fuel)%nat
      with (length tr + S fuel)%nat by lia.
    rewrite IH. cbn [run].
    destruct (Z.eqb_spec (bitsize st) 1) as [E | _]; [contradiction |].
    now rewrite Hit.
Qed.

Lemma run_fault_later st0 tr st e fuel :
  run_from st0 tr st ->
  bitsize st <> 1 ->
  iteration st = Err e ->
  (length tr < fuel)%nat ->
  run fuel st0 = Failed e.
Proof.
  intros R Hb Hit Hf.
  replace fuel with (length tr + S (fuel - length tr - 1))%nat by lia.
  rewrite (run_from_run st0 tr st R). cbn [run].
  destruct (Z.eqb_spec (bitsize st) 1) as [E | _]; [contradiction |].
  now rewrite Hit.
Qed.

(** The first 80 iterations from the synthetic start read and write
    the first word only: 40 lazy steps and 40 halvings, after which
    the cursor's bit is set and the guard of line 124 fails. *)
Lemma synthetic_prefix mem0 :
  match run_events 80 (init_synthetic mem0) [] with
  | (tr, Running st) =>
      (length tr =? 80)%nat
      && forallb (fun ev => negb (flushes ev)) tr
      && (wordoffset st =? 0)
      && negb (Z.land (narr st (wordoffset st)) (bitmask st) =? 0)
      && negb (lazy_guard (cvalue st) (kvalue st)) = true
  | _ => False
  end.
Proof. vm_compute. reflexivity. Qed.

(** X15. The run without a file argument.  If the two words below
    [lastword] are zero in the buffer [posix_memalign] returned, the
    run faults in its 81st iteration: the first actualization leaves
    the top word zero and line 152 counts its leading zeros. *)
Theorem synthetic_run_faults (mem0 : memory) (fuel : nat) :
  typed_memory mem0 ->
  mem0 (NWORDS + 874998) = 0 ->
  mem0 (NWORDS + 874999) = 0 ->
  (80 < fuel)%nat ->
  run fuel (init_synthetic mem0) = Failed UB.
Proof.
  intros Hm Z1 Z2 Hf.
  pose proof (synthetic_prefix mem0) as P.
  destruct (run_events 80 (init_synthetic mem0) []) as [tr o] eqn:E.
  destruct o as [| | st]; try contradiction.
  apply andb_true_iff in P. destruct P as [P G].
  apply andb_true_iff in P. destruct P as [P Odd].
  apply andb_true_iff in P. destruct P as [P Wo].
  apply andb_true_iff in P. destruct P as [Len Fl].
  apply Nat.eqb_eq in Len. apply Z.eqb_eq in Wo.
  apply negb_true_iff in G. apply negb_true_iff, Z.eqb_neq in Odd.
  assert (F : Forall (fun ev => flushes ev = false) tr).
  { apply Forall_forall. intros ev Hev.
    rewrite forallb_forall in Fl. apply negb_true_iff. now apply Fl. }
  pose proof (run_events_sound _ _ _ _ _ _ (run_nil _) E) as [R Hb].
  pose proof (started_synthetic mem0 Hm) as St.
  destruct (started_spec _ St) as (I0 & _).
  destruct (run_from_invariant _ tr st I0 R) as [[W _] _].
  destruct (run_from_frame _ tr st I0 R F) as (Elw & _ & Em).
  destruct (synthetic_fields mem0) as (_ & El & _ & _ & En).
  assert (HN : 0 < NWORDS) by (unfold NWORDS; lia).
  rewrite El in Elw.
  apply (run_fault_later _ tr st UB fuel R Hb); [| lia].
  pose proof (wf_last st W) as Hl.
  unfold iteration, branch. rewrite load_in by lia. cbn [bind].
  apply Z.eqb_neq in Odd. rewrite Odd.
  unfold odd_branch. rewrite G. unfold actualize_block.
  rewrite actualize_zero_top; [reflexivity | exact W | lia | |].
  - rewrite Em by lia. rewrite Elw, En.
    replace (NWORDS + 875000 - 2) with (NWORDS + 874998) by lia.
    destruct (Z.ltb_spec (NWORDS + 874998) NWORDS); [lia |].
    rewrite andb_false_r. exact Z1.
  - rewrite Em by lia. rewrite Elw, En.
    replace (NWORDS + 875000 - 1) with (NWORDS + 874999) by lia.
    destruct (Z.ltb_spec (NWORDS + 874999) NWORDS); [lia |].
    rewrite andb_false_r. exact Z2.
Qed.

(** Over clear memory the run stops there. *)
Lemma synthetic_run_faults_witness :
  run 81 (init_synthetic clear_memory) = Failed UB.
Proof.
  apply synthetic_run_faults.
  - exact clear_memory_typed.
  - reflexivity.
  - reflexivity.
  - lia.
Defined.

(** * The actualization pass against eager arithmetic *)



(** * The loader reads characters as bits *)

Lemma char_at_removelast (file : list ascii) (i : Z) :
  0 <= i < Z.of_nat (length file) - 1 ->
  char_at (removelast file) i = char_at file i.
Proof.
  intros Hi. unfold char_at.
  rewrite removelast_firstn_len.
  rewrite nth_firstn.
  destruct (Nat.ltb_spec (Z.to_nat i) (Nat.pred (length file))); [reflexivity | lia].
Qed.

(** The bit of the buffer that the character at position [i] of the
    file decides. *)
Lemma loaded_bits file mem0 st i :
  typed_memory mem0 ->
  2 <= Z.of_nat (length file) < 2 ^ 64 ->
  init_from_file file mem0 = Ok st ->
  0 <= i < Z.of_nat (length file) - 1 ->
  let p := Z.of_nat (length file) - 2 - i in
  Z.testbit (narr st (p / 64)) (p mod 64)
  = negb (Ascii.eqb (char_at file i) "0"%char) /\
  Z.testbit (represented st) p
  = negb (Ascii.eqb (char_at file i) "0"%char).
Proof.
  intros Hm Hlen H Hi p.
  pose proof (loaded_value file mem0 st Hm Hlen H) as Hv.
  destruct (init_from_file_spec file mem0 st Hlen H)
    as (W & Hwo & Hbm & Hlw & _).
  specialize (W Hm).
  pose proof (file_digits_length file ltac:(lia)) as Hdl.
  assert (Hp : 0 <= p < Z.of_nat (length (removelast file))) by (subst p; lia).
  assert (Hbit : Z.testbit (binary_value (removelast file)) p
                 = negb (Ascii.eqb (char_at file i) "0"%char)).
  { rewrite binary_value_bits by lia.
    destruct (Z.ltb_spec p (Z.of_nat (length (removelast file)))); [| lia].
    replace (Z.of_nat (length (removelast file)) - 1 - p) with i by (subst p; lia).
    rewrite char_at_removelast by lia. reflexivity. }
  split.
  - rewrite <- Hbit, <- Hv. unfold window.
    rewrite read_range_bits by (try apply (wf_memory st W); lia).
    rewrite Hwo, Z.sub_0_r, Z.add_0_l.
    rewrite Z2Nat.id by (pose proof (wf_cursor st W); lia).
    destruct (Z.ltb_spec p (64 * lastword st)) as [_ | Hge]; [reflexivity |].
    exfalso. rewrite Hlw in Hge. dlia.
  - unfold represented. rewrite Hbm, Z.div_1_r, Hv. exact Hbit.
Qed.

(** C10. The loader reads every character other than ['0'] as a 1
    bit.  Bit [63 - i] of the word [asbyte] makes of a block is set
    exactly when character [i] of the block is not ['0'], and no higher
    bit is set.  Every file of at least one digit within the capacity
    check is loaded, whatever its characters, and the bit of the
    buffer at the position of a character, counted from the end of the
    digits, is set exactly when that character is not ['0'].
    Replacing every character other than ['0'] by ['1'] changes the
    outcome of the loader for no file, and the loader rejects a file
    on its length alone. *)
Theorem asbyte_reads_nonzero_as_one (file : list ascii) (mem0 : memory) :
  typed_memory mem0 ->
  2 <= Z.of_nat (length file) < 2 ^ 64 ->
  (Z.of_nat (length file) - 1) / 64 <= NWORDS ->
  (forall num s i, 0 <= i < 64 ->
     Z.testbit (asbyte num s) (63 - i)
     = negb (Ascii.eqb (char_at num (s + i)) "0"%char)) /\
  (forall num s, u64 (asbyte num s)) /\
  (exists st,
     init_from_file file mem0 = Ok st /\
     forall i, 0 <= i < Z.of_nat (length file) - 1 ->
       let p := Z.of_nat (length file) - 2 - i in
       Z.testbit (narr st (p / 64)) (p mod 64)
       = negb (Ascii.eqb (char_at file i) "0"%char) /\
       Z.testbit (represented st) p
       = negb (Ascii.eqb (char_at file i) "0"%char)) /\
  (forall file' mem',
     init_from_file (map as_binary file') mem' = init_from_file file' mem') /\
  (forall file' mem',
     init_from_file file' mem' = Err ExitFailure <->
     file' <> [] /\
     wrap64 (wrap64 (Z.of_nat (length file')) - 1) / 64 > NWORDS).
Proof.
  intros Hm Hlen Hcap. split; [| split; [| split; [| split]]].
  - intros num s i Hi. rewrite asbyte_bits by lia.
    destruct (Z.ltb_spec (63 - i) 64); [| lia].
    replace (s + (63 - (63 - i))) with (s + i) by lia. reflexivity.
  - apply asbyte_range.
  - destruct (init_from_file_defined file mem0 Hlen Hcap) as [st H].
    exists st. split; [exact H |].
    intros i Hi. apply (loaded_bits file mem0 st i Hm Hlen H Hi).
  - apply init_from_file_as_binary.
  - apply init_from_file_rejects.
Qed.

(** A file of 66 characters with an [x] and a [z] among the digits:
    the file is loaded; the [z], second to last, sets bit 1 of the
    first word, which [asbyte] makes of the full block; the [x], second
    character, sets bit 0 of the second word, made of the partial
    block; the number is [2^65 + 2^64 + 2]. *)
Lemma asbyte_reads_nonzero_as_one_witness :
  exists st,
    init_from_file malformed_file clear_memory = Ok st /\
    represented st = 2 ^ 65 + 2 ^ 64 + 2 /\
    char_at malformed_file 64 = "z"%char /\
    Z.testbit (narr st 0) 1 = true /\
    char_at malformed_file 1 = "x"%char /\
    Z.testbit (narr st 1) 0 = true.
Proof.
  eexists.
  match goal with |- ?E /\ _ => assert (Hi : E) by (vm_compute; reflexivity) end.
  split; [exact Hi |].
  split; [vm_compute; reflexivity |].
  split; [reflexivity |].
  destruct (asbyte_reads_nonzero_as_one malformed_file clear_memory)
    as (_ & _ & (st' & E & Hb) & _).
  - exact clear_memory_typed.
  - vm_compute. split; [discriminate | reflexivity].
  - vm_compute. discriminate.
  - pose proof (eq_trans (eq_sym E) Hi) as Es. apply Ok_inj in Es. subst st'.
    split; [| split; [reflexivity |]].
    + exact (proj1 (Hb 64 ltac:(vm_compute; split; [discriminate | reflexivity]))).
    + exact (proj1 (Hb 1 ltac:(vm_compute; split; [discriminate | reflexivity]))).
Defined.
